(** * FT2 paper-trading system: order-block strategy and paper-trading engine

    A shallow embedding of [paper_trading_system/orderblock_strategy.py] and
    [paper_trading_system/paper_trading_engine.py] (with the constants of
    [config.py]) and the properties of the written specification.  The
    data feed, the notifier and the replay loop of [forward_tester.py] are
    not modelled.

    Numbers.  Python and pandas compute on IEEE doubles; the embedding
    computes on exact rationals ([Q]), so equations between prices are stated
    up to [==] and rounding is not modelled.  A pandas cell is an
    [option Q], [None] being NaN.  Candles carry plain rationals (the
    pipeline receives validated rows), and prices are meant to be positive:
    a division by zero, which raises [ZeroDivisionError] on Python floats
    and yields inf or nan on numpy floats, is a fault of the engine
    operations ([None] of the [fault] monad) and a NaN cell of the
    indicator columns. *)

From Stdlib Require Import String.
From Stdlib Require Import QArith Qabs Qminmax Lqa Qfield.
From Stdlib Require Import ZArith List Bool Lia.
From Stdlib Require Import Sorted Permutation.
Import ListNotations.

Open Scope Q_scope.

(** ** Comparisons of rationals as booleans *)

Definition Qltb (x y : Q) : bool := negb (Qle_bool y x).
Definition Qleb (x y : Q) : bool := Qle_bool x y.
Definition Qgtb (x y : Q) : bool := Qltb y x.
Definition Qgeb (x y : Q) : bool := Qleb y x.

(** ** The fault monad

    An operation either returns or stops on an exception, a division by
    zero in the engine and an index out of range in the strategy; [None]
    is that fault. *)

Definition fault (A : Type) : Type := option A.

Definition ret {A : Type} (a : A) : fault A := Some a.

Definition bind {A B : Type} (c : fault A) (k : A -> fault B) : fault B :=
  match c with
  | Some a => k a
  | None => None
  end.

Notation "x <- c ;; k" := (bind c (fun x => k))
  (at level 61, c at next level, right associativity).

(** Python's [a / b] on floats. *)
Definition pydiv (a b : Q) : fault Q :=
  if Qeq_bool b 0 then None else Some (a / b).

(** ** config.py *)

Module config.
Definition INITIAL_CAPITAL : Q := 100.
Definition RISK_PER_TRADE : Q := 0.02.
Definition SLIPPAGE : Q := 0.0005.
Definition COMMISSION : Q := 0.0006.
Definition EMA_PERIOD : nat := 200.
End config.

(** ** Data model *)

Definition timestamp : Type := Z.

(** [signal['type']] is ['long'] or ['short']; every test on it in the
    source is [== 'long'] with the other branch taken otherwise. *)
Inductive side : Type := Long | Short.

(** The dictionary returned by [detect_signal] and read by
    [open_position]. *)
Record signal : Type := mkSignal {
  sig_type : side;
  sig_entry_price : Q;
  sig_stop_loss : Q;
  sig_timestamp : timestamp;
  sig_ob_index : Z
}.

(** [self.position]. *)
Record position : Type := mkPosition {
  pos_type : side;
  entry_price : Q;
  adj_entry_price : Q;
  entry_time : timestamp;
  entry_capital : Q;
  position_size : Q;
  stop_loss : Q;
  sl_percentage : Q;
  trailing_stop_pct : Q;
  entry_commission : Q
}.

(** A completed trade: [{**self.position, 'exit_price': ..., ...}]; no key
    of the second part is a key of the position. *)
Record trade : Type := mkTrade {
  tr_position : position;
  exit_price : Q;
  exit_time : timestamp;
  exit_capital : Q;
  pnl : Q;
  return_pct : Q;
  return_multiplier : Q;
  tr_commission : Q;
  exit_reason : string
}.

(** The attributes of a [PaperTradingEngine]. *)
Record engine : Type := mkEngine {
  initial_capital : Q;
  slippage : Q;
  commission : Q;
  capital : Q;
  cur_position : option position;
  equity_history : list (timestamp * Q);
  trades : list trade;
  ema_200 : option Q
}.

Definition set_capital (c : Q) (e : engine) : engine :=
  mkEngine (initial_capital e) (slippage e) (commission e) c
           (cur_position e) (equity_history e) (trades e) (ema_200 e).

Definition set_position (p : option position) (e : engine) : engine :=
  mkEngine (initial_capital e) (slippage e) (commission e) (capital e)
           p (equity_history e) (trades e) (ema_200 e).

Definition set_equity_history (h : list (timestamp * Q)) (e : engine) : engine :=
  mkEngine (initial_capital e) (slippage e) (commission e) (capital e)
           (cur_position e) h (trades e) (ema_200 e).

Definition set_trades (t : list trade) (e : engine) : engine :=
  mkEngine (initial_capital e) (slippage e) (commission e) (capital e)
           (cur_position e) (equity_history e) t (ema_200 e).

Definition set_ema_200 (m : option Q) (e : engine) : engine :=
  mkEngine (initial_capital e) (slippage e) (commission e) (capital e)
           (cur_position e) (equity_history e) (trades e) m.

Definition set_stop_loss (s : Q) (p : position) : position :=
  mkPosition (pos_type p) (entry_price p) (adj_entry_price p) (entry_time p)
             (entry_capital p) (position_size p) s (sl_percentage p)
             (trailing_stop_pct p) (entry_commission p).

(** ** PaperTradingEngine *)

(** [x or d] on an optional number: [None] and zero are falsy. *)
Definition py_or (x : option Q) (d : Q) : Q :=
  match x with
  | None => d
  | Some q => if Qeq_bool q 0 then d else q
  end.

(** [PaperTradingEngine.__init__]. *)
Definition init_engine (initial_capital slippage commission : option Q) : engine :=
  let ic := py_or initial_capital config.INITIAL_CAPITAL in
  mkEngine ic
           (py_or slippage config.SLIPPAGE)
           (py_or commission config.COMMISSION)
           ic None [] [] None.

(** [get_current_equity]. *)
Definition get_current_equity (e : engine) (current_price : option Q) : fault Q :=
  match cur_position e with
  | None => ret (capital e)
  | Some p =>
    match current_price with
    | None => ret (capital e)
    | Some price =>
      return_multiplier <-
        match pos_type p with
        | Long =>
          let unrealized_exit_price := price * (1 - slippage e) in
          pydiv unrealized_exit_price (adj_entry_price p)
        | Short =>
          let unrealized_exit_price := price * (1 + slippage e) in
          pydiv (adj_entry_price p) unrealized_exit_price
        end ;;
      ret (entry_capital p * return_multiplier - entry_commission p)
    end
  end.

(** [open_position]: the returned dictionary is a copy of the new
    position. *)
Definition open_position (e : engine) (sg : signal) (ts : timestamp)
  : fault (option position * engine) :=
  match cur_position e with
  | Some _ => ret (None, e)
  | None =>
    let trade_type := sig_type sg in
    let entry_price := sig_entry_price sg in
    let stop_loss := sig_stop_loss sg in
    let adj_entry_price :=
      match trade_type with
      | Long => entry_price * (1 + slippage e)
      | Short => entry_price * (1 - slippage e)
      end in
    let invalid :=
      match trade_type with
      | Long => Qleb adj_entry_price stop_loss
      | Short => Qgeb adj_entry_price stop_loss
      end in
    if invalid then ret (None, e)
    else
      position_size <- pydiv (capital e) adj_entry_price ;;
      let entry_commission := position_size * adj_entry_price * commission e in
      let capital_after_commission := capital e - entry_commission in
      sl_percentage <-
        match trade_type with
        | Long => pydiv (adj_entry_price - stop_loss) adj_entry_price
        | Short => pydiv (stop_loss - adj_entry_price) adj_entry_price
        end ;;
      let trailing_stop_pct := sl_percentage * 0.75 in
      let p := mkPosition trade_type entry_price adj_entry_price ts
                          (capital e) position_size stop_loss sl_percentage
                          trailing_stop_pct entry_commission in
      ret (Some p, set_capital capital_after_commission (set_position (Some p) e))
  end.

(** [close_position].  A fault gives no engine: the source has by then
    written [self.capital] but still holds the position. *)
Definition close_position (e : engine) (exit_price : Q) (ts : timestamp)
                          (reason : string)
  : fault (option trade * engine) :=
  match cur_position e with
  | None => ret (None, e)
  | Some p =>
    let adj_exit_price :=
      match pos_type p with
      | Long => exit_price * (1 - slippage e)
      | Short => exit_price * (1 + slippage e)
      end in
    return_multiplier <-
      match pos_type p with
      | Long => pydiv adj_exit_price (adj_entry_price p)
      | Short => pydiv (adj_entry_price p) adj_exit_price
      end ;;
    let capital_after_slippage := entry_capital p * return_multiplier in
    let exit_commission := position_size p * adj_exit_price * commission e in
    let total_commission := entry_commission p + exit_commission in
    let final_capital := capital_after_slippage - exit_commission in
    let pnl := final_capital - entry_capital p in
    ratio <- pydiv pnl (entry_capital p) ;;
    let t := mkTrade p adj_exit_price ts final_capital pnl (ratio * 100)
                     return_multiplier total_commission reason in
    ret (Some t,
         set_position None
           (set_trades (trades e ++ [t]) (set_capital final_capital e)))
  end.

(** [update_position]: the trailing stop is written into the position
    before the exit test reads it. *)
Definition update_position (e : engine) (current_price : Q) (ts : timestamp)
  : fault (option trade * engine) :=
  match cur_position e with
  | None => ret (None, e)
  | Some p =>
    match pos_type p with
    | Long =>
      let trail_price := current_price * (1 - trailing_stop_pct p) in
      let p' := if Qgtb trail_price (stop_loss p)
                then set_stop_loss trail_price p else p in
      let e' := set_position (Some p') e in
      if Qleb current_price (stop_loss p')
      then close_position e' (stop_loss p') ts "stop_loss"
      else ret (None, e')
    | Short =>
      let trail_price := current_price * (1 + trailing_stop_pct p) in
      let p' := if Qltb trail_price (stop_loss p)
                then set_stop_loss trail_price p else p in
      let e' := set_position (Some p') e in
      if Qgeb current_price (stop_loss p')
      then close_position e' (stop_loss p') ts "stop_loss"
      else ret (None, e')
    end
  end.

(** [record_equity]. *)
Definition record_equity (e : engine) (ts : timestamp) (current_price : option Q)
  : fault engine :=
  equity <- get_current_equity e current_price ;;
  ret (set_equity_history (equity_history e ++ [(ts, equity)]) e).

(** [df['equity'].ewm(span=span, adjust=False).mean()]: the first value is
    the first observation, every later one is
    [(1 - alpha) * previous + alpha * observation] with
    [alpha = 2 / (span + 1)]. *)
Definition ewm_alpha (span : nat) : Q := 2 / (inject_Z (Z.of_nat span) + 1).

Fixpoint ewm_from (alpha prev : Q) (xs : list Q) : list Q :=
  match xs with
  | [] => []
  | x :: rest =>
    let y := (1 - alpha) * prev + alpha * x in
    y :: ewm_from alpha y rest
  end.

Definition ewm_mean (span : nat) (xs : list Q) : list Q :=
  match xs with
  | [] => []
  | x :: rest => x :: ewm_from (ewm_alpha span) x rest
  end.

(** [s.iloc[-1]]. *)
Definition iloc_last {A : Type} (l : list A) : option A :=
  nth_error l (length l - 1).

(** [calculate_ema_200]. *)
Definition calculate_ema_200 (e : engine) : option Q :=
  if (length (equity_history e) <? 200)%nat then None
  else
    let equity_values := map snd (equity_history e) in
    iloc_last (ewm_mean config.EMA_PERIOD equity_values).

(** [should_take_trade]: it stores the average in [self.ema_200] and reads
    the equity without a price. *)
Definition should_take_trade (e : engine) : fault (bool * engine) :=
  let e' := set_ema_200 (calculate_ema_200 e) e in
  match ema_200 e' with
  | None => ret (true, e')
  | Some ema =>
    current_equity <- get_current_equity e' None ;;
    ret (Qgtb current_equity ema, e')
  end.

(** ** pandas columns *)

(** A column of floats; [None] is NaN. *)
Definition series : Type := list (option Q).

Definition Qsum (l : list Q) : Q := fold_right Qplus 0 l.

Definition Qnat (n : nat) : Q := inject_Z (Z.of_nat n).

(** The cells that are not NaN. *)
Fixpoint defined (s : series) : list Q :=
  match s with
  | [] => []
  | Some v :: rest => v :: defined rest
  | None :: rest => defined rest
  end.

(** All the cells, when none is NaN. *)
Fixpoint all_defined (s : series) : option (list Q) :=
  match s with
  | [] => Some []
  | Some v :: rest =>
    match all_defined rest with
    | Some vs => Some (v :: vs)
    | None => None
    end
  | None :: rest => None
  end.

(** Element-wise operations; NaN propagates. *)
Fixpoint zip_with {A B C : Type} (f : A -> B -> C) (a : list A) (b : list B)
  : list C :=
  match a, b with
  | x :: a', y :: b' => f x y :: zip_with f a' b'
  | _, _ => []
  end.

Definition lift1 (f : Q -> Q) (x : option Q) : option Q :=
  match x with
  | Some a => Some (f a)
  | None => None
  end.

Definition lift2 (f : Q -> Q -> Q) (x y : option Q) : option Q :=
  match x, y with
  | Some a, Some b => Some (f a b)
  | _, _ => None
  end.

(** A zero divisor gives a NaN cell (see the header). *)
Definition cell_div (x y : option Q) : option Q :=
  match x, y with
  | Some a, Some b => if Qeq_bool b 0 then None else Some (a / b)
  | _, _ => None
  end.

Definition s_sub (a b : series) : series := zip_with (lift2 Qminus) a b.
Definition s_div (a b : series) : series := zip_with cell_div a b.
Definition s_scale (a : series) (k : Q) : series := map (lift1 (fun x => x * k)) a.
Definition s_abs (a : series) : series := map (lift1 Qabs) a.
Definition s_maximum (a b : series) : series := zip_with (lift2 Qmax) a b.

(** [s.shift(k)]. *)
Definition shift (k : nat) (s : series) : series :=
  firstn (length s) (repeat None k ++ s).

(** The last [w] cells of a list. *)
Definition lastn {A : Type} (w : nat) (l : list A) : list A :=
  skipn (length l - w) l.

(** A window function applied at every row [i] to the rows [0..i]: the
    shape of [rolling(...)] and [expanding()]. *)
Definition at_each_row {A B : Type} (f : list A -> B) (s : list A) : list B :=
  map (fun i => f (firstn (S i) s)) (seq 0 (length s)).

(** One cell of [s.rolling(window=w).mean()], from the rows up to it:
    [min_periods] is the window, so a short window or a NaN in it gives
    NaN. *)
Definition window_mean (w : nat) (upto : series) : option Q :=
  if (w =? 0)%nat || (length upto <? w)%nat then None
  else
    match all_defined (lastn w upto) with
    | Some vs => Some (Qsum vs / Qnat w)
    | None => None
    end.

Definition rolling_mean (w : nat) (s : series) : series :=
  at_each_row (window_mean w) s.

(** [s.expanding().apply(func, raw=False)]: [min_periods] is 1, so [func]
    is called on the rows up to the current one when at least one of them
    is not NaN. *)
Definition expanding_apply (func : series -> option Q) (s : series) : series :=
  at_each_row
    (fun upto => if (1 <=? length (defined upto))%nat then func upto else None) s.

(** [s.mean()] skips NaN and is NaN on no value. *)
Definition mean_skipna (s : series) : option Q :=
  match defined s with
  | [] => None
  | vs => Some (Qsum vs / Qnat (length vs))
  end.

(** A comparison with NaN is false. *)
Definition cell_gtb (x y : option Q) : bool :=
  match x, y with
  | Some a, Some b => Qgtb a b
  | _, _ => false
  end.

Definition cell_ltb (x y : option Q) : bool := cell_gtb y x.

Definition cell_geb (x y : option Q) : bool :=
  match x, y with
  | Some a, Some b => Qgeb a b
  | _, _ => false
  end.

Definition cell_leb (x y : option Q) : bool := cell_geb y x.

Definition isna (x : option Q) : bool :=
  match x with
  | Some _ => false
  | None => true
  end.

(** [s.iloc[i]] with Python's negative indices; [None] is [IndexError]. *)
Definition iloc {A : Type} (l : list A) (i : Z) : fault A :=
  let n := Z.of_nat (length l) in
  if (0 <=? i)%Z then nth_error l (Z.to_nat i)
  else if (- n <=? i)%Z then nth_error l (Z.to_nat (n + i))
  else None.

(** [list(range(start, stop, -1))]. *)
Definition range_down (start stop : Z) : list Z :=
  map (fun k => (start - Z.of_nat k)%Z) (seq 0 (Z.to_nat (start - stop))).

(** ** OrderBlockStrategy *)

Record candle : Type := mkCandle {
  c_timestamp : timestamp;
  c_open : Q;
  c_high : Q;
  c_low : Q;
  c_close : Q;
  c_volume : Q
}.

(** The attributes of an [OrderBlockStrategy]. *)
Record strategy : Type := mkStrategy {
  sensitivity : Q;
  min_volume_percentile : Q;
  trend_period : nat;
  min_trades_distance : Z;
  last_trade_index : Z
}.

(** [OrderBlockStrategy.__init__]. *)
Definition init_strategy (sensitivity min_volume_percentile : Q)
                         (trend_period : nat) (min_trades_distance : Z)
  : strategy :=
  mkStrategy sensitivity min_volume_percentile trend_period
             min_trades_distance (- min_trades_distance)%Z.

Definition default_strategy : strategy := init_strategy 0.015 50 20 10.

Definition set_last_trade_index (i : Z) (s : strategy) : strategy :=
  mkStrategy (sensitivity s) (min_volume_percentile s) (trend_period s)
             (min_trades_distance s) i.

(** The data frame returned by [calculate_indicators]: the rows it was
    given and the columns it adds. *)
Record frame : Type := mkFrame {
  rows : list candle;
  pc : series;
  volume_ma : series;
  volume_percentile : series;
  sma20 : series;
  sma50 : series;
  tr : series;
  atr : series;
  expanding_avg_atr : series;
  roc : series
}.

(** [df[name]] for a column of the input. *)
Definition column (f : candle -> Q) (df : list candle) : series :=
  map (fun c => Some (f c)) df.

(** The local function [calc_volume_percentile] of
    [calculate_indicators]. *)
Definition calc_volume_percentile (s : series) : option Q :=
  if (length s <? 2)%nat then Some 50
  else
    let current_vol := last s None in
    let past_vols := removelast s in
    let hits := filter (fun v => cell_gtb current_vol v) past_vols in
    Some (Qnat (length hits) / Qnat (length past_vols) * 100).

(** The lambda of the expanding ATR average. *)
Definition atr_before (x : series) : option Q :=
  if (1 <? length x)%nat then mean_skipna (removelast x) else None.

(** [calculate_indicators]. *)
Definition calculate_indicators (s : strategy) (df : list candle) : frame :=
  let open := column c_open df in
  let high := column c_high df in
  let low := column c_low df in
  let close := column c_close df in
  let volume := column c_volume df in
  let pc := s_scale (s_div (s_sub open (shift 4 open)) (shift 4 open)) 100 in
  let volume_ma := shift 1 (rolling_mean 20 volume) in
  let volume_percentile := expanding_apply calc_volume_percentile volume in
  let sma20 := shift 1 (rolling_mean (trend_period s) close) in
  let sma50 := shift 1 (rolling_mean 50 close) in
  let tr :=
    s_maximum (s_sub high low)
              (s_maximum (s_abs (s_sub high (shift 1 close)))
                         (s_abs (s_sub low (shift 1 close)))) in
  let atr := shift 1 (rolling_mean 14 tr) in
  let expanding_avg_atr := expanding_apply atr_before atr in
  let roc := s_scale (s_div (s_sub close (shift 10 close)) (shift 10 close)) 100 in
  mkFrame df pc volume_ma volume_percentile sma20 sma50 tr atr
          expanding_avg_atr roc.

(** [df.iloc[:n]]. *)
Definition frame_head (n : nat) (fr : frame) : frame :=
  mkFrame (firstn n (rows fr)) (firstn n (pc fr)) (firstn n (volume_ma fr))
          (firstn n (volume_percentile fr)) (firstn n (sma20 fr))
          (firstn n (sma50 fr)) (firstn n (tr fr)) (firstn n (atr fr))
          (firstn n (expanding_avg_atr fr)) (firstn n (roc fr)).

(** [is_valid_trade_condition]. *)
Definition is_valid_trade_condition (s : strategy) (df : frame) (idx : Z)
                                    (trade_type : side) : fault bool :=
  if (idx - last_trade_index s <? min_trades_distance s)%Z then ret false
  else
    vp <- iloc (volume_percentile df) idx ;;
    if isna vp || cell_ltb vp (Some (min_volume_percentile s)) then ret false
    else
      sma20_i <- iloc (sma20 df) idx ;;
      sma50_i <- iloc (sma50 df) idx ;;
      roc_i <- iloc (roc df) idx ;;
      if isna sma20_i || isna sma50_i || isna roc_i then ret false
      else
        let trend :=
          match trade_type with
          | Long => cell_gtb sma20_i sma50_i && cell_gtb roc_i (Some 0)
          | Short => cell_ltb sma20_i sma50_i && cell_ltb roc_i (Some 0)
          end in
        if negb trend then ret false
        else
          current_atr <- iloc (atr df) idx ;;
          avg_atr <- iloc (expanding_avg_atr df) idx ;;
          if isna current_atr || isna avg_atr then ret false
          else if cell_gtb current_atr (lift1 (fun a => a * 1.5) avg_atr)
          then ret false
          else ret true.

(** The [for j in range(...)] loop of the long branch of [detect_signal]:
    the first bearish candle whose low is under the current close. *)
Fixpoint scan_long (df : frame) (idx : Z) (js : list Z) : fault (option signal) :=
  match js with
  | [] => ret None
  | j :: rest =>
    cj <- iloc (rows df) j ;;
    if Qltb (c_close cj) (c_open cj) then
      let ob_low := c_low cj in
      ci <- iloc (rows df) idx ;;
      let current_price := c_close ci in
      if Qgtb current_price ob_low
      then ret (Some (mkSignal Long current_price ob_low (c_timestamp ci) j))
      else scan_long df idx rest
    else scan_long df idx rest
  end.

(** The loop of the short branch. *)
Fixpoint scan_short (df : frame) (idx : Z) (js : list Z) : fault (option signal) :=
  match js with
  | [] => ret None
  | j :: rest =>
    cj <- iloc (rows df) j ;;
    if Qgtb (c_close cj) (c_open cj) then
      let ob_high := c_high cj in
      ci <- iloc (rows df) idx ;;
      let current_price := c_close ci in
      if Qltb current_price ob_high
      then ret (Some (mkSignal Short current_price ob_high (c_timestamp ci) j))
      else scan_short df idx rest
    else scan_short df idx rest
  end.

(** [detect_signal]; [self.last_trade_index] is written when a signal is
    returned. *)
Definition detect_signal (s : strategy) (df : frame) (idx : Z)
  : fault (option signal * strategy) :=
  if (idx <? 50)%Z then ret (None, s)
  else
    pc_i <- iloc (pc df) idx ;;
    prev_pc <- iloc (pc df) (idx - 1) ;;
    let js := range_down (idx - 4) (Z.max (idx - 16) (-1)) in
    let emit (r : option signal) :=
      match r with
      | Some sg => (Some sg, set_last_trade_index idx s)
      | None => (None, s)
      end in
    valid_long <- is_valid_trade_condition s df idx Long ;;
    if valid_long && (cell_ltb prev_pc (Some (sensitivity s))
                      && cell_geb pc_i (Some (sensitivity s)))
    then r <- scan_long df idx js ;; ret (emit r)
    else
      valid_short <- is_valid_trade_condition s df idx Short ;;
      if valid_short && (cell_gtb prev_pc (Some (- sensitivity s))
                         && cell_leb pc_i (Some (- sensitivity s)))
      then r <- scan_short df idx js ;; ret (emit r)
      else ret (None, s).

(** ** Vocabulary of the statements *)

(** [held e e'] : the engine goes from [e] to [e'] by calls that return
    without closing anything: [update_position] returning no trade,
    [record_equity], [should_take_trade]. *)
Inductive held : engine -> engine -> Prop :=
| held_refl : forall e, held e e
| held_update : forall e price ts e1 e2,
    update_position e price ts = Some (None, e1) ->
    held e1 e2 -> held e e2
| held_record : forall e ts price e1 e2,
    record_equity e ts price = Some e1 ->
    held e1 e2 -> held e e2
| held_gate : forall e b e1 e2,
    should_take_trade e = Some (b, e1) ->
    held e1 e2 -> held e e2.

(** The position after the trailing step of [update_position]. *)
Definition trailed (p : position) (current_price : Q) : position :=
  match pos_type p with
  | Long =>
    let trail_price := current_price * (1 - trailing_stop_pct p) in
    if Qgtb trail_price (stop_loss p) then set_stop_loss trail_price p else p
  | Short =>
    let trail_price := current_price * (1 + trailing_stop_pct p) in
    if Qltb trail_price (stop_loss p) then set_stop_loss trail_price p else p
  end.

(** The exit test of [update_position]. *)
Definition stop_hit (p : position) (current_price : Q) : bool :=
  match pos_type p with
  | Long => Qleb current_price (stop_loss p)
  | Short => Qgeb current_price (stop_loss p)
  end.

(** A falsy argument of the constructor. *)
Definition falsy (x : option Q) : Prop :=
  match x with
  | None => True
  | Some q => q == 0
  end.

(** The slippage-adjusted entry of a signal. *)
Definition adjusted_entry (e : engine) (sg : signal) : Q :=
  match sig_type sg with
  | Long => sig_entry_price sg * (1 + slippage e)
  | Short => sig_entry_price sg * (1 - slippage e)
  end.

(** The adjusted entry does not bracket the stop of the signal. *)
Definition degenerate (e : engine) (sg : signal) : Prop :=
  match sig_type sg with
  | Long => adjusted_entry e sg <= sig_stop_loss sg
  | Short => sig_stop_loss sg <= adjusted_entry e sg
  end.

(** The slippage-adjusted exit of a position. *)
Definition adjusted_exit (e : engine) (p : position) (exit_price : Q) : Q :=
  match pos_type p with
  | Long => exit_price * (1 - slippage e)
  | Short => exit_price * (1 + slippage e)
  end.

(** The unadjusted, recursive exponential moving average as the
    specification words it: the average at the first point is the first
    observation, and at every later point it is
    (1 - alpha) * (average at the point before) + alpha * observation;
    the average over a history to date is the one at its last point. *)
Fixpoint ema_recursive (alpha : Q) (x : nat -> Q) (t : nat) : Q :=
  match t with
  | O => x O
  | S t' => (1 - alpha) * ema_recursive alpha x t' + alpha * x t
  end.

Definition ema_to_date (span : nat) (xs : list Q) : Q :=
  ema_recursive (2 / (Qnat span + 1)) (fun i => nth i xs 0) (length xs - 1).

(** [df.iloc[i]] on the frame of indicators: the cells of row [i]. *)
Definition frame_row (fr : frame) (i : nat)
  : option candle * list (option (option Q)) :=
  (nth_error (rows fr) i,
   [nth_error (pc fr) i; nth_error (volume_ma fr) i;
    nth_error (volume_percentile fr) i; nth_error (sma20 fr) i;
    nth_error (sma50 fr) i; nth_error (tr fr) i; nth_error (atr fr) i;
    nth_error (expanding_avg_atr fr) i; nth_error (roc fr) i]).

(** A column is NaN on its rows before [k] and a number from row [k] on. *)
Definition nan_until (k : nat) (s : series) : Prop :=
  forall j c, nth_error s j = Some c -> isna c = (j <? k)%nat.

(** ** A breakout after a quiet rise

    Fifty-one candles: a slow rise of 3 per candle from
    100000, every candle closing 500 above its open except one bearish
    candle (close 100 under its open, low 500 under it), then a breakout
    candle at index 50 that opens at 101000 and closes at 101500.  At
    index 50 every gate of the long signal passes and the percent change
    crosses the sensitivity. *)
Definition rising_candle (k : nat) : candle :=
  let o := 100000 + 3 * Qnat k in
  mkCandle (Z.of_nat k) o (o + 1000) (o - 500) (o + 500) (1000 + Qnat k).

Definition bearish_candle (k : nat) : candle :=
  let o := 100000 + 3 * Qnat k in
  mkCandle (Z.of_nat k) o (o + 100) (o - 500) (o - 100) (1000 + Qnat k).

Definition breakout_candle : candle :=
  mkCandle 50%Z 101000 102000 100500 101500 1050.

(** The bearish candle sits [back] rows before the breakout. *)
Definition breakout_frame (back : nat) : list candle :=
  map rising_candle (seq 0 (50 - back))
  ++ [bearish_candle (50 - back)]
  ++ map rising_candle (seq (51 - back) (back - 1))
  ++ [breakout_candle].

(** ** Sequences of calls on an engine *)

(** The calls that change a [PaperTradingEngine]. *)
Inductive engine_call : Type :=
| CallOpen (sg : signal) (ts : timestamp)
| CallUpdate (current_price : Q) (ts : timestamp)
| CallClose (exit_price : Q) (ts : timestamp) (reason : string)
| CallRecord (ts : timestamp) (current_price : option Q)
| CallGate.

(** The engine after one call, its return value dropped. *)
Definition call (e : engine) (c : engine_call) : fault engine :=
  match c with
  | CallOpen sg ts => r <- open_position e sg ts ;; ret (snd r)
  | CallUpdate current_price ts =>
    r <- update_position e current_price ts ;; ret (snd r)
  | CallClose exit_price ts reason =>
    r <- close_position e exit_price ts reason ;; ret (snd r)
  | CallRecord ts current_price => record_equity e ts current_price
  | CallGate => r <- should_take_trade e ;; ret (snd r)
  end.

Fixpoint calls (e : engine) (cs : list engine_call) : fault engine :=
  match cs with
  | [] => ret e
  | c :: rest => e1 <- call e c ;; calls e1 rest
  end.

Definition is_record (c : engine_call) : bool :=
  match c with
  | CallRecord _ _ => true
  | _ => false
  end.

(** The capital realised so far: the exit capital of the last trade of the
    ledger, the initial capital when the ledger is empty. *)
Definition realised (e : engine) : Q :=
  last (map exit_capital (trades e)) (initial_capital e).

(** Every trade of a ledger enters with the capital the trade before it
    left, the first one with [c]. *)
Fixpoint chained (c : Q) (ledger : list trade) : Prop :=
  match ledger with
  | [] => True
  | t :: rest => entry_capital (tr_position t) = c /\ chained (exit_capital t) rest
  end.

(** The books of an engine: the ledger is chained from the initial
    capital, the P&L of every trade is its exit capital less its entry
    capital, a flat engine holds the realised capital, and an engine with
    a position holds the realised capital less the entry commission of the
    position, which entered with the realised capital. *)
Definition books_balance (e : engine) : Prop :=
  chained (initial_capital e) (trades e) /\
  Forall (fun t => pnl t = exit_capital t - entry_capital (tr_position t))
         (trades e) /\
  match cur_position e with
  | None => capital e = realised e
  | Some p =>
    entry_capital p = realised e /\
    capital e = entry_capital p - entry_commission p
  end.

(** ** Statistics and their readers *)

(** The dictionary returned by [get_stats]: keys in the order of the
    source, counts and amounts as numbers.  Reading a missing key is
    [KeyError]. *)
Definition stats : Type := list (string * Q).

Fixpoint dict_get (key : string) (d : stats) : fault Q :=
  match d with
  | [] => None
  | (k, v) :: rest => if String.eqb key k then Some v else dict_get key rest
  end.

(** [s.mean() if not s.empty else 0]. *)
Definition mean_or_zero (l : list Q) : Q :=
  match l with
  | [] => 0
  | _ :: _ => Qsum l / Qnat (length l)
  end.

(** [get_stats]. *)
Definition get_stats (e : engine) : fault stats :=
  match trades e with
  | [] =>
    ret [("total_trades"%string, 0); ("win_rate"%string, 0); ("total_return"%string, 0);
         ("current_capital"%string, capital e)]
  | _ :: _ =>
    let pnls := map pnl (trades e) in
    let wins := filter (fun x => Qgtb x 0) pnls in
    let losses := filter (fun x => Qltb x 0) pnls in
    win_share <- pydiv (Qnat (length wins)) (Qnat (length (trades e))) ;;
    growth <- pydiv (capital e - initial_capital e) (initial_capital e) ;;
    ret [("total_trades"%string, Qnat (length (trades e)));
         ("wins"%string, Qnat (length wins));
         ("losses"%string, Qnat (length losses));
         ("win_rate"%string, win_share * 100);
         ("avg_win"%string, mean_or_zero wins);
         ("avg_loss"%string, mean_or_zero losses);
         ("total_return"%string, growth * 100);
         ("current_capital"%string, capital e);
         ("total_commission"%string, Qsum (map tr_commission (trades e)))]
  end.

(** [TelegramNotifier.send_daily_summary]: the keys of [stats] it reads
    while it builds its message, in their order; the message is built
    before the notifier looks whether it is enabled.  The text and the
    sending are not modelled. *)
Definition send_daily_summary (st : stats) : fault unit :=
  current_capital <- dict_get "current_capital"%string st ;;
  total_return <- dict_get "total_return"%string st ;;
  total_trades <- dict_get "total_trades"%string st ;;
  wins <- dict_get "wins"%string st ;;
  losses <- dict_get "losses"%string st ;;
  win_rate <- dict_get "win_rate"%string st ;;
  if Qgtb total_trades 0 then
    avg_win <- dict_get "avg_win"%string st ;;
    avg_loss <- dict_get "avg_loss"%string st ;;
    total_commission <- dict_get "total_commission"%string st ;;
    ret tt
  else ret tt.

(** [TelegramNotifier.send_shutdown], likewise. *)
Definition send_shutdown (final_stats : stats) : fault unit :=
  current_capital <- dict_get "current_capital"%string final_stats ;;
  total_return <- dict_get "total_return"%string final_stats ;;
  total_trades <- dict_get "total_trades"%string final_stats ;;
  win_rate <- dict_get "win_rate"%string final_stats ;;
  ret tt.

(** [ForwardTester.shutdown] on the engine: [current_price] is the answer
    of the data feed ([None] on an error), [now] the clock.  Saving the
    state and the log lines are left out but for the keys the log lines
    read. *)
Definition shutdown (e : engine) (current_price : option Q) (now : timestamp)
  : fault engine :=
  e1 <-
    match cur_position e with
    | Some _ =>
      match current_price with
      | Some price =>
        if Qeq_bool price 0 then ret e
        else r <- close_position e price now "shutdown" ;; ret (snd r)
      | None => ret e
      end
    | None => ret e
    end ;;
  st <- get_stats e1 ;;
  current_capital <- dict_get "current_capital"%string st ;;
  total_return <- dict_get "total_return"%string st ;;
  total_trades <- dict_get "total_trades"%string st ;;
  win_rate <- dict_get "win_rate"%string st ;;
  total_commission <- dict_get "total_commission"%string st ;;
  sent <- send_shutdown st ;;
  ret e1.

(** ** live_data_feed: the frame of the fetched candles *)

(** [df.drop_duplicates(subset=['timestamp'])]: of the rows with one
    timestamp the first is kept. *)
Fixpoint drop_duplicates_seen (seen : list timestamp) (l : list candle)
  : list candle :=
  match l with
  | [] => []
  | c :: rest =>
    if existsb (Z.eqb (c_timestamp c)) seen
    then drop_duplicates_seen seen rest
    else c :: drop_duplicates_seen (c_timestamp c :: seen) rest
  end.

Definition drop_duplicates (l : list candle) : list candle :=
  drop_duplicates_seen [] l.

(** [df.sort_values('timestamp')], by insertion: it is called on rows
    whose timestamps differ, where every sort gives the same rows. *)
Fixpoint insert_by_timestamp (c : candle) (l : list candle) : list candle :=
  match l with
  | [] => [c]
  | x :: rest =>
    if (c_timestamp c <=? c_timestamp x)%Z then c :: x :: rest
    else x :: insert_by_timestamp c rest
  end.

Fixpoint sort_values (l : list candle) : list candle :=
  match l with
  | [] => []
  | c :: rest => insert_by_timestamp c (sort_values rest)
  end.

(** The end of [fetch_historical_data]: the frame made of all the candles
    received, in the order of their batches. *)
Definition frame_of_candles (all_candles : list candle) : list candle :=
  sort_values (drop_duplicates all_candles).

(** Rows in strictly increasing order of timestamp. *)
Definition increasing (df : list candle) : Prop :=
  StronglySorted (fun a b => (c_timestamp a < c_timestamp b)%Z) df.

(** ** ForwardTester *)

(** The attributes of a [ForwardTester] that its methods write.  [t_df] is
    [self.df]; timestamps are the milliseconds since the epoch that the
    data feed turns into dates, and [last_daily_summary] is a day. *)
Record tester : Type := mkTester {
  t_strategy : strategy;
  t_engine : engine;
  t_df : option frame;
  last_candle_time : option timestamp;
  last_daily_summary : option Z
}.

(** [ForwardTester.__init__]. *)
Definition init_tester : tester :=
  mkTester default_strategy (init_engine None None None) None None None.

(** One turn of the loop of [_run_historical_backtest]. *)
Definition backtest_step (df : frame) (s : strategy) (e : engine) (i : Z)
  : fault (strategy * engine) :=
  ci <- iloc (rows df) i ;;
  let current_price := c_close ci in
  let ts := c_timestamp ci in
  e1 <-
    match cur_position e with
    | Some _ => r <- update_position e current_price ts ;; ret (snd r)
    | None => ret e
    end ;;
  se <-
    match cur_position e1 with
    | None =>
      d <- detect_signal s df i ;;
      match fst d with
      | Some sg => o <- open_position e1 sg ts ;; ret (snd d, snd o)
      | None => ret (snd d, e1)
      end
    | Some _ => ret (s, e1)
    end ;;
  e3 <- record_equity (snd se) ts (Some current_price) ;;
  ret (fst se, e3).

Fixpoint backtest_loop (df : frame) (s : strategy) (e : engine) (idxs : list Z)
  : fault (strategy * engine) :=
  match idxs with
  | [] => ret (s, e)
  | i :: rest =>
    se <- backtest_step df s e i ;;
    backtest_loop df (fst se) (snd se) rest
  end.

(** [_run_historical_backtest]: [for i in range(50, len(self.df))]. *)
Definition run_historical_backtest (t : tester) : fault tester :=
  df <- t_df t ;;
  se <- backtest_loop df (t_strategy t) (t_engine t)
          (map Z.of_nat (seq 50 (length (rows df) - 50))) ;;
  ret (mkTester (fst se) (snd se) (t_df t) (last_candle_time t)
                (last_daily_summary t)).

(** [bootstrap_historical_data]; [all_candles] is what the exchange gave
    to [fetch_historical_data].  An empty frame raises. *)
Definition bootstrap_historical_data (t : tester) (all_candles : list candle)
  : fault tester :=
  let fetched := frame_of_candles all_candles in
  match fetched with
  | [] => None
  | _ :: _ =>
    let df := calculate_indicators (t_strategy t) fetched in
    t1 <- run_historical_backtest
            (mkTester (t_strategy t) (t_engine t) (Some df)
                      (last_candle_time t) (last_daily_summary t)) ;;
    last_time <- iloc (map c_timestamp (rows df)) (-1) ;;
    ret (mkTester (t_strategy t1) (t_engine t1) (t_df t1) (Some last_time)
                  (last_daily_summary t1))
  end.

(** [timestamp.date()], as a number of days. *)
Definition date (ts : timestamp) : Z := (ts / 86400000)%Z.

(** [self.last_daily_summary is None or
     current_date > self.last_daily_summary]. *)
Definition summary_due (t : tester) (current_date : Z) : bool :=
  match last_daily_summary t with
  | None => true
  | Some d => (d <? current_date)%Z
  end.

(** The first part of [process_new_candle], to [record_equity]: the new
    row, the indicators, the open position, a new signal and the filter.
    It gives the tester and the locals [current_price] and [timestamp].
    Log lines, the trade log and the notifications of a position are left
    out: they read keys that every trade, signal and position has. *)
Definition trade_on_candle (t : tester) (new_candle : candle)
  : fault (tester * (Q * timestamp)) :=
  let old_rows := match t_df t with Some df => rows df | None => [] end in
  let df := calculate_indicators (t_strategy t) (old_rows ++ [new_candle]) in
  let current_idx := (Z.of_nat (length (rows df)) - 1)%Z in
  ci <- iloc (rows df) current_idx ;;
  let current_price := c_close ci in
  let ts := c_timestamp ci in
  e1 <-
    match cur_position (t_engine t) with
    | Some _ => r <- update_position (t_engine t) current_price ts ;; ret (snd r)
    | None => ret (t_engine t)
    end ;;
  se <-
    match cur_position e1 with
    | None =>
      d <- detect_signal (t_strategy t) df current_idx ;;
      match fst d with
      | Some sg =>
        g <- should_take_trade e1 ;;
        current_equity <- get_current_equity (snd g) (Some current_price) ;;
        if fst g
        then o <- open_position (snd g) sg ts ;; ret (snd d, snd o)
        else ret (snd d, snd g)
      | None => ret (snd d, e1)
      end
    | Some _ => ret (t_strategy t, e1)
    end ;;
  e3 <- record_equity (snd se) ts (Some current_price) ;;
  ret (mkTester (fst se) e3 (Some df) (last_candle_time t)
                (last_daily_summary t),
       (current_price, ts)).

(** The rest of [process_new_candle]: the daily summary when it is due,
    then the log lines of the statistics.  Saving the state is left
    out. *)
Definition daily_report (t : tester) (current_price : Q) (ts : timestamp)
  : fault tester :=
  let current_date := date ts in
  t1 <-
    (if summary_due t current_date then
       st <- get_stats (t_engine t) ;;
       current_equity <- get_current_equity (t_engine t) (Some current_price) ;;
       sent <- send_daily_summary st ;;
       ret (mkTester (t_strategy t) (t_engine t) (t_df t) (last_candle_time t)
                     (Some current_date))
     else ret t) ;;
  st <- get_stats (t_engine t1) ;;
  current_capital <- dict_get "current_capital"%string st ;;
  total_return <- dict_get "total_return"%string st ;;
  total_trades <- dict_get "total_trades"%string st ;;
  win_rate <- dict_get "win_rate"%string st ;;
  ret t1.

(** [process_new_candle]. *)
Definition process_new_candle (t : tester) (new_candle : candle)
  : fault tester :=
  r <- trade_on_candle t new_candle ;;
  daily_report (fst r) (fst (snd r)) (snd (snd r)).

(** A strategy with the parameters of another: only [last_trade_index]
    may differ. *)
Definition same_parameters (s s' : strategy) : Prop :=
  sensitivity s' = sensitivity s /\
  min_volume_percentile s' = min_volume_percentile s /\
  trend_period s' = trend_period s /\
  min_trades_distance s' = min_trades_distance s.

(** * Properties *)

(** ** Numbers and faults *)

Lemma Qltb_lt (x y : Q) : Qltb x y = true <-> x < y.
Proof.
  unfold Qltb. rewrite negb_true_iff.
  split; intro H.
  - apply Qnot_le_lt. intro K. apply Qle_bool_iff in K. congruence.
  - destruct (Qle_bool y x) eqn:E; [|reflexivity].
    apply Qle_bool_iff in E. lra.
Qed.

Lemma Qltb_ge (x y : Q) : Qltb x y = false <-> y <= x.
Proof.
  unfold Qltb. rewrite negb_false_iff. apply Qle_bool_iff.
Qed.

Lemma Qleb_le (x y : Q) : Qleb x y = true <-> x <= y.
Proof. apply Qle_bool_iff. Qed.

Lemma Qleb_gt (x y : Q) : Qleb x y = false <-> y < x.
Proof.
  unfold Qleb. split; intro H.
  - apply Qnot_le_lt. intro K. apply Qle_bool_iff in K. congruence.
  - destruct (Qle_bool x y) eqn:E; [|reflexivity].
    apply Qle_bool_iff in E. lra.
Qed.

Lemma pydiv_ok (a b : Q) : ~ b == 0 -> pydiv a b = Some (a / b).
Proof.
  intro H. unfold pydiv.
  destruct (Qeq_bool b 0) eqn:E; [|reflexivity].
  apply Qeq_bool_iff in E. contradiction.
Qed.

Lemma pydiv_inv (a b q : Q) : pydiv a b = Some q -> ~ b == 0 /\ q = a / b.
Proof.
  unfold pydiv. destruct (Qeq_bool b 0) eqn:E; [discriminate|].
  intro H. inversion H. split; [|reflexivity].
  now apply Qeq_bool_neq.
Qed.

Lemma bind_inv {A B : Type} (c : fault A) (k : A -> fault B) (b : B) :
  bind c k = Some b -> exists a, c = Some a /\ k a = Some b.
Proof.
  destruct c as [a|]; simpl; [|discriminate].
  intro H. exists a. split; [reflexivity|exact H].
Qed.

(** ** The constructor *)

Lemma py_or_falsy (x : option Q) (d : Q) : falsy x -> py_or x d = d.
Proof.
  destruct x as [q|]; simpl; [|reflexivity].
  intro H. apply Qeq_bool_iff in H. now rewrite H.
Qed.

Lemma py_or_nonzero (x : option Q) (d : Q) : ~ d == 0 -> ~ py_or x d == 0.
Proof.
  intro Hd. destruct x as [q|]; simpl; [|exact Hd].
  destruct (Qeq_bool q 0) eqn:E; [exact Hd|].
  now apply Qeq_bool_neq.
Qed.

(** C9. A falsy [initial_capital], [slippage] or [commission] (no
    argument, or a zero) is replaced by the default of [config.py]: 100,
    0.0005, 0.0006; so whatever the arguments, the slippage, the
    commission and the initial capital of a new engine are not zero. *)
Theorem init_engine_zero_falls_back (ic sl cm : option Q) :
  (falsy ic ->
     initial_capital (init_engine ic sl cm) = 100 /\
     capital (init_engine ic sl cm) = 100) /\
  (falsy sl -> slippage (init_engine ic sl cm) = 0.0005) /\
  (falsy cm -> commission (init_engine ic sl cm) = 0.0006) /\
  ~ initial_capital (init_engine ic sl cm) == 0 /\
  ~ slippage (init_engine ic sl cm) == 0 /\
  ~ commission (init_engine ic sl cm) == 0.
Proof.
  unfold init_engine; simpl.
  repeat split.
  - now rewrite py_or_falsy.
  - now rewrite py_or_falsy.
  - intro H. now rewrite py_or_falsy.
  - intro H. now rewrite py_or_falsy.
  - apply py_or_nonzero. discriminate.
  - apply py_or_nonzero. discriminate.
  - apply py_or_nonzero. discriminate.
Qed.

Lemma init_engine_zero_falls_back_witness :
  slippage (init_engine (Some 0) (Some 0) (Some 0)) = 0.0005 /\
  commission (init_engine (Some 0) (Some 0) (Some 0)) = 0.0006 /\
  initial_capital (init_engine (Some 0) (Some 0) (Some 0)) = 100.
Proof.
  destruct (init_engine_zero_falls_back (Some 0) (Some 0) (Some 0))
    as (Hic & Hsl & Hcm & _).
  split; [apply Hsl; reflexivity|].
  split; [apply Hcm; reflexivity|].
  apply Hic; reflexivity.
Defined.

(** ** Opening and closing *)

Lemma degenerate_test (e : engine) (sg : signal) :
  (match sig_type sg with
   | Long => Qleb (adjusted_entry e sg) (sig_stop_loss sg)
   | Short => Qgeb (adjusted_entry e sg) (sig_stop_loss sg)
   end = true) <-> degenerate e sg.
Proof.
  unfold degenerate, Qgeb. destruct (sig_type sg); apply Qleb_le.
Qed.

(** What a successful [open_position] computed. *)
Lemma open_position_inv (e : engine) (sg : signal) (ts : timestamp)
                        (p : position) (e1 : engine) :
  open_position e sg ts = Some (Some p, e1) ->
  cur_position e = None /\
  ~ degenerate e sg /\
  ~ adjusted_entry e sg == 0 /\
  pos_type p = sig_type sg /\
  entry_price p = sig_entry_price sg /\
  adj_entry_price p = adjusted_entry e sg /\
  entry_time p = ts /\
  entry_capital p = capital e /\
  position_size p = capital e / adjusted_entry e sg /\
  stop_loss p = sig_stop_loss sg /\
  trailing_stop_pct p = sl_percentage p * 0.75 /\
  entry_commission p = position_size p * adj_entry_price p * commission e /\
  e1 = set_capital (capital e - entry_commission p) (set_position (Some p) e).
Proof.
  unfold open_position.
  destruct (cur_position e) eqn:Hp; [discriminate|].
  fold (adjusted_entry e sg).
  destruct (match sig_type sg with
            | Long => Qleb (adjusted_entry e sg) (sig_stop_loss sg)
            | Short => Qgeb (adjusted_entry e sg) (sig_stop_loss sg)
            end) eqn:Hd; [discriminate|].
  intro H.
  apply bind_inv in H. destruct H as (size & Hsize & H).
  apply bind_inv in H. destruct H as (slp & Hslp & H).
  apply pydiv_inv in Hsize. destruct Hsize as (Hnz & Hsize).
  unfold ret in H. inversion H; subst; clear H. simpl.
  repeat split; try reflexivity; try assumption.
  intro K. apply degenerate_test in K. congruence.
Qed.

(** [open_position] opens whenever the engine is flat, the signal
    brackets its stop and the adjusted entry is not zero. *)
Lemma open_position_ok (e : engine) (sg : signal) (ts : timestamp) :
  cur_position e = None ->
  ~ degenerate e sg ->
  ~ adjusted_entry e sg == 0 ->
  exists p e1, open_position e sg ts = Some (Some p, e1).
Proof.
  intros Hp Hd Hnz. unfold open_position. rewrite Hp.
  fold (adjusted_entry e sg).
  destruct (match sig_type sg with
            | Long => Qleb (adjusted_entry e sg) (sig_stop_loss sg)
            | Short => Qgeb (adjusted_entry e sg) (sig_stop_loss sg)
            end) eqn:Ht.
  - apply degenerate_test in Ht. contradiction.
  - rewrite (pydiv_ok _ _ Hnz). simpl.
    destruct (sig_type sg); rewrite (pydiv_ok _ _ Hnz); simpl; eauto.
Qed.

(** What a successful [close_position] computed. *)
Lemma close_position_inv (e : engine) (x : Q) (ts : timestamp) (reason : string)
                         (t : trade) (e2 : engine) :
  close_position e x ts reason = Some (Some t, e2) ->
  exists p,
    cur_position e = Some p /\
    tr_position t = p /\
    exit_price t = adjusted_exit e p x /\
    exit_time t = ts /\
    exit_reason t = reason /\
    return_multiplier t =
      match pos_type p with
      | Long => exit_price t / adj_entry_price p
      | Short => adj_entry_price p / exit_price t
      end /\
    exit_capital t =
      entry_capital p * return_multiplier t
      - position_size p * exit_price t * commission e /\
    pnl t = exit_capital t - entry_capital p /\
    tr_commission t =
      entry_commission p + position_size p * exit_price t * commission e /\
    e2 = set_position None
           (set_trades (trades e ++ [t]) (set_capital (exit_capital t) e)).
Proof.
  unfold close_position.
  destruct (cur_position e) as [p|] eqn:Hp; [|discriminate].
  fold (adjusted_exit e p x).
  intro H.
  apply bind_inv in H. destruct H as (m & Hm & H).
  apply bind_inv in H. destruct H as (ratio & Hr & H).
  unfold ret in H. inversion H; subst; clear H. simpl.
  exists p. repeat split; try reflexivity.
  destruct (pos_type p); apply pydiv_inv in Hm; tauto.
Qed.

(** [close_position] closes whenever a position is open and no divisor
    is zero. *)
Lemma close_position_ok (e : engine) (p : position) (x : Q) (ts : timestamp)
                        (reason : string) :
  cur_position e = Some p ->
  ~ match pos_type p with
    | Long => adj_entry_price p
    | Short => adjusted_exit e p x
    end == 0 ->
  ~ entry_capital p == 0 ->
  exists t e2, close_position e x ts reason = Some (Some t, e2).
Proof.
  intros Hp Hnz Hc. unfold close_position. rewrite Hp.
  fold (adjusted_exit e p x).
  destruct (pos_type p); rewrite (pydiv_ok _ _ Hnz); simpl;
    rewrite (pydiv_ok _ _ Hc); simpl; eauto.
Qed.

(** C6. A rejected operation returns nothing and leaves the engine as it
    was: [open_position] on an engine that holds a position,
    [open_position] with a signal whose adjusted entry does not bracket
    its stop (a long needs entry > stop, a short needs entry < stop),
    [close_position] on an engine that holds no position. *)
Theorem rejected_operations_are_noops
    (e : engine) (sg : signal) (ts : timestamp) (x : Q) (reason : string) :
  (cur_position e <> None -> open_position e sg ts = Some (None, e)) /\
  (degenerate e sg -> open_position e sg ts = Some (None, e)) /\
  (cur_position e = None -> close_position e x ts reason = Some (None, e)).
Proof.
  split; [|split].
  - intro H. unfold open_position.
    destruct (cur_position e); [reflexivity|congruence].
  - intro H. unfold open_position.
    destruct (cur_position e); [reflexivity|].
    fold (adjusted_entry e sg).
    apply degenerate_test in H. now rewrite H.
  - intro H. unfold close_position. now rewrite H.
Qed.

Lemma rejected_operations_are_noops_witness :
  let flat := init_engine None None None in
  let p := mkPosition Long 3000 3001.5 0%Z 100 (100 / 3001.5) 2950 0.01 0.0075 0.06 in
  let busy := set_position (Some p) flat in
  open_position busy (mkSignal Long 3000 2950 1%Z 40%Z) 1%Z = Some (None, busy) /\
  open_position flat (mkSignal Long 3000 3100 1%Z 40%Z) 1%Z = Some (None, flat) /\
  open_position flat (mkSignal Short 3000 2900 1%Z 40%Z) 1%Z = Some (None, flat) /\
  close_position flat 3050 2%Z "manual" = Some (None, flat).
Proof.
  intros flat p busy.
  split; [|split; [|split]].
  - destruct (rejected_operations_are_noops
                busy (mkSignal Long 3000 2950 1%Z 40%Z) 1%Z 0 "manual")
      as (H & _ & _).
    apply H. vm_compute. discriminate.
  - destruct (rejected_operations_are_noops
                flat (mkSignal Long 3000 3100 1%Z 40%Z) 1%Z 0 "manual")
      as (_ & H & _).
    apply H. vm_compute. discriminate.
  - destruct (rejected_operations_are_noops
                flat (mkSignal Short 3000 2900 1%Z 40%Z) 1%Z 0 "manual")
      as (_ & H & _).
    apply H. vm_compute. discriminate.
  - destruct (rejected_operations_are_noops
                flat (mkSignal Long 3000 2950 1%Z 40%Z) 1%Z 3050 "manual")
      as (_ & _ & H).
    apply H. reflexivity.
Defined.

Lemma adjusted_entry_no_slippage (e : engine) (sg : signal) :
  slippage e == 0 -> adjusted_entry e sg == sig_entry_price sg.
Proof.
  intro H. unfold adjusted_entry. destruct (sig_type sg); rewrite H; ring.
Qed.

Lemma adjusted_exit_no_slippage (e : engine) (p : position) (x : Q) :
  slippage e == 0 -> adjusted_exit e p x == x.
Proof.
  intro H. unfold adjusted_exit. destruct (pos_type p); rewrite H; ring.
Qed.

(** C3, as the code has it. With slippage 0 and commission 0, a position
    opened at entry price E with capital C and closed at exit price X has
    size C / E; its realized P&L is C * (X / E - 1) for a long and
    C * (E / X - 1) for a short (the return multiplier of a short is
    entry over exit), and the capital after the close is C plus that
    P&L. *)
Theorem round_trip_pnl_zero_costs
    (e : engine) (sg : signal) (ts : timestamp)
    (x : Q) (ts' : timestamp) (reason : string) :
  cur_position e = None ->
  slippage e == 0 ->
  commission e == 0 ->
  0 < capital e ->
  0 < sig_entry_price sg ->
  0 < x ->
  ~ degenerate e sg ->
  exists p e1 t e2,
    open_position e sg ts = Some (Some p, e1) /\
    close_position e1 x ts' reason = Some (Some t, e2) /\
    position_size p == capital e / sig_entry_price sg /\
    pnl t == match sig_type sg with
             | Long => capital e * (x / sig_entry_price sg - 1)
             | Short => capital e * (sig_entry_price sg / x - 1)
             end /\
    capital e2 == capital e + pnl t.
Proof.
  intros Hflat Hs Hc HC HE HX Hd.
  pose proof (adjusted_entry_no_slippage e sg Hs) as Hadj.
  assert (Hnz : ~ adjusted_entry e sg == 0) by (rewrite Hadj; lra).
  destruct (open_position_ok e sg ts Hflat Hd Hnz) as (p & e1 & Hopen).
  pose proof (open_position_inv _ _ _ _ _ Hopen)
    as (_ & _ & _ & Hty & _ & Hae & _ & Hec & Hsz & _ & _ & _ & He1).
  assert (Hp1 : cur_position e1 = Some p) by (subst e1; reflexivity).
  assert (Hs1 : slippage e1 = slippage e) by (subst e1; reflexivity).
  assert (Hc1 : commission e1 = commission e) by (subst e1; reflexivity).
  assert (Hax : adjusted_exit e1 p x == x).
  { apply adjusted_exit_no_slippage. now rewrite Hs1. }
  destruct (close_position_ok e1 p x ts' reason Hp1) as (t & e2 & Hclose).
  { destruct (pos_type p); [rewrite Hae, Hadj | rewrite Hax]; lra. }
  { rewrite Hec. lra. }
  pose proof (close_position_inv _ _ _ _ _ _ Hclose)
    as (p' & Hp' & _ & Hxp & _ & _ & Hm & Hxc & Hpnl & _ & He2).
  rewrite Hp1 in Hp'. inversion Hp'; subst p'; clear Hp'.
  exists p, e1, t, e2.
  split; [exact Hopen|]. split; [exact Hclose|].
  assert (Hsize : position_size p == capital e / sig_entry_price sg).
  { rewrite Hsz, Hadj. reflexivity. }
  assert (Hpnl' : pnl t == match sig_type sg with
                          | Long => capital e * (x / sig_entry_price sg - 1)
                          | Short => capital e * (sig_entry_price sg / x - 1)
                          end).
  { rewrite Hpnl, Hxc, Hm, Hxp, Hc1, Hec, Hty, Hae.
    destruct (sig_type sg); rewrite Hc, Hax, Hadj; field; lra. }
  split; [exact Hsize|]. split; [exact Hpnl'|].
  rewrite He2. simpl. rewrite Hpnl, Hec. ring.
Qed.

Lemma round_trip_pnl_zero_costs_witness :
  let e := mkEngine 100 0 0 100 None [] [] None in
  let sg := mkSignal Long 3000 2950 0%Z 46%Z in
  exists p e1 t e2,
    open_position e sg 0%Z = Some (Some p, e1) /\
    close_position e1 3050 1%Z "manual" = Some (Some t, e2) /\
    position_size p == 100 / 3000 /\
    pnl t == 100 * (3050 / 3000 - 1) /\
    capital e2 == 100 + pnl t /\
    0.03333 <= position_size p <= 0.03334 /\
    1.6666 <= pnl t <= 1.6667 /\
    101.6666 <= capital e2 <= 101.6667.
Proof.
  intros e sg.
  destruct (round_trip_pnl_zero_costs e sg 0%Z 3050 1%Z "manual")
    as (p & e1 & t & e2 & Hopen & Hclose & Hsize & Hpnl & Hcap).
  - reflexivity.
  - reflexivity.
  - reflexivity.
  - reflexivity.
  - reflexivity.
  - reflexivity.
  - vm_compute. intro H. apply H. reflexivity.
  - change (position_size p == 100 / 3000) in Hsize.
    change (pnl t == 100 * (3050 / 3000 - 1)) in Hpnl.
    change (capital e2 == 100 + pnl t) in Hcap.
    exists p, e1, t, e2.
    split; [exact Hopen|]. split; [exact Hclose|].
    split; [exact Hsize|]. split; [exact Hpnl|]. split; [exact Hcap|].
    rewrite Hcap, Hpnl, Hsize.
    repeat split; apply Qle_bool_imp_le; reflexivity.
Defined.

(** C3 as written fails for a short: opened at 3000 with capital 100 and
    closed at 2000 without costs, the engine books a P&L of 50, not
    100 * (1 - 2000 / 3000). *)
Lemma round_trip_short_pnl_counterexample :
  let e := mkEngine 100 0 0 100 None [] [] None in
  let sg := mkSignal Short 3000 3050 0%Z 46%Z in
  exists p e1 t e2,
    open_position e sg 0%Z = Some (Some p, e1) /\
    close_position e1 2000 1%Z "manual" = Some (Some t, e2) /\
    pnl t == 50 /\
    ~ pnl t == 100 * (1 - 2000 / 3000).
Proof.
  intros e sg.
  eexists. eexists. eexists. eexists.
  split; [vm_compute; reflexivity|].
  split; [vm_compute; reflexivity|].
  split; [reflexivity|].
  vm_compute. discriminate.
Qed.

(** ** Steps that keep the position *)

Lemma close_position_not_silent (e : engine) (p : position) (x : Q)
                                (ts : timestamp) (reason : string) (e' : engine) :
  cur_position e = Some p ->
  close_position e x ts reason <> Some (None, e').
Proof.
  intros Hp H. unfold close_position in H. rewrite Hp in H.
  apply bind_inv in H. destruct H as (m & _ & H).
  apply bind_inv in H. destruct H as (r & _ & H).
  discriminate.
Qed.

(** [update_position] on an open position: the trailing step, then the
    exit test on the trailed stop. *)
Lemma update_position_open (e : engine) (p : position) (price : Q) (ts : timestamp) :
  cur_position e = Some p ->
  update_position e price ts =
    if stop_hit (trailed p price) price
    then close_position (set_position (Some (trailed p price)) e)
                        (stop_loss (trailed p price)) ts "stop_loss"
    else Some (None, set_position (Some (trailed p price)) e).
Proof.
  intro Hp. unfold update_position, stop_hit, trailed. rewrite Hp.
  destruct (pos_type p) eqn:Hty.
  - destruct (Qgtb (price * (1 - trailing_stop_pct p)) (stop_loss p));
      simpl; rewrite Hty; reflexivity.
  - destruct (Qltb (price * (1 + trailing_stop_pct p)) (stop_loss p));
      simpl; rewrite Hty; reflexivity.
Qed.

Lemma update_position_keeps (e : engine) (p : position) (price : Q)
                            (ts : timestamp) (e1 : engine) :
  cur_position e = Some p ->
  update_position e price ts = Some (None, e1) ->
  stop_hit (trailed p price) price = false /\
  e1 = set_position (Some (trailed p price)) e.
Proof.
  intros Hp H. rewrite (update_position_open e p price ts Hp) in H.
  destruct (stop_hit (trailed p price) price).
  - exfalso. revert H. now apply (close_position_not_silent _ (trailed p price)).
  - split; [reflexivity|]. now inversion H.
Qed.

Lemma record_equity_inv (e : engine) (ts : timestamp) (price : option Q) (e1 : engine) :
  record_equity e ts price = Some e1 ->
  exists equity,
    get_current_equity e price = Some equity /\
    e1 = set_equity_history (equity_history e ++ [(ts, equity)]) e.
Proof.
  unfold record_equity. intro H.
  apply bind_inv in H. destruct H as (q & Hq & H).
  exists q. split; [exact Hq|]. now inversion H.
Qed.

Lemma get_current_equity_no_price (e : engine) :
  get_current_equity e None = Some (capital e).
Proof.
  unfold get_current_equity. destruct (cur_position e); reflexivity.
Qed.

Lemma should_take_trade_eq (e : engine) :
  should_take_trade e =
    Some (match calculate_ema_200 e with
          | None => true
          | Some ema => Qgtb (capital e) ema
          end, set_ema_200 (calculate_ema_200 e) e).
Proof.
  unfold should_take_trade. simpl.
  destruct (calculate_ema_200 e) as [m|]; [|reflexivity].
  rewrite get_current_equity_no_price. reflexivity.
Qed.

(** Only the stop of a position moves. *)
Lemma trailed_eq (p : position) (price : Q) :
  trailed p price = set_stop_loss (stop_loss (trailed p price)) p.
Proof.
  unfold trailed.
  destruct (pos_type p);
    match goal with |- context [if ?c then _ else _] => destruct c end;
    try reflexivity; destruct p; reflexivity.
Qed.

Lemma trailed_type (p : position) (price : Q) :
  pos_type (trailed p price) = pos_type p.
Proof. rewrite trailed_eq. reflexivity. Qed.

Lemma trailed_monotone (p : position) (price : Q) :
  match pos_type p with
  | Long => stop_loss p <= stop_loss (trailed p price)
  | Short => stop_loss (trailed p price) <= stop_loss p
  end.
Proof.
  unfold trailed. destruct (pos_type p).
  - destruct (Qgtb (price * (1 - trailing_stop_pct p)) (stop_loss p)) eqn:E.
    + apply Qltb_lt in E. simpl. lra.
    + lra.
  - destruct (Qltb (price * (1 + trailing_stop_pct p)) (stop_loss p)) eqn:E.
    + apply Qltb_lt in E. simpl. lra.
    + lra.
Qed.

(** What a run that keeps the position preserves: the parameters and the
    capital of the engine, and every field of the position but its stop,
    which only moves in the favourable direction. *)
Lemma held_invariant (e e' : engine) :
  held e e' ->
  forall p, cur_position e = Some p ->
  exists s',
    cur_position e' = Some (set_stop_loss s' p) /\
    match pos_type p with
    | Long => stop_loss p <= s'
    | Short => s' <= stop_loss p
    end /\
    slippage e' = slippage e /\
    commission e' = commission e /\
    capital e' = capital e /\
    trades e' = trades e.
Proof.
  induction 1 as [e | e price ts e1 e2 Hstep _ IH
                    | e ts price e1 e2 Hstep _ IH
                    | e b e1 e2 Hstep _ IH]; intros p Hp.
  - exists (stop_loss p). split.
    + rewrite Hp. destruct p; reflexivity.
    + repeat split; try reflexivity. destruct (pos_type p); lra.
  - destruct (update_position_keeps _ _ _ _ _ Hp Hstep) as (_ & He1).
    assert (Hp1 : cur_position e1 = Some (trailed p price))
      by (subst e1; reflexivity).
    destruct (IH _ Hp1) as (s' & Hp2 & Hmono & Hs & Hc & Hcap & Htr).
    exists s'. split.
    + rewrite Hp2, (trailed_eq p price). reflexivity.
    + rewrite (trailed_eq p price) in Hmono. simpl in Hmono.
      pose proof (trailed_monotone p price) as Hm1.
      subst e1. simpl in *.
      repeat split; try assumption.
      destruct (pos_type p); lra.
  - destruct (record_equity_inv _ _ _ _ Hstep) as (q & _ & He1).
    assert (Hp1 : cur_position e1 = Some p) by (subst e1; exact Hp).
    destruct (IH _ Hp1) as (s' & Hp2 & Hmono & Hs & Hc & Hcap & Htr).
    exists s'. subst e1. simpl in *. repeat split; assumption.
  - rewrite should_take_trade_eq in Hstep. inversion Hstep; subst; clear Hstep.
    assert (Hp1 : cur_position (set_ema_200 (calculate_ema_200 e) e) = Some p)
      by exact Hp.
    destruct (IH _ Hp1) as (s' & Hp2 & Hmono & Hs & Hc & Hcap & Htr).
    exists s'. simpl in *. repeat split; assumption.
Qed.

(** ** The trailing stop *)

(** C4. A call of [update_position] that does not close the position
    replaces its stop by the candidate, current price * (1 - trailing
    fraction) for a long and current price * (1 + trailing fraction) for a
    short, exactly when the candidate is strictly beyond the stop in the
    favourable direction, and leaves it otherwise; so over any run that
    keeps the position open the stop of a long never decreases and the
    stop of a short never increases. *)
Theorem trailing_stop_is_monotone (e : engine) (p : position) :
  cur_position e = Some p ->
  (forall price ts e1,
     update_position e price ts = Some (None, e1) ->
     exists s',
       cur_position e1 = Some (set_stop_loss s' p) /\
       match pos_type p with
       | Long =>
         let candidate := price * (1 - trailing_stop_pct p) in
         (stop_loss p < candidate -> s' = candidate) /\
         (candidate <= stop_loss p -> s' = stop_loss p) /\
         stop_loss p <= s'
       | Short =>
         let candidate := price * (1 + trailing_stop_pct p) in
         (candidate < stop_loss p -> s' = candidate) /\
         (stop_loss p <= candidate -> s' = stop_loss p) /\
         s' <= stop_loss p
       end) /\
  (forall e',
     held e e' ->
     exists p',
       cur_position e' = Some p' /\
       pos_type p' = pos_type p /\
       match pos_type p with
       | Long => stop_loss p <= stop_loss p'
       | Short => stop_loss p' <= stop_loss p
       end).
Proof.
  intro Hp. split.
  - intros price ts e1 Hstep.
    destruct (update_position_keeps _ _ _ _ _ Hp Hstep) as (_ & He1).
    exists (stop_loss (trailed p price)). split.
    + subst e1. simpl. now rewrite <- trailed_eq.
    + pose proof (trailed_monotone p price) as Hm.
      unfold trailed in *. destruct (pos_type p); simpl.
      * destruct (Qgtb (price * (1 - trailing_stop_pct p)) (stop_loss p)) eqn:E.
        -- apply Qltb_lt in E. simpl. repeat split; try reflexivity; try lra.
        -- apply Qltb_ge in E. repeat split; try reflexivity; try lra.
      * destruct (Qltb (price * (1 + trailing_stop_pct p)) (stop_loss p)) eqn:E.
        -- apply Qltb_lt in E. simpl. repeat split; try reflexivity; try lra.
        -- apply Qltb_ge in E. repeat split; try reflexivity; try lra.
  - intros e' Hheld.
    destruct (held_invariant _ _ Hheld _ Hp) as (s' & Hp' & Hmono & _).
    exists (set_stop_loss s' p). split; [exact Hp'|].
    split; [reflexivity|exact Hmono].
Qed.

Lemma trailing_stop_is_monotone_witness :
  let p := mkPosition Long 3000 3001.5 0%Z 100 (100 / 3001.5) 2950
                      ((3001.5 - 2950) / 3001.5)
                      ((3001.5 - 2950) / 3001.5 * 0.75)
                      (100 / 3001.5 * 3001.5 * 0.0006) in
  let e := set_position (Some p) (init_engine None None None) in
  exists e2 p2,
    held e e2 /\
    cur_position e2 = Some p2 /\
    stop_loss p <= stop_loss p2.
Proof.
  intros p e.
  pose (e1 := set_position (Some (trailed p 3050)) e).
  pose (e2 := set_position (Some (trailed (trailed p 3050) 3020)) e1).
  assert (Hheld : held e e2).
  { apply held_update with (price := 3050) (ts := 1%Z) (e1 := e1);
      [vm_compute; reflexivity|].
    apply held_update with (price := 3020) (ts := 2%Z) (e1 := e2);
      [vm_compute; reflexivity|].
    apply held_refl. }
  destruct (trailing_stop_is_monotone e p eq_refl) as (_ & H).
  destruct (H e2 Hheld) as (p2 & Hp2 & _ & Hmono).
  exists e2, p2. split; [exact Hheld|]. split; [exact Hp2|exact Hmono].
Defined.

(** C10. When the exit test of [update_position] fires (long: current
    price <= stop, short: current price >= stop, on the stop as trailed by
    this very call), the call is [close_position] at that stop, not at
    the current price; and a call that returns a trade did fire the test,
    the trade's exit price being the stop with the exit slippage
    applied. *)
Theorem stop_exit_uses_stop_price
    (e : engine) (p : position) (price : Q) (ts : timestamp) :
  cur_position e = Some p ->
  (stop_hit (trailed p price) price = true ->
   update_position e price ts =
     close_position (set_position (Some (trailed p price)) e)
                    (stop_loss (trailed p price)) ts "stop_loss") /\
  (stop_hit (trailed p price) price = true <->
   match pos_type p with
   | Long => price <= stop_loss (trailed p price)
   | Short => stop_loss (trailed p price) <= price
   end) /\
  (forall t e',
     update_position e price ts = Some (Some t, e') ->
     stop_hit (trailed p price) price = true /\
     exit_price t =
       match pos_type p with
       | Long => stop_loss (trailed p price) * (1 - slippage e)
       | Short => stop_loss (trailed p price) * (1 + slippage e)
       end /\
     exit_reason t = "stop_loss"%string /\
     tr_position t = trailed p price /\
     cur_position e' = None).
Proof.
  intro Hp. rewrite (update_position_open e p price ts Hp).
  split; [|split].
  - intro H. now rewrite H.
  - unfold stop_hit, Qgeb. rewrite trailed_type.
    destruct (pos_type p); apply Qleb_le.
  - intros t e' H.
    destruct (stop_hit (trailed p price) price); [|discriminate].
    split; [reflexivity|].
    destruct (close_position_inv _ _ _ _ _ _ H)
      as (p' & Hp' & Htp & Hx & _ & Hr & _ & _ & _ & _ & He').
    simpl in Hp'. assert (Hp'' : p' = trailed p price) by congruence.
    rewrite Hp'' in Hx, Htp. split.
    + rewrite Hx. unfold adjusted_exit. rewrite trailed_type. reflexivity.
    + split; [exact Hr|]. split; [exact Htp|]. rewrite He'. reflexivity.
Qed.

Lemma stop_exit_uses_stop_price_witness :
  let p := mkPosition Long 3000 3001.5 0%Z 100 (100 / 3001.5) 2950
                      ((3001.5 - 2950) / 3001.5)
                      ((3001.5 - 2950) / 3001.5 * 0.75)
                      (100 / 3001.5 * 3001.5 * 0.0006) in
  let e := set_position (Some p) (init_engine None None None) in
  exists t e',
    update_position e 2940 1%Z = Some (Some t, e') /\
    stop_loss (trailed p 2940) = 2950 /\
    exit_price t = 2950 * (1 - 0.0005) /\
    exit_price t <> 2940 * (1 - 0.0005).
Proof.
  intros p e.
  destruct (stop_exit_uses_stop_price e p 2940 1%Z eq_refl)
    as (Hcall & _ & Hexit).
  assert (Hhit : stop_hit (trailed p 2940) 2940 = true) by reflexivity.
  specialize (Hcall Hhit).
  destruct (close_position_ok (set_position (Some (trailed p 2940)) e)
                              (trailed p 2940) (stop_loss (trailed p 2940))
                              1%Z "stop_loss" eq_refl)
    as (t & e' & Hclose).
  - vm_compute. discriminate.
  - vm_compute. discriminate.
  - rewrite <- Hcall in Hclose.
    destruct (Hexit t e' Hclose) as (_ & Hx & _).
    exists t, e'. split; [exact Hclose|]. split; [reflexivity|].
    split; [exact Hx|]. rewrite Hx. vm_compute. discriminate.
Defined.

(** ** Capital over a round trip *)

(** [close_position] does not read [self.capital]. *)
Lemma close_position_forgets_capital
    (e : engine) (c x : Q) (ts : timestamp) (reason : string)
    (t : trade) (e2 : engine) :
  close_position e x ts reason = Some (Some t, e2) ->
  close_position (set_capital c e) x ts reason = Some (Some t, e2).
Proof.
  unfold close_position. simpl.
  destruct (cur_position e) as [p|]; [|discriminate].
  intro H.
  apply bind_inv in H. destruct H as (m & Hm & H).
  apply bind_inv in H. destruct H as (r & Hr & H).
  rewrite Hm. simpl. rewrite Hr. simpl. exact H.
Qed.

(** C8. For a position opened by [open_position] and closed by
    [close_position] after any run that keeps it open, the capital after
    the close is the capital before the open times the return multiplier,
    minus the exit commission.  The entry commission, taken from the
    capital at the open, does not reach it: the close gives the same
    engine whatever the capital field held.  The trade's commission is
    entry plus exit commission. *)
Theorem capital_after_close_ignores_entry_commission
    (e : engine) (sg : signal) (ts : timestamp) (p : position) (e1 en : engine)
    (x : Q) (ts' : timestamp) (reason : string) (t : trade) (e2 : engine) :
  open_position e sg ts = Some (Some p, e1) ->
  held e1 en ->
  close_position en x ts' reason = Some (Some t, e2) ->
  let exit_commission := position_size p * exit_price t * commission e in
  entry_capital p = capital e /\
  capital e1 = capital e - entry_commission p /\
  capital e2 = capital e * return_multiplier t - exit_commission /\
  tr_commission t = entry_commission p + exit_commission /\
  (forall c, close_position (set_capital c en) x ts' reason = Some (Some t, e2)).
Proof.
  intros Hopen Hheld Hclose exit_commission. subst exit_commission.
  pose proof (open_position_inv _ _ _ _ _ Hopen)
    as (_ & _ & _ & _ & _ & _ & _ & Hec & _ & _ & _ & _ & He1).
  assert (Hp1 : cur_position e1 = Some p) by (rewrite He1; reflexivity).
  assert (Hc1 : commission e1 = commission e) by (rewrite He1; reflexivity).
  destruct (held_invariant _ _ Hheld _ Hp1) as (s' & Hpn & _ & _ & Hcn & _).
  destruct (close_position_inv _ _ _ _ _ _ Hclose)
    as (p' & Hp' & _ & _ & _ & _ & _ & Hxc & _ & Htc & He2).
  rewrite Hpn in Hp'. inversion Hp' as [Hp'']. clear Hp'.
  rewrite <- Hp'' in Hxc, Htc. simpl in Hxc, Htc.
  rewrite Hcn, Hc1 in Hxc, Htc. rewrite Hec in Hxc.
  split; [exact Hec|].
  split; [rewrite He1; reflexivity|].
  split; [rewrite He2; simpl; exact Hxc|].
  split; [exact Htc|].
  intro c. now apply close_position_forgets_capital.
Qed.

Lemma capital_after_close_ignores_entry_commission_witness :
  let e := init_engine (Some 100) None None in
  let sg := mkSignal Long 3000 2950 0%Z 46%Z in
  exists p e1 en t e2,
    open_position e sg 0%Z = Some (Some p, e1) /\
    held e1 en /\
    close_position en 3050 2%Z "manual" = Some (Some t, e2) /\
    capital e1 = 100 - entry_commission p /\
    capital e2 =
      100 * return_multiplier t - position_size p * exit_price t * 0.0006 /\
    tr_commission t =
      entry_commission p + position_size p * exit_price t * 0.0006.
Proof.
  intros e sg.
  destruct (open_position_ok e sg 0%Z eq_refl) as (p & e1 & Hopen).
  { vm_compute. intro H. apply H. reflexivity. }
  { vm_compute. discriminate. }
  pose proof (open_position_inv _ _ _ _ _ Hopen)
    as (_ & _ & _ & Hty & _ & Hae & _ & Hec & _ & Hsl & Htsp & _ & He1).
  assert (Hp1 : cur_position e1 = Some p) by (rewrite He1; reflexivity).
  pose (en := set_equity_history (equity_history e1 ++ [(1%Z, capital e1)]) e1).
  assert (Hheld : held e1 en).
  { apply held_record with (ts := 1%Z) (price := None) (e1 := en).
    - unfold record_equity. rewrite get_current_equity_no_price. reflexivity.
    - apply held_refl. }
  destruct (close_position_ok en p 3050 2%Z "manual") as (t & e2 & Hclose).
  { exact Hp1. }
  { rewrite Hty. simpl. rewrite Hae. vm_compute. discriminate. }
  { rewrite Hec. vm_compute. discriminate. }
  destruct (capital_after_close_ignores_entry_commission
              e sg 0%Z p e1 en 3050 2%Z "manual" t e2 Hopen Hheld Hclose)
    as (_ & H1 & H2 & H3 & _).
  exists p, e1, en, t, e2.
  split; [exact Hopen|]. split; [exact Hheld|]. split; [exact Hclose|].
  split; [exact H1|]. split; [exact H2|exact H3].
Defined.

(** ** The equity filter *)

Lemma ema_recursive_ext (alpha : Q) (f g : nat -> Q) (t : nat) :
  (forall i, (i <= t)%nat -> f i = g i) ->
  ema_recursive alpha f t = ema_recursive alpha g t.
Proof.
  induction t as [|t IH]; intro H; simpl.
  - apply H. lia.
  - rewrite IH by (intros i Hi; apply H; lia).
    rewrite (H (S t)) by lia. reflexivity.
Qed.

Lemma ewm_from_length (alpha prev : Q) (xs : list Q) :
  length (ewm_from alpha prev xs) = length xs.
Proof.
  revert prev. induction xs as [|x xs IH]; intro prev; simpl; [reflexivity|].
  now rewrite IH.
Qed.

Lemma last_cons_default {A : Type} (a : A) (l : list A) (d d' : A) :
  last (a :: l) d = last (a :: l) d'.
Proof.
  revert a. induction l as [|b l IH]; intro a; [reflexivity|].
  change (last (b :: l) d = last (b :: l) d'). apply IH.
Qed.

(** The forward pass extends by one cell when one observation is
    appended. *)
Lemma ewm_from_snoc (alpha prev : Q) (xs : list Q) (x : Q) :
  ewm_from alpha prev (xs ++ [x]) =
  ewm_from alpha prev xs
    ++ [(1 - alpha) * last (ewm_from alpha prev xs) prev + alpha * x].
Proof.
  revert prev. induction xs as [|y ys IH]; intro prev; simpl; [reflexivity|].
  rewrite IH. f_equal. f_equal. f_equal. f_equal.
  destruct (ewm_from alpha ((1 - alpha) * prev + alpha * y) ys) eqn:E;
    [reflexivity|].
  f_equal. apply last_cons_default.
Qed.

Lemma iloc_last_snoc {A : Type} (l : list A) (a : A) :
  iloc_last (l ++ [a]) = Some a.
Proof.
  unfold iloc_last. rewrite length_app. simpl.
  replace (length l + 1 - 1)%nat with (length l) by lia.
  rewrite nth_error_app2 by lia.
  now rewrite Nat.sub_diag.
Qed.

Lemma iloc_last_nonempty {A : Type} (l : list A) (d : A) :
  l <> [] -> iloc_last l = Some (last l d).
Proof.
  intro H. destruct (exists_last H) as (l' & a & ->).
  now rewrite iloc_last_snoc, last_last.
Qed.

Lemma last_cons_self {A : Type} (a : A) (l : list A) :
  last (a :: l) a = last l a.
Proof. destruct l; reflexivity. Qed.

(** The last cell of the forward pass is the recursive average at the
    last point. *)
Lemma ewm_from_last (alpha y : Q) (ys : list Q) :
  last (y :: ewm_from alpha y ys) y =
  ema_recursive alpha (fun i => nth i (y :: ys) 0) (length ys).
Proof.
  induction ys as [|x ys IH] using rev_ind; [reflexivity|].
  rewrite ewm_from_snoc, app_comm_cons, last_last.
  rewrite length_app, Nat.add_1_r.
  cbn [ema_recursive].
  rewrite <- last_cons_self, IH.
  rewrite (ema_recursive_ext alpha (fun i => nth i (y :: ys ++ [x]) 0)
                                   (fun i => nth i (y :: ys) 0)).
  2:{ intros i Hi. rewrite app_comm_cons. apply app_nth1. simpl. lia. }
  f_equal. f_equal.
  rewrite app_comm_cons, app_nth2 by (simpl; lia).
  simpl length. now rewrite Nat.sub_diag.
Qed.

(** The forward pass of pandas ends on the recursive average to date. *)
Lemma ewm_mean_last (span : nat) (xs : list Q) :
  xs <> [] ->
  iloc_last (ewm_mean span xs) = Some (ema_to_date span xs).
Proof.
  destruct xs as [|y ys]; [congruence|]. intros _.
  unfold ewm_mean. rewrite (iloc_last_nonempty _ y) by discriminate.
  rewrite ewm_from_last. unfold ema_to_date, ewm_alpha, Qnat.
  replace (length (y :: ys) - 1)%nat with (length ys) by (simpl; lia).
  reflexivity.
Qed.

(** C5. Under 200 equity points [calculate_ema_200] returns nothing; from
    200 points on it returns the recursive average of span 200 over the
    whole equity history.  [should_take_trade] answers true while the
    average is undefined, and otherwise answers whether the current equity
    (the equity read without a price) is strictly above the average. *)
Theorem ema_filter_spec (e : engine) :
  ((length (equity_history e) < 200)%nat -> calculate_ema_200 e = None) /\
  ((200 <= length (equity_history e))%nat ->
     calculate_ema_200 e
     = Some (ema_to_date 200 (map snd (equity_history e)))) /\
  (calculate_ema_200 e = None ->
     should_take_trade e = Some (true, set_ema_200 None e)) /\
  (forall ema,
     calculate_ema_200 e = Some ema ->
     exists equity b,
       get_current_equity e None = Some equity /\
       should_take_trade e = Some (b, set_ema_200 (Some ema) e) /\
       (b = true <-> ema < equity)).
Proof.
  split; [|split; [|split]].
  - intro H. unfold calculate_ema_200.
    apply Nat.ltb_lt in H. now rewrite H.
  - intro H. unfold calculate_ema_200.
    apply Nat.ltb_ge in H. rewrite H.
    apply ewm_mean_last.
    intro K. apply (f_equal (@length Q)) in K. rewrite length_map in K.
    apply Nat.ltb_ge in H. simpl in K. lia.
  - intro H. rewrite should_take_trade_eq, H. reflexivity.
  - intros ema H. exists (capital e), (Qgtb (capital e) ema).
    split; [apply get_current_equity_no_price|].
    split; [rewrite should_take_trade_eq, H; reflexivity|].
    unfold Qgtb. apply Qltb_lt.
Qed.

(** ** Columns, cell by cell *)

Lemma zip_with_length {A B C : Type} (f : A -> B -> C) (a : list A) (b : list B) :
  length (zip_with f a b) = Nat.min (length a) (length b).
Proof.
  revert b. induction a as [|x a IH]; intros [|y b]; simpl; try reflexivity.
  now rewrite IH.
Qed.

Lemma nth_error_zip_with {A B C : Type} (f : A -> B -> C)
                         (a : list A) (b : list B) (j : nat) :
  nth_error (zip_with f a b) j =
  match nth_error a j, nth_error b j with
  | Some x, Some y => Some (f x y)
  | _, _ => None
  end.
Proof.
  revert b j. induction a as [|x a IH]; intros [|y b] [|j]; simpl;
    try reflexivity.
  - now destruct (nth_error a j).
  - apply IH.
Qed.

Lemma at_each_row_length {A B : Type} (f : list A -> B) (s : list A) :
  length (at_each_row f s) = length s.
Proof. unfold at_each_row. now rewrite length_map, length_seq. Qed.

Lemma nth_error_at_each_row {A B : Type} (f : list A -> B) (s : list A) (j : nat) :
  nth_error (at_each_row f s) j =
  if (j <? length s)%nat then Some (f (firstn (S j) s)) else None.
Proof.
  unfold at_each_row. rewrite nth_error_map, nth_error_seq.
  now destruct (j <? length s)%nat.
Qed.

Lemma shift_length (k : nat) (s : series) : length (shift k s) = length s.
Proof.
  unfold shift. rewrite length_firstn, length_app, repeat_length. lia.
Qed.

Lemma nth_error_shift (k : nat) (s : series) (j : nat) :
  nth_error (shift k s) j =
  if (j <? length s)%nat
  then if (j <? k)%nat then Some None else nth_error s (j - k)
  else None.
Proof.
  unfold shift. rewrite nth_error_firstn.
  destruct (j <? length s)%nat eqn:Hj; [|reflexivity].
  destruct (j <? k)%nat eqn:Hk.
  - apply Nat.ltb_lt in Hk.
    rewrite nth_error_app1 by (now rewrite repeat_length).
    now apply nth_error_repeat.
  - apply Nat.ltb_ge in Hk.
    rewrite nth_error_app2 by (now rewrite repeat_length).
    now rewrite repeat_length.
Qed.

(** ** No look-ahead: every column operation commutes with [iloc[:n]] *)

Lemma firstn_zip_with {A B C : Type} (f : A -> B -> C) (n : nat)
                      (a : list A) (b : list B) :
  firstn n (zip_with f a b) = zip_with f (firstn n a) (firstn n b).
Proof.
  revert a b. induction n as [|n IH]; intros [|x a] [|y b]; simpl;
    try reflexivity.
  now rewrite IH.
Qed.

Lemma firstn_at_each_row {A B : Type} (f : list A -> B) (n : nat) (s : list A) :
  firstn n (at_each_row f s) = at_each_row f (firstn n s).
Proof.
  apply nth_error_ext. intro j.
  rewrite nth_error_firstn, !nth_error_at_each_row, length_firstn.
  destruct (j <? n)%nat eqn:Hn.
  - apply Nat.ltb_lt in Hn.
    destruct (j <? length s)%nat eqn:Hs.
    + apply Nat.ltb_lt in Hs.
      replace (j <? Nat.min n (length s))%nat with true
        by (symmetry; apply Nat.ltb_lt; lia).
      rewrite firstn_firstn. now replace (Nat.min (S j) n) with (S j) by lia.
    + apply Nat.ltb_ge in Hs.
      now replace (j <? Nat.min n (length s))%nat with false
        by (symmetry; apply Nat.ltb_ge; lia).
  - apply Nat.ltb_ge in Hn.
    now replace (j <? Nat.min n (length s))%nat with false
      by (symmetry; apply Nat.ltb_ge; lia).
Qed.

Lemma firstn_shift (k n : nat) (s : series) :
  firstn n (shift k s) = shift k (firstn n s).
Proof.
  apply nth_error_ext. intro j.
  rewrite nth_error_firstn, !nth_error_shift, length_firstn, nth_error_firstn.
  destruct (j <? n)%nat eqn:Hn.
  - apply Nat.ltb_lt in Hn.
    destruct (j <? length s)%nat eqn:Hs.
    + apply Nat.ltb_lt in Hs.
      replace (j <? Nat.min n (length s))%nat with true
        by (symmetry; apply Nat.ltb_lt; lia).
      destruct (j <? k)%nat; [reflexivity|].
      now replace (j - k <? n)%nat with true
        by (symmetry; apply Nat.ltb_lt; lia).
    + apply Nat.ltb_ge in Hs.
      now replace (j <? Nat.min n (length s))%nat with false
        by (symmetry; apply Nat.ltb_ge; lia).
  - apply Nat.ltb_ge in Hn.
    now replace (j <? Nat.min n (length s))%nat with false
      by (symmetry; apply Nat.ltb_ge; lia).
Qed.

Lemma firstn_column (f : candle -> Q) (n : nat) (df : list candle) :
  firstn n (column f df) = column f (firstn n df).
Proof. apply firstn_map. Qed.

Lemma firstn_s_sub (n : nat) (a b : series) :
  firstn n (s_sub a b) = s_sub (firstn n a) (firstn n b).
Proof. apply firstn_zip_with. Qed.

Lemma firstn_s_div (n : nat) (a b : series) :
  firstn n (s_div a b) = s_div (firstn n a) (firstn n b).
Proof. apply firstn_zip_with. Qed.

Lemma firstn_s_maximum (n : nat) (a b : series) :
  firstn n (s_maximum a b) = s_maximum (firstn n a) (firstn n b).
Proof. apply firstn_zip_with. Qed.

Lemma firstn_s_scale (n : nat) (a : series) (k : Q) :
  firstn n (s_scale a k) = s_scale (firstn n a) k.
Proof. apply firstn_map. Qed.

Lemma firstn_s_abs (n : nat) (a : series) :
  firstn n (s_abs a) = s_abs (firstn n a).
Proof. apply firstn_map. Qed.

Lemma firstn_rolling_mean (w n : nat) (s : series) :
  firstn n (rolling_mean w s) = rolling_mean w (firstn n s).
Proof. apply firstn_at_each_row. Qed.

Lemma firstn_expanding_apply (func : series -> option Q) (n : nat) (s : series) :
  firstn n (expanding_apply func s) = expanding_apply func (firstn n s).
Proof. apply firstn_at_each_row. Qed.

Create Rewrite HintDb causal.

#[local] Hint Rewrite firstn_column firstn_s_sub firstn_s_div firstn_s_maximum
  firstn_s_scale firstn_s_abs firstn_shift firstn_rolling_mean
  firstn_expanding_apply : causal.

(** Running the pipeline and cutting the frame at [n] rows is running it
    on the first [n] candles. *)
Lemma calculate_indicators_head (s : strategy) (n : nat) (df : list candle) :
  frame_head n (calculate_indicators s df) = calculate_indicators s (firstn n df).
Proof.
  unfold frame_head, calculate_indicators. simpl.
  autorewrite with causal. reflexivity.
Qed.

Lemma frame_row_head (fr : frame) (n i : nat) :
  (i < n)%nat -> frame_row (frame_head n fr) i = frame_row fr i.
Proof.
  intro H. apply Nat.ltb_lt in H.
  unfold frame_row, frame_head. simpl.
  rewrite !nth_error_firstn, H. reflexivity.
Qed.

(** C1. Appending candles changes no row already computed: the frame of
    [df ++ extra], cut at the length of [df], is the frame of [df], column
    by column (percent change, volume average and percentile, both trend
    averages, true range, ATR, expanding ATR baseline, momentum), hence row
    by row; a batch run and a re-run after each append agree wherever they
    overlap. *)
Theorem indicators_are_causal (s : strategy) (df extra : list candle) :
  frame_head (length df) (calculate_indicators s (df ++ extra))
  = calculate_indicators s df /\
  forall i, (i < length df)%nat ->
    frame_row (calculate_indicators s (df ++ extra)) i
    = frame_row (calculate_indicators s df) i.
Proof.
  assert (H : frame_head (length df) (calculate_indicators s (df ++ extra))
              = calculate_indicators s df).
  { rewrite calculate_indicators_head, firstn_app, Nat.sub_diag, firstn_all.
    simpl. now rewrite app_nil_r. }
  split; [exact H|].
  intros i Hi. rewrite <- H. symmetry. now apply frame_row_head.
Qed.

Lemma indicators_are_causal_witness :
  let df := [mkCandle 0%Z 100 102 99 101 1000; mkCandle 1%Z 101 103 100 102 1200;
             mkCandle 2%Z 102 104 101 103 900] in
  let extra := [mkCandle 3%Z 103 120 90 95 5000; mkCandle 4%Z 95 96 80 81 7000] in
  frame_row (calculate_indicators default_strategy (df ++ extra)) 2
  = frame_row (calculate_indicators default_strategy df) 2.
Proof.
  intros df extra.
  destruct (indicators_are_causal default_strategy df extra) as (_ & H).
  apply H. simpl. lia.
Defined.

(** ** Where the columns are NaN *)

Lemma nan_until_column (f : candle -> Q) (df : list candle) :
  nan_until 0 (column f df).
Proof.
  intros j c H. unfold column in H. rewrite nth_error_map in H.
  destruct (nth_error df j); inversion H. reflexivity.
Qed.

Lemma nan_until_shift (k m : nat) (s : series) :
  nan_until m s -> nan_until (m + k) (shift k s).
Proof.
  intros Hs j c H. rewrite nth_error_shift in H.
  destruct (j <? length s)%nat; [|discriminate].
  destruct (j <? k)%nat eqn:Hk.
  - inversion H. simpl. symmetry. apply Nat.ltb_lt.
    apply Nat.ltb_lt in Hk. lia.
  - apply Nat.ltb_ge in Hk. rewrite (Hs _ _ H).
    destruct (j - k <? m)%nat eqn:E; symmetry.
    + apply Nat.ltb_lt in E. apply Nat.ltb_lt. lia.
    + apply Nat.ltb_ge in E. apply Nat.ltb_ge. lia.
Qed.

Lemma nan_until_lift2 (f : Q -> Q -> Q) (ka kb : nat) (a b : series) :
  nan_until ka a -> nan_until kb b ->
  nan_until (Nat.max ka kb) (zip_with (lift2 f) a b).
Proof.
  intros Ha Hb j c H. rewrite nth_error_zip_with in H.
  destruct (nth_error a j) as [x|] eqn:Ex; [|discriminate].
  destruct (nth_error b j) as [y|] eqn:Ey; [|discriminate].
  inversion H; subst c; clear H.
  pose proof (Ha _ _ Ex) as Hx. pose proof (Hb _ _ Ey) as Hy.
  destruct (j <? ka)%nat eqn:Eka, (j <? kb)%nat eqn:Ekb;
    destruct x, y; simpl in *; try discriminate; symmetry;
    repeat match goal with
           | H : (_ <? _)%nat = true |- _ => apply Nat.ltb_lt in H
           | H : (_ <? _)%nat = false |- _ => apply Nat.ltb_ge in H
           end;
    first [apply Nat.ltb_lt; lia | apply Nat.ltb_ge; lia].
Qed.

Lemma nan_until_lift1 (f : Q -> Q) (k : nat) (a : series) :
  nan_until k a -> nan_until k (map (lift1 f) a).
Proof.
  intros Ha j c H. rewrite nth_error_map in H.
  destruct (nth_error a j) as [x|] eqn:Ex; [|discriminate].
  inversion H. rewrite <- (Ha _ _ Ex). now destruct x.
Qed.

Lemma all_defined_some (l : series) :
  (forall i c, nth_error l i = Some c -> isna c = false) ->
  exists vs, all_defined l = Some vs.
Proof.
  induction l as [|c l IH]; intro H; simpl; [eauto|].
  destruct c as [v|].
  - destruct IH as (vs & ->); [|eauto].
    intros i c Hc. apply (H (S i)). exact Hc.
  - specialize (H 0%nat None eq_refl). discriminate.
Qed.

Lemma all_defined_none (l : series) (i : nat) :
  nth_error l i = Some None -> all_defined l = None.
Proof.
  revert i. induction l as [|c l IH]; intros [|i] H; simpl in *;
    try discriminate.
  - now inversion H.
  - destruct c; [|reflexivity]. now rewrite (IH _ H).
Qed.

Lemma nth_error_lastn {A : Type} (w : nat) (l : list A) (i : nat) :
  nth_error (lastn w l) i = nth_error l (length l - w + i).
Proof. unfold lastn. apply nth_error_skipn. Qed.

Lemma nan_until_rolling (w m : nat) (s : series) :
  (0 < w)%nat ->
  nan_until m s -> nan_until (m + w - 1) (rolling_mean w s).
Proof.
  intros Hw Hs j c H. unfold rolling_mean in H.
  rewrite nth_error_at_each_row in H.
  destruct (j <? length s)%nat eqn:Hj; [|discriminate].
  apply Nat.ltb_lt in Hj.
  assert (Hc : c = window_mean w (firstn (S j) s)) by congruence.
  subst c; clear H.
  unfold window_mean. rewrite length_firstn.
  replace (Nat.min (S j) (length s)) with (S j) by lia.
  replace (w =? 0)%nat with false by (symmetry; apply Nat.eqb_neq; lia).
  simpl orb.
  destruct (S j <? w)%nat eqn:Hjw.
  - apply Nat.ltb_lt in Hjw. simpl. symmetry. apply Nat.ltb_lt. lia.
  - apply Nat.ltb_ge in Hjw.
    destruct (S j - w <? m)%nat eqn:Hm.
    + apply Nat.ltb_lt in Hm.
      assert (Hc : exists c0, nth_error s (S j - w) = Some c0).
      { destruct (nth_error s (S j - w)) eqn:E; [eauto|].
        apply nth_error_None in E. lia. }
      destruct Hc as (c0 & Hc0).
      pose proof (Hs _ _ Hc0) as Hna.
      replace (S j - w <? m)%nat with true in Hna
        by (symmetry; apply Nat.ltb_lt; lia).
      destruct c0; [discriminate|].
      rewrite (all_defined_none _ 0%nat).
      * simpl. symmetry. apply Nat.ltb_lt. lia.
      * rewrite nth_error_lastn, length_firstn, nth_error_firstn.
        replace (Nat.min (S j) (length s) - w + 0)%nat with (S j - w)%nat by lia.
        replace (S j - w <? S j)%nat with true
          by (symmetry; apply Nat.ltb_lt; lia).
        exact Hc0.
    + apply Nat.ltb_ge in Hm.
      destruct (all_defined_some (lastn w (firstn (S j) s))) as (vs & ->).
      * intros i c Hc. rewrite nth_error_lastn, nth_error_firstn in Hc.
        destruct (_ <? S j)%nat; [|discriminate].
        rewrite (Hs _ _ Hc). apply Nat.ltb_ge.
        rewrite length_firstn. lia.
      * simpl. symmetry. apply Nat.ltb_ge. lia.
Qed.

(** The ATR column of the pipeline: NaN on rows 0 to 14 (the true range
    has no previous close on row 0, fourteen of them fill the window on
    row 14, and the column is shifted by one), a number from row 15 on. *)
Lemma atr_nan_until (s : strategy) (df : list candle) :
  nan_until 15 (atr (calculate_indicators s df)).
Proof.
  unfold calculate_indicators. simpl.
  change 15%nat with (1 + 14 - 1 + 1)%nat.
  apply nan_until_shift, nan_until_rolling; [lia|].
  unfold s_maximum, s_abs, s_sub.
  change 1%nat with (Nat.max (Nat.max 0 0) (Nat.max (Nat.max 0 (0 + 1))
                                                    (Nat.max 0 (0 + 1)))).
  repeat first [ apply nan_until_lift2 | apply nan_until_lift1
               | apply nan_until_shift | apply nan_until_column ].
Qed.

Lemma defined_app (a b : series) : defined (a ++ b) = defined a ++ defined b.
Proof.
  induction a as [|[v|] a IH]; simpl; [reflexivity| |exact IH].
  now rewrite IH.
Qed.

Lemma firstn_snoc {A : Type} (l : list A) (m : nat) (c : A) :
  nth_error l m = Some c -> firstn (S m) l = firstn m l ++ [c].
Proof.
  revert m. induction l as [|a l IH]; intros [|m] H; simpl in *;
    try discriminate.
  - now inversion H.
  - now rewrite <- (IH _ H).
Qed.

(** The number of cells that are not NaN among the first [m]. *)
Lemma nan_until_count (k : nat) (s : series) (m : nat) :
  nan_until k s -> (m <= length s)%nat ->
  length (defined (firstn m s)) = (m - k)%nat.
Proof.
  intro Hs. induction m as [|m IH]; intro Hm; [reflexivity|].
  destruct (nth_error s m) as [c|] eqn:E.
  2:{ apply nth_error_None in E. lia. }
  rewrite (firstn_snoc _ _ _ E), defined_app, length_app, IH by lia.
  pose proof (Hs _ _ E) as Hc.
  destruct (m <? k)%nat eqn:Hk.
  - apply Nat.ltb_lt in Hk. destruct c; [discriminate|].
    cbn [defined length]. lia.
  - apply Nat.ltb_ge in Hk. destruct c; [|discriminate].
    cbn [defined length]. lia.
Qed.

(** The expanding average of a column that is NaN up to some row: NaN
    until the column has two numbers, then the mean of the numbers
    strictly before the row. *)
Lemma expanding_before_spec (k : nat) (a : series) (i : nat) :
  nan_until k a -> (i < length a)%nat ->
  nth_error (expanding_apply atr_before a) i =
  Some (if (2 <=? length (defined (firstn (S i) a)))%nat
        then Some (Qsum (defined (firstn i a))
                   / Qnat (length (defined (firstn i a))))
        else None).
Proof.
  intros Ha Hi. unfold expanding_apply.
  rewrite nth_error_at_each_row.
  replace (i <? length a)%nat with true by (symmetry; now apply Nat.ltb_lt).
  f_equal.
  pose proof (nan_until_count k a (S i) Ha ltac:(lia)) as Hseen.
  pose proof (nan_until_count k a i Ha ltac:(lia)) as Hbefore.
  rewrite Hseen.
  destruct (1 <=? S i - k)%nat eqn:H1.
  - apply Nat.leb_le in H1. unfold atr_before.
    rewrite length_firstn.
    replace (Nat.min (S i) (length a)) with (S i) by lia.
    destruct i as [|i].
    + replace (2 <=? 1 - k)%nat with false
        by (symmetry; apply Nat.leb_gt; lia).
      reflexivity.
    + replace (1 <? S (S i))%nat with true
        by (symmetry; apply Nat.ltb_lt; lia).
      rewrite removelast_firstn by lia.
      unfold mean_skipna.
      destruct (defined (firstn (S i) a)) as [|v vs] eqn:E.
      * cbn [length] in Hbefore.
        now replace (2 <=? S (S i) - k)%nat with false
          by (symmetry; apply Nat.leb_gt; lia).
      * cbn [length] in Hbefore.
        now replace (2 <=? S (S i) - k)%nat with true
          by (symmetry; apply Nat.leb_le; lia).
  - apply Nat.leb_gt in H1.
    now replace (2 <=? S i - k)%nat with false
      by (symmetry; apply Nat.leb_gt; lia).
Qed.

(** C7. The expanding ATR baseline at row [i] is undefined while fewer
    than two ATR values exist on the rows up to [i], and from then on it is
    the mean of all the ATR values on the rows strictly before [i], of
    which there is at least one; the ATR values on the rows up to [i] are
    those of the rows 15 to [i]. *)
Theorem expanding_atr_baseline_spec (s : strategy) (df : list candle) (i : nat) :
  (i < length df)%nat ->
  let fr := calculate_indicators s df in
  let seen := defined (firstn (S i) (atr fr)) in
  let before := defined (firstn i (atr fr)) in
  nth_error (expanding_avg_atr fr) i =
    Some (if (2 <=? length seen)%nat
          then Some (Qsum before / Qnat (length before))
          else None) /\
  length seen = (S i - 15)%nat /\
  ((2 <= length seen)%nat -> (1 <= length before)%nat).
Proof.
  intros Hi fr seen before.
  pose proof (atr_nan_until s df) as Hatr. fold fr in Hatr.
  assert (Hlen : length (atr fr) = length df).
  { unfold fr, calculate_indicators. simpl.
    rewrite shift_length. unfold rolling_mean. rewrite at_each_row_length.
    unfold s_maximum, s_abs, s_sub, column.
    repeat first [ rewrite zip_with_length | rewrite length_map
                 | rewrite shift_length ].
    lia. }
  assert (Hseen : length seen = (S i - 15)%nat).
  { apply nan_until_count; [exact Hatr|lia]. }
  assert (Hbefore : length before = (i - 15)%nat).
  { apply nan_until_count; [exact Hatr|lia]. }
  split; [|split; [exact Hseen|lia]].
  apply (expanding_before_spec 15 (atr fr)); [exact Hatr|lia].
Qed.

Lemma expanding_atr_baseline_spec_witness :
  let fr := calculate_indicators default_strategy (breakout_frame 16) in
  nth_error (expanding_avg_atr fr) 15 = Some None /\
  nth_error (expanding_avg_atr fr) 17
  = Some (Some (Qsum (defined (firstn 17 (atr fr))) / Qnat 2)) /\
  map Qred (defined (firstn 17 (atr fr))) = [1500; 1500].
Proof.
  intro fr.
  assert (H15 : (15 < length (breakout_frame 16))%nat) by (vm_compute; lia).
  assert (H17 : (17 < length (breakout_frame 16))%nat) by (vm_compute; lia).
  destruct (expanding_atr_baseline_spec default_strategy _ 15 H15)
    as (Ha & Hna & _).
  destruct (expanding_atr_baseline_spec default_strategy _ 17 H17)
    as (Hb & Hnb & _).
  fold fr in Ha, Hna, Hb, Hnb.
  rewrite Hna in Ha. rewrite Hnb in Hb.
  split; [exact Ha|]. split; [|vm_compute; reflexivity].
  rewrite Hb.
  replace (length (defined (firstn 17 (atr fr)))) with 2%nat
    by (vm_compute; reflexivity).
  reflexivity.
Defined.

Lemma ema_filter_spec_witness :
  let history n := map (fun i => (Z.of_nat i, 99)) (seq 0 n) in
  let young := set_equity_history (history 199%nat) (init_engine None None None) in
  let grown := set_equity_history (history 200%nat) (init_engine None None None) in
  calculate_ema_200 young = None /\
  should_take_trade young = Some (true, set_ema_200 None young) /\
  exists ema,
    calculate_ema_200 grown = Some ema /\
    ema = ema_to_date 200 (map snd (equity_history grown)) /\
    should_take_trade grown = Some (true, set_ema_200 (Some ema) grown).
Proof.
  intros history young grown.
  destruct (ema_filter_spec young) as (Hy1 & _ & Hy3 & _).
  destruct (ema_filter_spec grown) as (_ & Hg2 & _ & Hg4).
  assert (Hnone : calculate_ema_200 young = None).
  { apply Hy1. vm_compute. lia. }
  assert (Hsome : calculate_ema_200 grown
                  = Some (ema_to_date 200 (map snd (equity_history grown)))).
  { apply Hg2. vm_compute. lia. }
  split; [exact Hnone|]. split; [exact (Hy3 Hnone)|].
  exists (ema_to_date 200 (map snd (equity_history grown))).
  split; [exact Hsome|]. split; [reflexivity|].
  destruct (Hg4 _ Hsome) as (equity & b & Heq & Htake & Hb).
  rewrite get_current_equity_no_price in Heq.
  assert (Hlt : ema_to_date 200 (map snd (equity_history grown)) < equity).
  { replace equity with (capital grown) by congruence.
    vm_compute. reflexivity. }
  apply Hb in Hlt. now rewrite Hlt in Htake.
Defined.

(** ** The order-block scan *)

(** From the warm-up on, the loop of [detect_signal] visits the rows 4 to
    15 back from the current one, nearest first. *)
Lemma scan_range (idx : Z) :
  (50 <= idx)%Z ->
  range_down (idx - 4) (Z.max (idx - 16) (-1))
  = map (fun back => (idx - back)%Z) [4; 5; 6; 7; 8; 9; 10; 11; 12; 13; 14; 15]%Z.
Proof.
  intro H. unfold range_down.
  replace (Z.max (idx - 16) (-1)) with (idx - 16)%Z by lia.
  replace (idx - 4 - (idx - 16))%Z with 12%Z by lia.
  change (Z.to_nat 12) with 12%nat. cbn [seq map].
  repeat (apply f_equal2; [lia|]). reflexivity.
Qed.

Lemma scan_long_index (df : frame) (idx : Z) (js : list Z) (sg : signal) :
  scan_long df idx js = Some (Some sg) -> In (sig_ob_index sg) js.
Proof.
  induction js as [|j js IH]; simpl; [discriminate|].
  intro H. apply bind_inv in H. destruct H as (cj & _ & H).
  destruct (Qltb (c_close cj) (c_open cj)); [|right; now apply IH].
  apply bind_inv in H. destruct H as (ci & _ & H).
  destruct (Qgtb (c_close ci) (c_low cj)); [|right; now apply IH].
  left. inversion H. reflexivity.
Qed.

Lemma scan_short_index (df : frame) (idx : Z) (js : list Z) (sg : signal) :
  scan_short df idx js = Some (Some sg) -> In (sig_ob_index sg) js.
Proof.
  induction js as [|j js IH]; simpl; [discriminate|].
  intro H. apply bind_inv in H. destruct H as (cj & _ & H).
  destruct (Qgtb (c_close cj) (c_open cj)); [|right; now apply IH].
  apply bind_inv in H. destruct H as (ci & _ & H).
  destruct (Qltb (c_close ci) (c_high cj)); [|right; now apply IH].
  left. inversion H. reflexivity.
Qed.

(** The signal of the long scan: its order block is a bearish candle whose
    low is under the current close, and every candle visited before it is
    not such a candle (the nearest one wins). *)
Lemma scan_long_nearest (df : frame) (idx : Z) (js : list Z) (sg : signal) :
  scan_long df idx js = Some (Some sg) ->
  exists before after cj ci,
    js = before ++ sig_ob_index sg :: after /\
    iloc (rows df) (sig_ob_index sg) = Some cj /\
    iloc (rows df) idx = Some ci /\
    c_close cj < c_open cj /\
    c_low cj < c_close ci /\
    sg = mkSignal Long (c_close ci) (c_low cj) (c_timestamp ci) (sig_ob_index sg) /\
    forall j c, In j before -> iloc (rows df) j = Some c ->
      ~ (c_close c < c_open c /\ c_low c < c_close ci).
Proof.
  induction js as [|j js IH]; simpl; [discriminate|].
  intro H. apply bind_inv in H. destruct H as (cj & Hcj & H).
  assert (Hrest : forall ci,
            iloc (rows df) idx = Some ci ->
            ~ (c_close cj < c_open cj /\ c_low cj < c_close ci) ->
            scan_long df idx js = Some (Some sg) ->
            exists before after cj' ci',
              j :: js = before ++ sig_ob_index sg :: after /\
              iloc (rows df) (sig_ob_index sg) = Some cj' /\
              iloc (rows df) idx = Some ci' /\
              c_close cj' < c_open cj' /\
              c_low cj' < c_close ci' /\
              sg = mkSignal Long (c_close ci') (c_low cj') (c_timestamp ci')
                            (sig_ob_index sg) /\
              forall j' c, In j' before -> iloc (rows df) j' = Some c ->
                ~ (c_close c < c_open c /\ c_low c < c_close ci')).
  { intros ci Hci Hno Hscan.
    destruct (IH Hscan)
      as (before & after & cj' & ci' & Hjs & Hob & Hi & Hb & Hl & Hsg & Hnear).
    exists (j :: before), after, cj', ci'.
    split; [simpl; now rewrite Hjs|].
    repeat (split; [assumption|]).
    intros j' c [<-|Hin] Hc.
    - assert (c = cj) by congruence. assert (ci' = ci) by congruence.
      subst. exact Hno.
    - now apply (Hnear j'). }
  destruct (Qltb (c_close cj) (c_open cj)) eqn:Hbear.
  - apply bind_inv in H. destruct H as (ci & Hci & H).
    destruct (Qgtb (c_close ci) (c_low cj)) eqn:Hlow.
    + inversion H; subst sg; clear H. simpl.
      exists [], js, cj, ci. simpl.
      apply Qltb_lt in Hbear. apply Qltb_lt in Hlow.
      repeat (split; [assumption || reflexivity|]).
      intros j' c [].
    + apply (Hrest ci Hci); [|exact H].
      apply Qltb_ge in Hlow. intros (_ & K). lra.
  - apply Qltb_ge in Hbear.
    destruct (IH H)
      as (before & after & cj' & ci' & Hjs & Hob & Hi & Hb & Hl & Hsg & Hnear).
    apply (Hrest ci' Hi); [|exact H].
    intros (K & _). lra.
Qed.

(** The long scan gives up only when no candle it visits is a bearish
    candle with its low under the current close. *)
Lemma scan_long_none (df : frame) (idx : Z) (js : list Z) (ci : candle) :
  scan_long df idx js = Some None ->
  iloc (rows df) idx = Some ci ->
  forall j c, In j js -> iloc (rows df) j = Some c ->
    ~ (c_close c < c_open c /\ c_low c < c_close ci).
Proof.
  intros H Hci. induction js as [|j js IH]; simpl in *; [intros j c []|].
  apply bind_inv in H. destruct H as (cj & Hcj & H).
  assert (Hhere : ~ (c_close cj < c_open cj /\ c_low cj < c_close ci)
                  /\ scan_long df idx js = Some None).
  { destruct (Qltb (c_close cj) (c_open cj)) eqn:Hbear.
    - simpl in H. rewrite Hci in H. simpl in H.
      destruct (Qgtb (c_close ci) (c_low cj)) eqn:Hlow; [discriminate|].
      apply Qltb_ge in Hlow. split; [|exact H]. intros (_ & K). lra.
    - apply Qltb_ge in Hbear. split; [|exact H]. intros (K & _). lra. }
  destruct Hhere as (Hno & Hscan).
  intros j' c [<-|Hin] Hc.
  - assert (c = cj) by congruence. subst. exact Hno.
  - now apply (IH Hscan j').
Qed.

(** The order block of an emitted signal is 4 to 15 rows back, never 16. *)
Lemma detect_signal_order_block_range
    (s : strategy) (df : frame) (idx : Z) (sg : signal) (s' : strategy) :
  detect_signal s df idx = Some (Some sg, s') ->
  (50 <= idx)%Z /\
  (idx - 15 <= sig_ob_index sg <= idx - 4)%Z /\
  s' = set_last_trade_index idx s.
Proof.
  unfold detect_signal.
  destruct (idx <? 50)%Z eqn:Hidx; [discriminate|].
  apply Z.ltb_ge in Hidx. rewrite (scan_range idx Hidx).
  intro H.
  apply bind_inv in H. destruct H as (pc_i & _ & H).
  apply bind_inv in H. destruct H as (prev_pc & _ & H).
  apply bind_inv in H. destruct H as (valid_long & _ & H).
  assert (Hin : forall back,
            In (idx - back)%Z
               (map (fun back => (idx - back)%Z)
                    [4; 5; 6; 7; 8; 9; 10; 11; 12; 13; 14; 15]%Z) ->
            (4 <= back <= 15)%Z).
  { intros back Hb. apply in_map_iff in Hb. destruct Hb as (b & Hb & Hmem).
    simpl in Hmem. intuition lia. }
  split; [exact Hidx|].
  destruct (valid_long && _).
  - apply bind_inv in H. destruct H as ([r|] & Hr & H); [|discriminate].
    inversion H; subst; clear H.
    apply scan_long_index in Hr.
    replace (sig_ob_index sg) with (idx - (idx - sig_ob_index sg))%Z in Hr by lia.
    apply Hin in Hr. split; [lia|reflexivity].
  - apply bind_inv in H. destruct H as (valid_short & _ & H).
    destruct (valid_short && _); [|discriminate].
    apply bind_inv in H. destruct H as ([r|] & Hr & H); [|discriminate].
    inversion H; subst; clear H.
    apply scan_short_index in Hr.
    replace (sig_ob_index sg) with (idx - (idx - sig_ob_index sg))%Z in Hr by lia.
    apply Hin in Hr. split; [lia|reflexivity].
Qed.

(** C2 fails on the row 16 back.  On the breakout frame whose only
    bearish candle is at index 34 = 50 - 16, every gate of the long signal
    passes at index 50, the percent change crosses the sensitivity, the
    bearish candle has its low under the current close, and
    [detect_signal] returns no signal and leaves the strategy as it was;
    with the bearish candle at index 35 = 50 - 15 the signal is emitted
    with that candle's low as stop. *)
Theorem detect_signal_skips_candle_16_back :
  let fr16 := calculate_indicators default_strategy (breakout_frame 16) in
  let fr15 := calculate_indicators default_strategy (breakout_frame 15) in
  is_valid_trade_condition default_strategy fr16 50 Long = Some true /\
  cell_ltb (nth 49 (pc fr16) None) (Some 0.015) = true /\
  cell_geb (nth 50 (pc fr16) None) (Some 0.015) = true /\
  nth_error (rows fr16) 34 = Some (bearish_candle 34) /\
  nth_error (rows fr16) 50 = Some breakout_candle /\
  c_close (bearish_candle 34) < c_open (bearish_candle 34) /\
  c_low (bearish_candle 34) < c_close breakout_candle /\
  detect_signal default_strategy fr16 50 = Some (None, default_strategy) /\
  detect_signal default_strategy fr15 50
  = Some (Some (mkSignal Long (c_close breakout_candle)
                         (c_low (bearish_candle 35)) 50%Z 35%Z),
          set_last_trade_index 50 default_strategy).
Proof.
  intros fr16 fr15.
  repeat split; vm_compute; reflexivity.
Qed.

(** * More of the engine *)

(** ** What [open_position] books *)

(** The stop fraction of a successful [open_position]. *)
Lemma open_position_fractions (e : engine) (sg : signal) (ts : timestamp)
                              (p : position) (e1 : engine) :
  open_position e sg ts = Some (Some p, e1) ->
  sl_percentage p =
    match sig_type sg with
    | Long => (adjusted_entry e sg - sig_stop_loss sg) / adjusted_entry e sg
    | Short => (sig_stop_loss sg - adjusted_entry e sg) / adjusted_entry e sg
    end.
Proof.
  unfold open_position.
  destruct (cur_position e); [discriminate|].
  fold (adjusted_entry e sg).
  destruct (match sig_type sg with
            | Long => Qleb (adjusted_entry e sg) (sig_stop_loss sg)
            | Short => Qgeb (adjusted_entry e sg) (sig_stop_loss sg)
            end); [discriminate|].
  intro H.
  apply bind_inv in H. destruct H as (size & _ & H).
  apply bind_inv in H. destruct H as (slp & Hslp & H).
  inversion H; subst; clear H. simpl.
  destruct (sig_type sg); apply pydiv_inv in Hslp; tauto.
Qed.

(** A successful [open_position] puts the whole capital into the position
    (size times adjusted entry is the capital), charges capital times the
    commission rate, and leaves capital * (1 - commission) in
    [self.capital]; the ledger and the equity history are untouched. *)
Theorem open_position_accounting
    (e : engine) (sg : signal) (ts : timestamp) (p : position) (e1 : engine) :
  open_position e sg ts = Some (Some p, e1) ->
  position_size p * adj_entry_price p == capital e /\
  entry_commission p == capital e * commission e /\
  capital e1 == capital e * (1 - commission e) /\
  cur_position e1 = Some p /\
  trades e1 = trades e /\
  equity_history e1 = equity_history e.
Proof.
  intro H.
  pose proof (open_position_inv _ _ _ _ _ H)
    as (_ & _ & Hnz & _ & _ & Hae & _ & _ & Hsz & _ & _ & Hcm & He1).
  assert (Hfull : position_size p * adj_entry_price p == capital e).
  { rewrite Hsz, Hae. field. exact Hnz. }
  assert (Hfee : entry_commission p == capital e * commission e).
  { rewrite Hcm, Hfull. reflexivity. }
  split; [exact Hfull|]. split; [exact Hfee|].
  rewrite He1. simpl. split; [rewrite Hfee; ring|].
  repeat split.
Qed.

Lemma open_position_accounting_witness :
  exists p e1,
    open_position (init_engine None None None)
                  (mkSignal Long 3000 2950 0%Z 46%Z) 0%Z = Some (Some p, e1) /\
    position_size p * adj_entry_price p == 100 /\
    entry_commission p == 100 * 0.0006 /\
    capital e1 == 100 * (1 - 0.0006).
Proof.
  destruct (open_position_ok (init_engine None None None)
                             (mkSignal Long 3000 2950 0%Z 46%Z) 0%Z eq_refl)
    as (p & e1 & Hopen).
  { vm_compute. intro H. apply H. reflexivity. }
  { vm_compute. discriminate. }
  destruct (open_position_accounting _ _ _ _ _ Hopen) as (H1 & H2 & H3 & _).
  exists p, e1. repeat split; assumption.
Defined.

(** A position opened at a positive adjusted entry has its stop on the
    losing side of the entry, at the distance [sl_percentage] of it, and
    both the stop fraction and the trailing fraction (three quarters of
    it) are positive. *)
Theorem open_position_stop_geometry
    (e : engine) (sg : signal) (ts : timestamp) (p : position) (e1 : engine) :
  open_position e sg ts = Some (Some p, e1) ->
  0 < adj_entry_price p ->
  match pos_type p with
  | Long => stop_loss p < adj_entry_price p /\
            stop_loss p == adj_entry_price p * (1 - sl_percentage p)
  | Short => adj_entry_price p < stop_loss p /\
             stop_loss p == adj_entry_price p * (1 + sl_percentage p)
  end /\
  0 < sl_percentage p /\
  trailing_stop_pct p == 0.75 * sl_percentage p /\
  0 < trailing_stop_pct p.
Proof.
  intros H Hpos.
  pose proof (open_position_fractions _ _ _ _ _ H) as Hslp.
  pose proof (open_position_inv _ _ _ _ _ H)
    as (_ & Hd & Hnz & Hty & _ & Hae & _ & _ & _ & Hsl & Htsp & _ & _).
  unfold degenerate in Hd. rewrite Hty, Hsl, Hae, Htsp, Hslp in *.
  destruct (sig_type sg).
  - assert (Hlt : sig_stop_loss sg < adjusted_entry e sg) by lra.
    assert (Hfrac : 0 < (adjusted_entry e sg - sig_stop_loss sg)
                        / adjusted_entry e sg).
    { apply Qlt_shift_div_l; lra. }
    repeat split; try lra.
    field. exact Hnz.
  - assert (Hlt : adjusted_entry e sg < sig_stop_loss sg) by lra.
    assert (Hfrac : 0 < (sig_stop_loss sg - adjusted_entry e sg)
                        / adjusted_entry e sg).
    { apply Qlt_shift_div_l; lra. }
    repeat split; try lra.
    field. exact Hnz.
Qed.

Lemma open_position_stop_geometry_witness :
  exists p e1,
    open_position (init_engine None None None)
                  (mkSignal Short 3000 3050 0%Z 46%Z) 0%Z = Some (Some p, e1) /\
    adj_entry_price p < stop_loss p /\
    0 < trailing_stop_pct p.
Proof.
  destruct (open_position_ok (init_engine None None None)
                             (mkSignal Short 3000 3050 0%Z 46%Z) 0%Z eq_refl)
    as (p & e1 & Hopen).
  { vm_compute. intro H. apply H. reflexivity. }
  { vm_compute. discriminate. }
  pose proof (open_position_inv _ _ _ _ _ Hopen)
    as (_ & _ & _ & Hty & _ & Hae & _).
  assert (Hpos : 0 < adj_entry_price p) by (rewrite Hae; reflexivity).
  destruct (open_position_stop_geometry _ _ _ _ _ Hopen Hpos)
    as (Hside & _ & _ & Htsp).
  rewrite Hty in Hside. simpl in Hside.
  exists p, e1. split; [exact Hopen|]. split; [apply Hside|exact Htsp].
Defined.

(** ** Stop exits and trailing *)

Lemma set_position_same (e : engine) (p : position) :
  cur_position e = Some p -> set_position (Some p) e = e.
Proof. destruct e. simpl. now intros ->. Qed.

(** With a positive trailing fraction and a positive price, the trailing
    candidate stays on the safe side of the price. *)
Lemma trailed_standing_stop (p : position) (price : Q) :
  0 < trailing_stop_pct p -> 0 < price ->
  (stop_hit (trailed p price) price = true <->
   match pos_type p with
   | Long => price <= stop_loss p
   | Short => stop_loss p <= price
   end) /\
  (stop_hit (trailed p price) price = true -> trailed p price = p) /\
  (stop_hit (trailed p price) price = false ->
   match pos_type p with
   | Long => stop_loss (trailed p price) < price
   | Short => price < stop_loss (trailed p price)
   end).
Proof.
  intros Htsp Hprice. unfold stop_hit, trailed, Qgeb, Qgtb.
  destruct (pos_type p) eqn:Hty.
  - assert (Htrail : price * (1 - trailing_stop_pct p) < price) by nra.
    destruct (Qltb (stop_loss p) (price * (1 - trailing_stop_pct p))) eqn:E;
      simpl; rewrite Hty.
    + apply Qltb_lt in E. simpl.
      split; [split; intro H|split; intro H].
      * apply Qleb_le in H. lra.
      * apply Qleb_le. lra.
      * apply Qleb_le in H. lra.
      * exact Htrail.
    + apply Qltb_ge in E.
      split; [apply Qleb_le|split; intro H; [reflexivity|]].
      now apply Qleb_gt in H.
  - assert (Htrail : price < price * (1 + trailing_stop_pct p)) by nra.
    destruct (Qltb (price * (1 + trailing_stop_pct p)) (stop_loss p)) eqn:E;
      simpl; rewrite Hty.
    + apply Qltb_lt in E. simpl.
      split; [split; intro H|split; intro H].
      * apply Qleb_le in H. lra.
      * apply Qleb_le. lra.
      * apply Qleb_le in H. lra.
      * exact Htrail.
    + apply Qltb_ge in E.
      split; [apply Qleb_le|split; intro H; [reflexivity|]].
      now apply Qleb_gt in H.
Qed.

Lemma open_position_trailing_positive
    (e : engine) (sg : signal) (ts : timestamp) (p : position) (e1 : engine) :
  open_position e sg ts = Some (Some p, e1) ->
  0 < adj_entry_price p ->
  0 < trailing_stop_pct p.
Proof.
  intros H Hpos.
  pose proof (open_position_fractions _ _ _ _ _ H) as Hslp.
  pose proof (open_position_inv _ _ _ _ _ H)
    as (_ & Hd & _ & _ & _ & Hae & _ & _ & _ & _ & Htsp & _ & _).
  unfold degenerate in Hd. rewrite Hae in Hpos. rewrite Htsp, Hslp.
  assert (Hfrac : 0 < match sig_type sg with
                      | Long => (adjusted_entry e sg - sig_stop_loss sg)
                                / adjusted_entry e sg
                      | Short => (sig_stop_loss sg - adjusted_entry e sg)
                                 / adjusted_entry e sg
                      end).
  { destruct (sig_type sg); apply Qlt_shift_div_l; lra. }
  lra.
Qed.

(** For a position opened by [open_position] at a positive adjusted entry
    and kept since, [update_position] at a positive price closes exactly
    when the price has reached the stop that stood before the call (the
    trailing of the same call never triggers the exit), then exits at that
    standing stop; otherwise it leaves the stop strictly on the safe side
    of the price. *)
Theorem stop_exit_at_standing_stop
    (e0 : engine) (sg : signal) (ts : timestamp) (p0 : position)
    (e1 e : engine) (price : Q) (ts' : timestamp) :
  open_position e0 sg ts = Some (Some p0, e1) ->
  0 < adj_entry_price p0 ->
  held e1 e ->
  0 < price ->
  exists p,
    cur_position e = Some p /\
    (match pos_type p with
     | Long => price <= stop_loss p
     | Short => stop_loss p <= price
     end ->
     update_position e price ts'
     = close_position e (stop_loss p) ts' "stop_loss") /\
    (match pos_type p with
     | Long => stop_loss p < price
     | Short => price < stop_loss p
     end ->
     exists p',
       update_position e price ts' = Some (None, set_position (Some p') e) /\
       match pos_type p with
       | Long => stop_loss p <= stop_loss p' /\ stop_loss p' < price
       | Short => price < stop_loss p' /\ stop_loss p' <= stop_loss p
       end).
Proof.
  intros Hopen Hpos Hheld Hprice.
  pose proof (open_position_trailing_positive _ _ _ _ _ Hopen Hpos) as Htsp0.
  pose proof (open_position_inv _ _ _ _ _ Hopen)
    as (_ & _ & _ & _ & _ & _ & _ & _ & _ & _ & _ & _ & He1).
  assert (Hp1 : cur_position e1 = Some p0) by (rewrite He1; reflexivity).
  destruct (held_invariant _ _ Hheld _ Hp1) as (s' & Hp & _).
  set (p := set_stop_loss s' p0) in *.
  assert (Htsp : 0 < trailing_stop_pct p) by exact Htsp0.
  destruct (trailed_standing_stop p price Htsp Hprice) as (Hiff & Hsame & Hsafe).
  exists p. split; [exact Hp|]. split.
  - intro Hreach. apply Hiff in Hreach.
    rewrite (update_position_open e p price ts' Hp), Hreach.
    rewrite (Hsame Hreach), (set_position_same e p Hp). reflexivity.
  - intro Haway.
    assert (Hmiss : stop_hit (trailed p price) price = false).
    { apply not_true_is_false. intro E.
      apply Hiff in E. destruct (pos_type p); lra. }
    exists (trailed p price).
    rewrite (update_position_open e p price ts' Hp), Hmiss.
    split; [reflexivity|].
    pose proof (trailed_monotone p price) as Hmono.
    specialize (Hsafe Hmiss).
    destruct (pos_type p); split; assumption.
Qed.

Lemma stop_exit_at_standing_stop_witness :
  exists p0 e1 t e2,
    open_position (init_engine None None None)
                  (mkSignal Long 3000 2950 0%Z 46%Z) 0%Z = Some (Some p0, e1) /\
    update_position e1 2940 1%Z = Some (Some t, e2) /\
    exit_price t = 2950 * (1 - 0.0005).
Proof.
  destruct (open_position_ok (init_engine None None None)
                             (mkSignal Long 3000 2950 0%Z 46%Z) 0%Z eq_refl)
    as (p0 & e1 & Hopen).
  { vm_compute. intro H. apply H. reflexivity. }
  { vm_compute. discriminate. }
  pose proof (open_position_inv _ _ _ _ _ Hopen)
    as (_ & _ & _ & Hty & _ & Hae & _ & Hec & _ & Hsl & _ & _ & He1).
  assert (Hpos : 0 < adj_entry_price p0) by (rewrite Hae; reflexivity).
  assert (Hp1 : cur_position e1 = Some p0) by (rewrite He1; reflexivity).
  destruct (stop_exit_at_standing_stop _ _ _ _ _ e1 2940 1%Z Hopen Hpos
                                       (held_refl e1) eq_refl)
    as (p & Hp & Hclose & _).
  assert (Hpp : p = p0) by congruence. subst p.
  rewrite Hty, Hsl in Hclose. simpl in Hclose.
  assert (Hreach : 2940 <= 2950) by (vm_compute; discriminate).
  specialize (Hclose Hreach).
  destruct (close_position_ok e1 p0 2950 1%Z "stop_loss" Hp1)
    as (t & e2 & Hdone).
  { rewrite Hty, Hae. vm_compute. discriminate. }
  { rewrite Hec. vm_compute. discriminate. }
  exists p0, e1, t, e2. split; [exact Hopen|].
  split; [now rewrite Hclose|].
  destruct (close_position_inv _ _ _ _ _ _ Hdone)
    as (p' & Hp' & _ & Hx & _).
  assert (p' = p0) by congruence. subst p'.
  rewrite Hx. unfold adjusted_exit. rewrite Hty, He1. reflexivity.
Defined.

(** ** Costs of a round trip *)

(** A position opened and closed at the same price loses money: with a
    slippage rate in (0, 1) and a commission rate that is not negative,
    the return multiplier is (1 - slippage) / (1 + slippage) for a long
    and for a short alike, the P&L is negative and the capital is lower
    after the close than before the open. *)
Theorem round_trip_at_entry_price_loses
    (e : engine) (sg : signal) (ts ts' : timestamp) (reason : string) :
  cur_position e = None ->
  0 < slippage e -> slippage e < 1 ->
  0 <= commission e ->
  0 < capital e ->
  0 < sig_entry_price sg ->
  ~ degenerate e sg ->
  exists p e1 t e2,
    open_position e sg ts = Some (Some p, e1) /\
    close_position e1 (sig_entry_price sg) ts' reason = Some (Some t, e2) /\
    return_multiplier t == (1 - slippage e) / (1 + slippage e) /\
    pnl t < 0 /\
    capital e2 < capital e.
Proof.
  intros Hflat Hs0 Hs1 Hc HC HE Hd.
  assert (Hadj : 0 < adjusted_entry e sg).
  { unfold adjusted_entry. destruct (sig_type sg); nra. }
  assert (Hnz : ~ adjusted_entry e sg == 0) by lra.
  destruct (open_position_ok e sg ts Hflat Hd Hnz) as (p & e1 & Hopen).
  pose proof (open_position_inv _ _ _ _ _ Hopen)
    as (_ & _ & _ & Hty & _ & Hae & _ & Hec & Hsz & _ & _ & _ & He1).
  assert (Hp1 : cur_position e1 = Some p) by (rewrite He1; reflexivity).
  assert (Hs1' : slippage e1 = slippage e) by (rewrite He1; reflexivity).
  assert (Hc1 : commission e1 = commission e) by (rewrite He1; reflexivity).
  assert (Hexit : 0 < adjusted_exit e1 p (sig_entry_price sg)).
  { unfold adjusted_exit. rewrite Hs1'. destruct (pos_type p); nra. }
  destruct (close_position_ok e1 p (sig_entry_price sg) ts' reason Hp1)
    as (t & e2 & Hclose).
  { destruct (pos_type p); [rewrite Hae|]; lra. }
  { rewrite Hec. lra. }
  pose proof (close_position_inv _ _ _ _ _ _ Hclose)
    as (p' & Hp' & _ & Hxp & _ & _ & Hm & Hxc & Hpnl & _ & He2).
  assert (p' = p) by congruence. subst p'.
  exists p, e1, t, e2.
  split; [exact Hopen|]. split; [exact Hclose|].
  assert (Hmult : return_multiplier t == (1 - slippage e) / (1 + slippage e)).
  { rewrite Hm, Hxp, Hae. unfold adjusted_exit, adjusted_entry.
    rewrite Hs1', Hty.
    destruct (sig_type sg); field; split; lra. }
  assert (Hm1 : return_multiplier t < 1).
  { rewrite Hmult. apply Qlt_shift_div_r; lra. }
  assert (Hsize : 0 < position_size p).
  { rewrite Hsz. apply Qlt_shift_div_l; lra. }
  assert (Hfee : 0 <= position_size p * exit_price t * commission e1).
  { rewrite Hc1, Hxp. apply Qmult_le_0_compat; [|exact Hc].
    apply Qmult_le_0_compat; lra. }
  assert (Hcap : exit_capital t < capital e).
  { rewrite Hxc, Hec. nra. }
  split; [exact Hmult|]. split.
  - rewrite Hpnl, Hec. lra.
  - rewrite He2. simpl. exact Hcap.
Qed.

Lemma round_trip_at_entry_price_loses_witness :
  exists p e1 t e2,
    open_position (init_engine None None None)
                  (mkSignal Short 3000 3050 0%Z 46%Z) 0%Z = Some (Some p, e1) /\
    close_position e1 3000 1%Z "manual" = Some (Some t, e2) /\
    pnl t < 0 /\
    capital e2 < 100.
Proof.
  destruct (round_trip_at_entry_price_loses
              (init_engine None None None)
              (mkSignal Short 3000 3050 0%Z 46%Z) 0%Z 1%Z "manual")
    as (p & e1 & t & e2 & Hopen & Hclose & _ & Hpnl & Hcap);
    try reflexivity.
  - vm_compute. discriminate.
  - vm_compute. intro H. apply H. reflexivity.
  - exists p, e1, t, e2. repeat split; assumption.
Defined.

(** ** Marked equity and realised capital *)

(** The equity marked at a price is what [close_position] at that price
    would leave, short of the entry commission and before the exit
    commission: closing at the marked price moves the capital to
    equity + entry commission - exit commission. *)
Theorem equity_marks_the_close
    (e : engine) (p : position) (x : Q) (ts : timestamp) (reason : string)
    (t : trade) (e2 : engine) :
  cur_position e = Some p ->
  close_position e x ts reason = Some (Some t, e2) ->
  get_current_equity e (Some x)
  = Some (entry_capital p * return_multiplier t - entry_commission p) /\
  capital e2 ==
    (entry_capital p * return_multiplier t - entry_commission p)
    + entry_commission p
    - position_size p * exit_price t * commission e.
Proof.
  intros Hp Hclose.
  pose proof (close_position_inv _ _ _ _ _ _ Hclose)
    as (p' & Hp' & _ & Hxp & _ & _ & Hm & Hxc & _ & _ & He2).
  assert (p' = p) by congruence. subst p'.
  split.
  - unfold close_position in Hclose. rewrite Hp in Hclose.
    apply bind_inv in Hclose. destruct Hclose as (m & Hdiv & Hrest).
    apply bind_inv in Hrest. destruct Hrest as (r & _ & Hrest).
    inversion Hrest; subst t; clear Hrest. simpl.
    unfold get_current_equity. rewrite Hp.
    destruct (pos_type p); rewrite Hdiv; reflexivity.
  - rewrite He2. simpl. rewrite Hxc. ring.
Qed.

Lemma equity_marks_the_close_witness :
  let p := mkPosition Long 3000 3001.5 0%Z 100 (100 / 3001.5) 2950
                      ((3001.5 - 2950) / 3001.5)
                      ((3001.5 - 2950) / 3001.5 * 0.75)
                      (100 / 3001.5 * 3001.5 * 0.0006) in
  let e := set_capital (100 - entry_commission p)
             (set_position (Some p) (init_engine None None None)) in
  exists t e2 equity,
    close_position e 3050 1%Z "manual" = Some (Some t, e2) /\
    get_current_equity e (Some 3050) = Some equity /\
    capital e2 ==
      equity + entry_commission p - position_size p * exit_price t * 0.0006.
Proof.
  intros p e.
  destruct (close_position_ok e p 3050 1%Z "manual" eq_refl) as (t & e2 & Hclose).
  { vm_compute. discriminate. }
  { vm_compute. discriminate. }
  destruct (equity_marks_the_close e p 3050 1%Z "manual" t e2 eq_refl Hclose)
    as (Heq & Hcap).
  exists t, e2, (entry_capital p * return_multiplier t - entry_commission p).
  split; [exact Hclose|]. split; [exact Heq|exact Hcap].
Defined.

(** ** Invariants of the engine over any sequence of calls *)

(** What one call may do to the ledgers. *)
Lemma call_effect (e : engine) (c : engine_call) (e' : engine) :
  call e c = Some e' ->
  initial_capital e' = initial_capital e /\
  slippage e' = slippage e /\
  commission e' = commission e /\
  (exists closed, trades e' = trades e ++ closed /\ (length closed <= 1)%nat) /\
  (exists points,
     equity_history e' = equity_history e ++ points /\
     length points = if is_record c then 1%nat else 0%nat).
Proof.
  assert (Hsame : forall e0 : engine,
            initial_capital e0 = initial_capital e0 /\
            slippage e0 = slippage e0 /\
            commission e0 = commission e0 /\
            (exists closed, trades e0 = trades e0 ++ closed
                            /\ (length closed <= 1)%nat) /\
            (exists points, equity_history e0 = equity_history e0 ++ points
                            /\ length points = 0%nat)).
  { intro e0. repeat split; exists []; rewrite app_nil_r; simpl; split;
      try reflexivity; lia. }
  assert (Hclose : forall e0 x ts reason r e1,
            close_position e0 x ts reason = Some (r, e1) ->
            initial_capital e1 = initial_capital e0 /\
            slippage e1 = slippage e0 /\
            commission e1 = commission e0 /\
            (exists closed, trades e1 = trades e0 ++ closed
                            /\ (length closed <= 1)%nat) /\
            (exists points, equity_history e1 = equity_history e0 ++ points
                            /\ length points = 0%nat)).
  { intros e0 x ts reason [t|] e1 H.
    - destruct (close_position_inv _ _ _ _ _ _ H) as (p & _ & _ & _ & _ & _ & _ & _ & _ & _ & He1).
      rewrite He1. simpl. repeat split.
      + exists [t]. split; [reflexivity|simpl; lia].
      + exists []. now rewrite app_nil_r.
    - destruct (cur_position e0) as [p|] eqn:Hp.
      + exfalso. exact (close_position_not_silent e0 p x ts reason e1 Hp H).
      + unfold close_position in H. rewrite Hp in H.
        inversion H; subst. apply Hsame. }
  destruct c as [sg ts|price ts|x ts reason|ts price|]; simpl; intro H.
  - apply bind_inv in H. destruct H as ((r & e1) & Hopen & H).
    inversion H; subst; clear H. simpl.
    destruct r as [p|].
    + pose proof (open_position_inv _ _ _ _ _ Hopen)
        as (_ & _ & _ & _ & _ & _ & _ & _ & _ & _ & _ & _ & He1).
      rewrite He1. simpl. repeat split; exists []; rewrite app_nil_r;
        simpl; split; try reflexivity; lia.
    + assert (e' = e).
      { unfold open_position in Hopen.
        destruct (cur_position e); [now inversion Hopen|].
        match type of Hopen with
        | (if ?b then _ else _) = _ => destruct b; [now inversion Hopen|]
        end.
        apply bind_inv in Hopen. destruct Hopen as (? & _ & Hopen).
        apply bind_inv in Hopen. destruct Hopen as (? & _ & Hopen).
        discriminate. }
      subst. apply Hsame.
  - apply bind_inv in H. destruct H as ((r & e1) & Hup & H).
    inversion H; subst; clear H. simpl.
    destruct (cur_position e) as [p|] eqn:Hp.
    + rewrite (update_position_open e p price ts Hp) in Hup.
      destruct (stop_hit (trailed p price) price).
      * apply Hclose in Hup. exact Hup.
      * inversion Hup; subst. simpl. apply Hsame.
    + unfold update_position in Hup. rewrite Hp in Hup.
      inversion Hup; subst. apply Hsame.
  - apply bind_inv in H. destruct H as ((r & e1) & Hcl & H).
    inversion H; subst; clear H. simpl. now apply Hclose in Hcl.
  - destruct (record_equity_inv _ _ _ _ H) as (q & _ & He1).
    rewrite He1. simpl. repeat split.
    + exists []. rewrite app_nil_r. split; [reflexivity|simpl; lia].
    + exists [(ts, q)]. split; reflexivity.
  - rewrite should_take_trade_eq in H. simpl in H.
    inversion H; subst. simpl. repeat split; exists []; rewrite app_nil_r;
      simpl; split; try reflexivity; lia.
Qed.

(** Whatever is called on an engine, in whatever order, its initial
    capital, slippage and commission never change, the ledger of trades
    and the equity history only grow at their end, every [record_equity]
    adds exactly one equity point and nothing else adds any, and no call
    adds more than one trade. *)
Theorem engine_ledgers_append_only
    (cs : list engine_call) (e e' : engine) :
  calls e cs = Some e' ->
  initial_capital e' = initial_capital e /\
  slippage e' = slippage e /\
  commission e' = commission e /\
  (exists closed,
     trades e' = trades e ++ closed /\ (length closed <= length cs)%nat) /\
  (exists points,
     equity_history e' = equity_history e ++ points /\
     length points = length (filter is_record cs)).
Proof.
  revert e. induction cs as [|c cs IH]; simpl; intros e H.
  - inversion H; subst. repeat split; exists []; rewrite app_nil_r;
      split; reflexivity || (simpl; lia).
  - apply bind_inv in H. destruct H as (e1 & Hc & H).
    destruct (call_effect _ _ _ Hc)
      as (Hi & Hs & Hm & (cl1 & Ht1 & Hl1) & (pt1 & Hq1 & Hn1)).
    destruct (IH _ H) as (Hi' & Hs' & Hm' & (cl2 & Ht2 & Hl2) & (pt2 & Hq2 & Hn2)).
    repeat split; try congruence.
    + exists (cl1 ++ cl2). rewrite Ht2, Ht1, app_assoc, length_app.
      split; [reflexivity|lia].
    + exists (pt1 ++ pt2). rewrite Hq2, Hq1, app_assoc, length_app, Hn1, Hn2.
      split; [reflexivity|]. destruct (is_record c); reflexivity.
Qed.

Lemma engine_ledgers_append_only_witness :
  exists e',
    calls (init_engine None None None)
          [CallOpen (mkSignal Long 3000 2950 0%Z 46%Z) 0%Z;
           CallRecord 0%Z (Some 3000); CallUpdate 3050 1%Z;
           CallRecord 1%Z (Some 3050); CallGate;
           CallClose 3050 2%Z "manual"; CallRecord 2%Z (Some 3050)]
    = Some e' /\
    length (equity_history e') = 3%nat /\
    (length (trades e') <= 7)%nat /\
    slippage e' = 0.0005.
Proof.
  eexists. split; [vm_compute; reflexivity|].
  match goal with
  | |- context [length (equity_history ?x)] => set (e' := x)
  end.
  assert (Hrun : calls (init_engine None None None)
          [CallOpen (mkSignal Long 3000 2950 0%Z 46%Z) 0%Z;
           CallRecord 0%Z (Some 3000); CallUpdate 3050 1%Z;
           CallRecord 1%Z (Some 3050); CallGate;
           CallClose 3050 2%Z "manual"; CallRecord 2%Z (Some 3050)]
          = Some e') by (vm_compute; reflexivity).
  destruct (engine_ledgers_append_only _ _ _ Hrun)
    as (_ & Hs & _ & (cl & Ht & Hl) & (pt & Hq & Hn)).
  rewrite Hq, Ht, Hs. simpl in *. repeat split; lia || reflexivity.
Defined.

Lemma chained_snoc (c : Q) (ledger : list trade) (t : trade) :
  chained c ledger ->
  entry_capital (tr_position t) = last (map exit_capital ledger) c ->
  chained c (ledger ++ [t]).
Proof.
  revert c. induction ledger as [|t0 l IH]; simpl; intros c Hch Hent.
  - split; [exact Hent|exact I].
  - destruct Hch as (H0 & Hch). split; [exact H0|].
    apply IH; [exact Hch|].
    rewrite Hent. destruct (map exit_capital l) eqn:E; [reflexivity|].
    apply last_cons_default.
Qed.

Lemma books_balance_close
    (e : engine) (x : Q) (ts : timestamp) (reason : string)
    (r : option trade) (e1 : engine) :
  books_balance e ->
  close_position e x ts reason = Some (r, e1) ->
  books_balance e1.
Proof.
  intros (Hch & Hpnl & Hcap) H.
  destruct (cur_position e) as [p|] eqn:Hp.
  - destruct r as [t|].
    2:{ exfalso. exact (close_position_not_silent e p x ts reason e1 Hp H). }
    destruct (close_position_inv _ _ _ _ _ _ H)
      as (p' & Hp' & Htp & _ & _ & _ & _ & _ & Hpn & _ & He1).
    assert (Hpp : p' = p) by congruence. rewrite Hpp in Htp, Hpn.
    destruct Hcap as (Hent & _).
    rewrite He1. unfold books_balance, realised. simpl.
    split; [|split].
    + apply chained_snoc; [exact Hch|]. rewrite Htp. exact Hent.
    + apply Forall_app. split; [exact Hpnl|].
      constructor; [|constructor]. rewrite Hpn, Htp. reflexivity.
    + rewrite map_app. simpl. now rewrite last_last.
  - unfold close_position in H. rewrite Hp in H. inversion H; subst.
    unfold books_balance. rewrite Hp. auto.
Qed.

Lemma books_balance_call (e : engine) (c : engine_call) (e' : engine) :
  books_balance e -> call e c = Some e' -> books_balance e'.
Proof.
  intros Hb H. pose proof Hb as (Hch & Hpnl & Hcap).
  destruct c as [sg ts|price ts|x ts reason|ts price|]; simpl in H.
  - apply bind_inv in H. destruct H as ((r & e1) & Hopen & H).
    inversion H; subst; clear H. simpl.
    destruct r as [p|].
    + pose proof (open_position_inv _ _ _ _ _ Hopen)
        as (Hflat & _ & _ & _ & _ & _ & _ & Hec & _ & _ & _ & _ & He1).
      rewrite Hflat in Hcap.
      rewrite He1. unfold books_balance, realised in *. simpl.
      split; [exact Hch|]. split; [exact Hpnl|].
      split; [congruence|]. now rewrite Hec.
    + assert (e' = e).
      { unfold open_position in Hopen.
        destruct (cur_position e); [now inversion Hopen|].
        match type of Hopen with
        | (if ?b then _ else _) = _ => destruct b; [now inversion Hopen|]
        end.
        apply bind_inv in Hopen. destruct Hopen as (? & _ & Hopen).
        apply bind_inv in Hopen. destruct Hopen as (? & _ & Hopen).
        discriminate. }
      now subst.
  - apply bind_inv in H. destruct H as ((r & e1) & Hup & H).
    inversion H; subst; clear H. simpl.
    destruct (cur_position e) as [p|] eqn:Hp.
    + assert (Hb' : books_balance (set_position (Some (trailed p price)) e)).
      { unfold books_balance, realised in *. simpl.
        split; [exact Hch|]. split; [exact Hpnl|].
        rewrite (trailed_eq p price). simpl. exact Hcap. }
      rewrite (update_position_open e p price ts Hp) in Hup.
      destruct (stop_hit (trailed p price) price).
      * exact (books_balance_close _ _ _ _ _ _ Hb' Hup).
      * inversion Hup; subst. exact Hb'.
    + unfold update_position in Hup. rewrite Hp in Hup.
      inversion Hup; subst. exact Hb.
  - apply bind_inv in H. destruct H as ((r & e1) & Hcl & H).
    inversion H; subst; clear H. simpl.
    exact (books_balance_close _ _ _ _ _ _ Hb Hcl).
  - destruct (record_equity_inv _ _ _ _ H) as (q & _ & He1).
    rewrite He1. exact Hb.
  - rewrite should_take_trade_eq in H. simpl in H.
    inversion H; subst. exact Hb.
Qed.

Lemma books_balance_calls (cs : list engine_call) (e e' : engine) :
  books_balance e -> calls e cs = Some e' -> books_balance e'.
Proof.
  revert e. induction cs as [|c cs IH]; simpl; intros e Hb H.
  - inversion H; subst. exact Hb.
  - apply bind_inv in H. destruct H as (e1 & Hc & H).
    apply (IH e1); [|exact H]. exact (books_balance_call _ _ _ Hb Hc).
Qed.

(** The exit capital of a chained ledger is its starting capital plus the
    sum of the P&Ls. *)
Lemma chained_telescopes (c : Q) (ledger : list trade) :
  chained c ledger ->
  Forall (fun t => pnl t = exit_capital t - entry_capital (tr_position t))
         ledger ->
  last (map exit_capital ledger) c == c + Qsum (map pnl ledger).
Proof.
  revert c. induction ledger as [|t l IH]; simpl; intros c Hch Hall.
  - ring.
  - destruct Hch as (Hent & Hch).
    pose proof (Forall_inv Hall) as Ht. simpl in Ht.
    pose proof (Forall_inv_tail Hall) as Hl.
    specialize (IH _ Hch Hl).
    assert (Hlast : last (exit_capital t :: map exit_capital l) c
                    = last (map exit_capital l) (exit_capital t)).
    { destruct (map exit_capital l) eqn:E; [reflexivity|].
      change (last (exit_capital t :: q :: l0) c) with (last (q :: l0) c).
      apply last_cons_default. }
    change (match map exit_capital l with
            | [] => exit_capital t
            | _ :: _ => last (map exit_capital l) c
            end) with (last (exit_capital t :: map exit_capital l) c).
    rewrite Hlast, IH, Ht, Hent. unfold Qsum. simpl. ring.
Qed.

(** From a new engine, whatever is called: the ledger is chained (every
    trade enters with the capital the trade before it left, the first with
    the initial capital); a flat engine holds exactly the exit capital of
    its last trade, which is the initial capital plus the sum of all
    P&Ls; an engine with a position holds that realised capital less the
    entry commission of the position. *)
Theorem engine_books_balance
    (ic sl cm : option Q) (cs : list engine_call) (e : engine) :
  calls (init_engine ic sl cm) cs = Some e ->
  chained (initial_capital e) (trades e) /\
  realised e == initial_capital e + Qsum (map pnl (trades e)) /\
  match cur_position e with
  | None => capital e = realised e
  | Some p =>
    entry_capital p = realised e /\
    capital e = realised e - entry_commission p
  end.
Proof.
  intro H.
  assert (Hinit : books_balance (init_engine ic sl cm)).
  { unfold books_balance, init_engine, realised. simpl.
    split; [exact I|]. split; [constructor|reflexivity]. }
  destruct (books_balance_calls _ _ _ Hinit H) as (Hch & Hpnl & Hcap).
  split; [exact Hch|]. split.
  - exact (chained_telescopes _ _ Hch Hpnl).
  - destruct (cur_position e) as [p|]; [|exact Hcap].
    destruct Hcap as (Hent & Hc). split; [exact Hent|]. now rewrite <- Hent.
Qed.

Lemma engine_books_balance_witness :
  exists e,
    calls (init_engine None None None)
          [CallOpen (mkSignal Long 3000 2950 0%Z 46%Z) 0%Z;
           CallUpdate 3050 1%Z; CallClose 3050 2%Z "manual";
           CallOpen (mkSignal Short 3050 3100 3%Z 49%Z) 3%Z;
           CallUpdate 3110 4%Z]
    = Some e /\
    cur_position e = None /\
    length (trades e) = 2%nat /\
    capital e == 100 + Qsum (map pnl (trades e)).
Proof.
  eexists. split; [vm_compute; reflexivity|].
  match goal with
  | |- cur_position ?x = None /\ _ => set (e := x)
  end.
  assert (Hrun : calls (init_engine None None None)
          [CallOpen (mkSignal Long 3000 2950 0%Z 46%Z) 0%Z;
           CallUpdate 3050 1%Z; CallClose 3050 2%Z "manual";
           CallOpen (mkSignal Short 3050 3100 3%Z 49%Z) 3%Z;
           CallUpdate 3110 4%Z]
          = Some e) by (vm_compute; reflexivity).
  destruct (engine_books_balance None None None _ _ Hrun) as (_ & Hsum & Hcap).
  assert (Hflat : cur_position e = None) by reflexivity.
  rewrite Hflat in Hcap.
  split; [exact Hflat|]. split; [reflexivity|].
  rewrite Hcap, Hsum. reflexivity.
Defined.

(** ** The average of the equity curve *)

Lemma ewm_alpha_range (span : nat) :
  (1 <= span)%nat -> 0 < ewm_alpha span /\ ewm_alpha span <= 1.
Proof.
  intro H. unfold ewm_alpha.
  assert (Hs : 1 <= inject_Z (Z.of_nat span)).
  { change 1 with (inject_Z 1). rewrite <- Zle_Qle. lia. }
  split.
  - apply Qlt_shift_div_l; lra.
  - apply Qle_shift_div_r; lra.
Qed.

Lemma ewm_from_within (alpha lo hi prev : Q) (xs : list Q) :
  0 <= alpha -> alpha <= 1 ->
  lo <= prev <= hi ->
  (forall x, In x xs -> lo <= x <= hi) ->
  forall y, In y (ewm_from alpha prev xs) -> lo <= y <= hi.
Proof.
  intros Ha0 Ha1. revert prev.
  induction xs as [|x xs IH]; simpl; intros prev Hprev Hxs y Hy; [contradiction|].
  assert (Hx : lo <= x <= hi) by (apply Hxs; now left).
  assert (Hnew : lo <= (1 - alpha) * prev + alpha * x <= hi) by (split; nra).
  destruct Hy as [<-|Hy]; [exact Hnew|].
  apply (IH _ Hnew); [|exact Hy].
  intros z Hz. apply Hxs. now right.
Qed.

Lemma iloc_last_in {A : Type} (l : list A) (a : A) :
  iloc_last l = Some a -> In a l.
Proof. unfold iloc_last. apply nth_error_In. Qed.

Lemma ewm_mean_within (span : nat) (xs : list Q) (lo hi y : Q) :
  (1 <= span)%nat ->
  (forall x, In x xs -> lo <= x <= hi) ->
  In y (ewm_mean span xs) -> lo <= y <= hi.
Proof.
  intros Hspan Hxs Hy.
  destruct xs as [|x xs]; [contradiction|]. simpl in Hy.
  destruct (ewm_alpha_range span Hspan) as (Ha0 & Ha1).
  assert (Hx : lo <= x <= hi) by (apply Hxs; now left).
  destruct Hy as [<-|Hy]; [exact Hx|].
  apply (ewm_from_within (ewm_alpha span) lo hi x xs); try assumption; try lra.
  intros z Hz. apply Hxs. now right.
Qed.

Lemma calculate_ema_200_grown (e : engine) :
  (200 <= length (equity_history e))%nat ->
  calculate_ema_200 e = Some (ema_to_date 200 (map snd (equity_history e))).
Proof.
  intro H. unfold calculate_ema_200.
  replace (length (equity_history e) <? 200)%nat with false
    by (symmetry; now apply Nat.ltb_ge).
  apply ewm_mean_last.
  intro K. apply (f_equal (@length Q)) in K. rewrite length_map in K.
  simpl in K. lia.
Qed.

Lemma history_values (e : engine) (lo hi : Q) :
  (forall ts q, In (ts, q) (equity_history e) -> lo <= q <= hi) ->
  forall q, In q (map snd (equity_history e)) -> lo <= q <= hi.
Proof.
  intros Hall q Hq. apply in_map_iff in Hq.
  destruct Hq as ((ts & q') & <- & Hin). exact (Hall ts q' Hin).
Qed.

(** The average of the equity curve is a weighted mean: it lies between
    the smallest and the largest recorded equity. *)
Theorem ema_within_history_range (e : engine) (ema lo hi : Q) :
  calculate_ema_200 e = Some ema ->
  (forall ts q, In (ts, q) (equity_history e) -> lo <= q <= hi) ->
  lo <= ema <= hi.
Proof.
  unfold calculate_ema_200.
  destruct (length (equity_history e) <? 200)%nat; [discriminate|].
  intros H Hall. apply iloc_last_in in H.
  apply (ewm_mean_within config.EMA_PERIOD (map snd (equity_history e)));
    [unfold config.EMA_PERIOD; lia| |exact H].
  now apply history_values.
Qed.

Lemma ema_within_history_range_witness :
  let history := map (fun i => (Z.of_nat i, 99 + Qnat i / 100)) (seq 0 200) in
  let e := set_equity_history history (init_engine None None None) in
  exists ema, calculate_ema_200 e = Some ema /\ 99 <= ema <= 101.
Proof.
  intros history e.
  assert (Hema : calculate_ema_200 e
                 = Some (ema_to_date 200 (map snd (equity_history e)))).
  { apply calculate_ema_200_grown. vm_compute. lia. }
  exists (ema_to_date 200 (map snd (equity_history e))).
  split; [exact Hema|].
  apply (ema_within_history_range e _ 99 101 Hema).
  intros ts q Hin. change (In (ts, q) history) in Hin. unfold history in Hin.
  apply in_map_iff in Hin. destruct Hin as (i & Heq & Hi).
  apply in_seq in Hi. inversion Heq; subst; clear Heq.
  assert (H0 : 0 <= Qnat i).
  { unfold Qnat. change 0 with (inject_Z 0). rewrite <- Zle_Qle. lia. }
  assert (H1 : Qnat i <= 200).
  { unfold Qnat. change 200 with (inject_Z 200). rewrite <- Zle_Qle. lia. }
  split.
  - assert (0 <= Qnat i / 100) by (apply Qle_shift_div_l; lra). lra.
  - assert (Qnat i / 100 <= 2) by (apply Qle_shift_div_r; lra). lra.
Defined.

(** When the equity history holds 200 points or more and none of them is
    under the current capital, [should_take_trade] refuses: the capital is
    not strictly above the average.  So an engine whose equity curve has
    stayed flat at its capital takes no trade. *)
Theorem flat_equity_blocks_gate (e : engine) :
  (200 <= length (equity_history e))%nat ->
  (forall ts q, In (ts, q) (equity_history e) -> capital e <= q) ->
  should_take_trade e = Some (false, set_ema_200 (calculate_ema_200 e) e).
Proof.
  intros Hlen Hall.
  pose proof (calculate_ema_200_grown e Hlen) as Hsome.
  rewrite should_take_trade_eq, Hsome. f_equal. f_equal.
  unfold Qgtb. apply Qltb_ge.
  set (hi := Qsum (map Qabs (map snd (equity_history e))) + Qabs (capital e)).
  assert (Hbound : capital e <= ema_to_date 200 (map snd (equity_history e))
                   <= hi).
  { unfold calculate_ema_200 in Hsome.
    replace (length (equity_history e) <? 200)%nat with false in Hsome
      by (symmetry; now apply Nat.ltb_ge).
    apply iloc_last_in in Hsome.
    apply (ewm_mean_within config.EMA_PERIOD (map snd (equity_history e)));
      [unfold config.EMA_PERIOD; lia| |exact Hsome].
    apply history_values.
    intros ts q Hin. split; [exact (Hall ts q Hin)|].
    unfold hi. clear - Hin.
    assert (Hq : In q (map snd (equity_history e))).
    { apply in_map_iff. now exists (ts, q). }
    assert (Hsum : forall l, In q l -> q <= Qsum (map Qabs l)).
    { induction l as [|x l IH]; simpl; [contradiction|].
      assert (Hnn : 0 <= Qsum (map Qabs l)).
      { clear. induction l as [|y l IH]; simpl; [lra|].
        pose proof (Qabs_nonneg y). unfold Qsum in *. simpl. lra. }
      pose proof (Qabs_nonneg x). unfold Qsum in *. simpl.
      intros [->|Hl].
      - pose proof (Qle_Qabs q). lra.
      - specialize (IH Hl). lra. }
    pose proof (Hsum _ Hq). pose proof (Qabs_nonneg (capital e)). lra. }
  apply Hbound.
Qed.

Lemma flat_equity_blocks_gate_witness :
  let history := map (fun i => (Z.of_nat i, 100)) (seq 0 200) in
  let e := set_equity_history history (init_engine None None None) in
  should_take_trade e = Some (false, set_ema_200 (calculate_ema_200 e) e).
Proof.
  intros history e.
  apply flat_equity_blocks_gate.
  - vm_compute. lia.
  - intros ts q Hin. change (In (ts, q) history) in Hin. unfold history in Hin.
    apply in_map_iff in Hin. destruct Hin as (i & Heq & _).
    inversion Heq; subst. vm_compute. discriminate.
Defined.

(** * More of the strategy *)

(** ** The shape of the frame *)

Lemma column_length (f : candle -> Q) (df : list candle) :
  length (column f df) = length df.
Proof. apply length_map. Qed.

Ltac column_lengths :=
  unfold rolling_mean, expanding_apply, s_scale, s_div, s_sub, s_maximum, s_abs;
  repeat first [ rewrite shift_length | rewrite at_each_row_length
               | rewrite zip_with_length | rewrite length_map
               | rewrite column_length ];
  lia.

(** [calculate_indicators] keeps the candles as they are and gives every
    column one cell per candle. *)
Theorem frame_shape (s : strategy) (df : list candle) :
  let fr := calculate_indicators s df in
  rows fr = df /\
  length (pc fr) = length df /\
  length (volume_ma fr) = length df /\
  length (volume_percentile fr) = length df /\
  length (sma20 fr) = length df /\
  length (sma50 fr) = length df /\
  length (tr fr) = length df /\
  length (atr fr) = length df /\
  length (expanding_avg_atr fr) = length df /\
  length (roc fr) = length df.
Proof.
  unfold calculate_indicators; simpl.
  repeat split; column_lengths.
Qed.

(** ** Warm-up of the columns *)

Lemma nan_until_at_each_row_total (f : series -> option Q) (s : series) :
  (forall upto, upto <> [] -> isna (f upto) = false) ->
  nan_until 0 (at_each_row f s).
Proof.
  intros Hf j c H. rewrite nth_error_at_each_row in H.
  destruct (j <? length s)%nat eqn:Hj; [|discriminate].
  apply Nat.ltb_lt in Hj.
  assert (Hc : c = f (firstn (S j) s)) by congruence. subst c.
  rewrite Hf; [reflexivity|].
  destruct s; [simpl in Hj; lia|discriminate].
Qed.

Lemma head_rows_nan (k : nat) (s : series) (j : nat) (c : option Q) :
  (j < k)%nat -> nth_error (shift k s) j = Some c -> c = None.
Proof.
  intros Hj H. rewrite nth_error_shift in H.
  destruct (j <? length s)%nat; [|discriminate].
  replace (j <? k)%nat with true in H by (symmetry; now apply Nat.ltb_lt).
  congruence.
Qed.

(** The rows on which each column is NaN: the volume average on rows 0
    to 19, the short trend average on the rows under the trend period, the
    long one on rows 0 to 49, the true range on row 0, the ATR on rows 0 to
    14, and they are numbers on every later row; the volume percentile is
    never NaN; the percent change is NaN on rows 0 to 3 and the momentum on
    rows 0 to 9. *)
Theorem indicator_warm_up (s : strategy) (df : list candle) :
  (0 < trend_period s)%nat ->
  let fr := calculate_indicators s df in
  nan_until 20 (volume_ma fr) /\
  nan_until (trend_period s) (sma20 fr) /\
  nan_until 50 (sma50 fr) /\
  nan_until 1 (tr fr) /\
  nan_until 15 (atr fr) /\
  nan_until 0 (volume_percentile fr) /\
  (forall j c, (j < 4)%nat -> nth_error (pc fr) j = Some c -> c = None) /\
  (forall j c, (j < 10)%nat -> nth_error (roc fr) j = Some c -> c = None).
Proof.
  intros Htp fr.
  assert (Htr : nan_until 1 (tr fr)).
  { unfold fr, calculate_indicators. simpl. unfold s_maximum, s_abs, s_sub.
    change 1%nat with (Nat.max (Nat.max 0 0) (Nat.max (Nat.max 0 (0 + 1))
                                                      (Nat.max 0 (0 + 1)))).
    repeat first [ apply nan_until_lift2 | apply nan_until_lift1
                 | apply nan_until_shift | apply nan_until_column ]. }
  split; [|split; [|split; [|split; [exact Htr|split; [|split; [|split]]]]]].
  - unfold fr, calculate_indicators. simpl.
    change 20%nat with (0 + 20 - 1 + 1)%nat.
    apply nan_until_shift, nan_until_rolling; [lia|apply nan_until_column].
  - unfold fr, calculate_indicators. simpl.
    replace (trend_period s) with (0 + trend_period s - 1 + 1)%nat at 1 by lia.
    apply nan_until_shift, nan_until_rolling; [lia|apply nan_until_column].
  - unfold fr, calculate_indicators. simpl.
    change 50%nat with (0 + 50 - 1 + 1)%nat.
    apply nan_until_shift, nan_until_rolling; [lia|apply nan_until_column].
  - apply atr_nan_until.
  - change (volume_percentile fr)
      with (expanding_apply calc_volume_percentile (column c_volume df)).
    unfold expanding_apply.
    intros j c H. rewrite nth_error_at_each_row in H.
    destruct (j <? length (column c_volume df))%nat eqn:Hj; [|discriminate].
    apply Nat.ltb_lt in Hj. rewrite column_length in Hj.
    assert (Hc : c = (if (1 <=? length (defined (firstn (S j) (column c_volume df))))%nat
                      then calc_volume_percentile (firstn (S j) (column c_volume df))
                      else None)) by congruence.
    subst c.
    rewrite (nan_until_count 0 _ (S j) (nan_until_column c_volume df))
      by (rewrite column_length; lia).
    simpl. unfold calc_volume_percentile.
    now destruct (_ <? 2)%nat.
  - intros j c Hj H. unfold fr, calculate_indicators in H. simpl in H.
    unfold s_scale in H. rewrite nth_error_map in H.
    unfold s_div in H. rewrite nth_error_zip_with in H.
    destruct (nth_error (s_sub _ _) j) as [x|] eqn:Ex; [|discriminate].
    destruct (nth_error (shift 4 (column c_open df)) j) as [y|] eqn:Ey;
      [|discriminate].
    apply (head_rows_nan 4 _ j y Hj) in Ey. subst y.
    simpl in H. destruct x; simpl in H; congruence.
  - intros j c Hj H. unfold fr, calculate_indicators in H. simpl in H.
    unfold s_scale in H. rewrite nth_error_map in H.
    unfold s_div in H. rewrite nth_error_zip_with in H.
    destruct (nth_error (s_sub _ _) j) as [x|] eqn:Ex; [|discriminate].
    destruct (nth_error (shift 10 (column c_close df)) j) as [y|] eqn:Ey;
      [|discriminate].
    apply (head_rows_nan 10 _ j y Hj) in Ey. subst y.
    simpl in H. destruct x; simpl in H; congruence.
Qed.

Lemma indicator_warm_up_witness :
  let fr := calculate_indicators default_strategy (breakout_frame 16) in
  nan_until 20 (sma20 fr) /\ nan_until 50 (sma50 fr) /\
  isna (nth 50 (sma50 fr) None) = false /\
  isna (nth 49 (sma50 fr) None) = true.
Proof.
  intro fr.
  destruct (indicator_warm_up default_strategy (breakout_frame 16))
    as (_ & H20 & H50 & _).
  { simpl. lia. }
  split; [exact H20|]. split; [exact H50|].
  split; vm_compute; reflexivity.
Defined.

(** ** The volume percentile *)

Lemma firstn_column_snoc (f : candle -> Q) (df : list candle) (i : nat) (ci : candle) :
  nth_error df i = Some ci ->
  firstn (S i) (column f df) = column f (firstn i df) ++ [Some (f ci)].
Proof.
  intro H. rewrite firstn_column, (firstn_snoc _ _ _ H).
  unfold column. now rewrite map_app.
Qed.

Lemma filter_length_le {A : Type} (f : A -> bool) (l : list A) :
  (length (filter f l) <= length l)%nat.
Proof.
  induction l as [|a l IH]; simpl; [lia|]. destruct (f a); simpl; lia.
Qed.

Lemma hits_of_column (f : candle -> Q) (x : Q) (l : list candle) :
  length (filter (fun v => cell_gtb (Some x) v) (column f l))
  = length (filter (fun c => Qltb (f c) x) l).
Proof.
  unfold column. induction l as [|c l IH]; [reflexivity|].
  cbn [filter map].
  change (cell_gtb (Some x) (Some (f c))) with (Qltb (f c) x).
  destruct (Qltb (f c) x); cbn [length]; now rewrite IH.
Qed.

Lemma Qnat_nonneg (n : nat) : 0 <= Qnat n.
Proof. unfold Qnat. change 0 with (inject_Z 0). rewrite <- Zle_Qle. lia. Qed.

Lemma Qnat_le (n m : nat) : (n <= m)%nat -> Qnat n <= Qnat m.
Proof. intro H. unfold Qnat. rewrite <- Zle_Qle. lia. Qed.

Lemma Qnat_pos (n : nat) : (0 < n)%nat -> 0 < Qnat n.
Proof. intro H. unfold Qnat. change 0 with (inject_Z 0). rewrite <- Zlt_Qlt. lia. Qed.

(** The volume percentile is 50 on row 0; on any later row [i] it is the
    share, in percent, of the [i] earlier candles whose volume is strictly
    under the volume of candle [i]; it is never NaN and lies between 0 and
    100. *)
Theorem volume_percentile_spec
    (s : strategy) (df : list candle) (i : nat) (ci : candle) :
  nth_error df i = Some ci ->
  let smaller :=
    filter (fun c => Qltb (c_volume c) (c_volume ci)) (firstn i df) in
  exists v,
    nth_error (volume_percentile (calculate_indicators s df)) i = Some (Some v) /\
    v = match i with
        | O => 50
        | S _ => Qnat (length smaller) / Qnat i * 100
        end /\
    0 <= v <= 100.
Proof.
  intros Hi smaller.
  assert (Hlt : (i < length df)%nat) by (apply nth_error_Some; congruence).
  change (volume_percentile (calculate_indicators s df))
    with (expanding_apply calc_volume_percentile (column c_volume df)).
  unfold expanding_apply. rewrite nth_error_at_each_row, column_length.
  replace (i <? length df)%nat with true by (symmetry; now apply Nat.ltb_lt).
  rewrite (nan_until_count 0 _ (S i) (nan_until_column c_volume df))
    by (rewrite column_length; lia).
  replace (1 <=? S i - 0)%nat with true by (symmetry; apply Nat.leb_le; lia).
  rewrite (firstn_column_snoc _ _ _ _ Hi).
  unfold calc_volume_percentile.
  rewrite length_app, column_length, length_firstn, last_last, removelast_last.
  replace (Nat.min i (length df)) with i by lia.
  rewrite hits_of_column, column_length, length_firstn.
  replace (Nat.min i (length df)) with i by lia.
  fold smaller.
  destruct i as [|i].
  - exists 50. simpl. repeat split; lra.
  - replace (S i + length [Some (c_volume ci)] <? 2)%nat with false
      by (symmetry; apply Nat.ltb_ge; simpl; lia).
    eexists. split; [reflexivity|]. split; [reflexivity|].
    assert (Hle : (length smaller <= S i)%nat).
    { unfold smaller.
      eapply Nat.le_trans; [apply filter_length_le|].
      rewrite length_firstn. lia. }
    pose proof (Qnat_nonneg (length smaller)) as H0.
    pose proof (Qnat_le _ _ Hle) as H1.
    pose proof (Qnat_pos (S i) ltac:(lia)) as Hpos.
    assert (Hr0 : 0 <= Qnat (length smaller) / Qnat (S i))
      by (apply Qle_shift_div_l; lra).
    assert (Hr1 : Qnat (length smaller) / Qnat (S i) <= 1)
      by (apply Qle_shift_div_r; lra).
    split; lra.
Qed.

Lemma volume_percentile_spec_witness :
  exists v,
    nth_error (volume_percentile
                 (calculate_indicators default_strategy (breakout_frame 16))) 50
    = Some (Some v) /\ 0 <= v <= 100.
Proof.
  destruct (volume_percentile_spec default_strategy (breakout_frame 16) 50
                                   breakout_candle eq_refl)
    as (v & Hv & _ & Hrange).
  exists v. split; [exact Hv|exact Hrange].
Defined.

(** ** The true range and its average *)

Lemma Qsum_nonneg (l : list Q) : (forall v, In v l -> 0 <= v) -> 0 <= Qsum l.
Proof.
  induction l as [|x l IH]; intro H; unfold Qsum in *; simpl; [lra|].
  assert (0 <= x) by (apply H; now left).
  assert (0 <= fold_right Qplus 0 l) by (apply IH; intros v Hv; apply H; now right).
  lra.
Qed.

Lemma all_defined_in (l : series) (vs : list Q) (v : Q) :
  all_defined l = Some vs -> In v vs -> In (Some v) l.
Proof.
  revert vs. induction l as [|c l IH]; simpl; intros vs H Hv.
  - inversion H; subst. contradiction.
  - destruct c as [x|]; [|discriminate].
    destruct (all_defined l) as [ws|]; [|discriminate].
    inversion H; subst. destruct Hv as [->|Hv]; [now left|].
    right. now apply (IH ws).
Qed.

(** A cell of the true range column. *)
Lemma tr_cell (s : strategy) (df : list candle) (i : nat) (ci : candle) :
  nth_error df i = Some ci ->
  nth_error (tr (calculate_indicators s df)) i =
  Some (match i with
        | O => None
        | S j =>
          match nth_error df j with
          | Some cj =>
            Some (Qmax (c_high ci - c_low ci)
                       (Qmax (Qabs (c_high ci - c_close cj))
                             (Qabs (c_low ci - c_close cj))))
          | None => None
          end
        end).
Proof.
  intro Hi.
  assert (Hlt : (i < length df)%nat) by (apply nth_error_Some; congruence).
  unfold calculate_indicators. simpl.
  unfold s_maximum, s_abs, s_sub.
  rewrite !nth_error_zip_with, !nth_error_map, !nth_error_zip_with,
          !nth_error_shift, column_length.
  unfold column. rewrite !nth_error_map, Hi.
  replace (i <? length df)%nat with true by (symmetry; now apply Nat.ltb_lt).
  destruct i as [|j]; simpl; [reflexivity|].
  rewrite Nat.sub_0_r.
  destruct (nth_error df j) as [cj|] eqn:Hj; [reflexivity|].
  apply nth_error_None in Hj. lia.
Qed.

Lemma in_skipn_list {A : Type} (n : nat) (l : list A) (a : A) :
  In a (skipn n l) -> In a l.
Proof.
  intro H. rewrite <- (firstn_skipn n l). apply in_or_app. now right.
Qed.

Lemma in_firstn_list {A : Type} (n : nat) (l : list A) (a : A) :
  In a (firstn n l) -> In a l.
Proof.
  intro H. rewrite <- (firstn_skipn n l). apply in_or_app. now left.
Qed.

Lemma tr_length (s : strategy) (df : list candle) :
  length (tr (calculate_indicators s df)) = length df.
Proof. unfold calculate_indicators; simpl. column_lengths. Qed.

Lemma true_range_nonneg (a b c : Q) : 0 <= Qmax a (Qmax (Qabs b) (Qabs c)).
Proof.
  pose proof (Q.le_max_r a (Qmax (Qabs b) (Qabs c))).
  pose proof (Q.le_max_l (Qabs b) (Qabs c)).
  pose proof (Qabs_nonneg b). lra.
Qed.

(** From row 1 on the true range of a candle is the largest of its
    high-low span and of the distances of its high and of its low to the
    previous close; it is never negative and never under the high-low
    span.  The ATR, where it is a number, is never negative. *)
Theorem true_range_spec
    (s : strategy) (df : list candle) (i : nat) (cj ci : candle) :
  nth_error df i = Some cj ->
  nth_error df (S i) = Some ci ->
  let fr := calculate_indicators s df in
  exists v,
    nth_error (tr fr) (S i) = Some (Some v) /\
    v = Qmax (c_high ci - c_low ci)
             (Qmax (Qabs (c_high ci - c_close cj))
                   (Qabs (c_low ci - c_close cj))) /\
    0 <= v /\
    c_high ci - c_low ci <= v /\
    Qabs (c_high ci - c_close cj) <= v /\
    Qabs (c_low ci - c_close cj) <= v /\
    forall k a, nth_error (atr fr) k = Some (Some a) -> 0 <= a.
Proof.
  intros Hj Hi fr.
  eexists. split.
  { unfold fr. rewrite (tr_cell s df (S i) ci Hi), Hj. reflexivity. }
  split; [reflexivity|].
  set (a := c_high ci - c_low ci).
  set (b := Qabs (c_high ci - c_close cj)).
  set (c := Qabs (c_low ci - c_close cj)).
  pose proof (Q.le_max_l a (Qmax b c)) as H1.
  pose proof (Q.le_max_r a (Qmax b c)) as H2.
  pose proof (Q.le_max_l b c) as H3.
  pose proof (Q.le_max_r b c) as H4.
  pose proof (Qabs_nonneg (c_high ci - c_close cj)) as H5. fold b in H5.
  repeat split; try lra.
  (* the ATR *)
  assert (Hcell : forall v, In (Some v) (tr fr) -> 0 <= v).
  { intros v Hv. apply In_nth_error in Hv. destruct Hv as (n & Hn).
    assert (Hlen : (n < length df)%nat).
    { rewrite <- (tr_length s df). apply nth_error_Some.
      unfold fr in Hn. congruence. }
    destruct (nth_error df n) as [cn|] eqn:Hcn.
    2:{ apply nth_error_None in Hcn. lia. }
    unfold fr in Hn. rewrite (tr_cell s df n cn Hcn) in Hn.
    destruct n as [|m]; [discriminate|].
    destruct (nth_error df m) as [cm|]; [|discriminate].
    assert (Hv : v = Qmax (c_high cn - c_low cn)
                          (Qmax (Qabs (c_high cn - c_close cm))
                                (Qabs (c_low cn - c_close cm))))
      by congruence.
    rewrite Hv. apply true_range_nonneg. }
  intros k x Hk.
  change (atr fr) with (shift 1 (rolling_mean 14 (tr fr))) in Hk.
  rewrite nth_error_shift in Hk.
  destruct (k <? length (rolling_mean 14 (tr fr)))%nat; [|discriminate].
  destruct (k <? 1)%nat; [discriminate|].
  unfold rolling_mean in Hk. rewrite nth_error_at_each_row in Hk.
  destruct (k - 1 <? length (tr fr))%nat; [|discriminate].
  unfold window_mean in Hk.
  destruct ((14 =? 0)%nat || _); [discriminate|].
  destruct (all_defined _) as [vs|] eqn:Hvs; [|discriminate].
  inversion Hk; subst x.
  apply Qle_shift_div_l; [reflexivity|].
  rewrite Qmult_0_l. apply Qsum_nonneg.
  intros v Hv. apply Hcell.
  pose proof (all_defined_in _ _ _ Hvs Hv) as Hin.
  unfold lastn in Hin.
  apply in_skipn_list, in_firstn_list in Hin. exact Hin.
Qed.

Lemma true_range_spec_witness :
  exists v,
    nth_error (tr (calculate_indicators default_strategy (breakout_frame 16))) 35
    = Some (Some v) /\ 0 <= v /\
    c_high (rising_candle 35) - c_low (rising_candle 35) <= v.
Proof.
  destruct (true_range_spec default_strategy (breakout_frame 16) 34
                            (bearish_candle 34) (rising_candle 35)
                            eq_refl eq_refl)
    as (v & Hv & _ & H0 & Hspan & _).
  exists v. split; [exact Hv|]. split; [exact H0|exact Hspan].
Defined.

(** ** Columns that do not read their own row *)

(** A cell of a column shifted by one row after a window function. *)
Lemma nth_error_lagged (f : series -> option Q) (y : series) (i : nat) :
  (i < length y)%nat ->
  nth_error (shift 1 (at_each_row f y)) i =
  Some (match i with
        | O => None
        | S _ => f (firstn i y)
        end).
Proof.
  intro Hi. rewrite nth_error_shift, at_each_row_length.
  replace (i <? length y)%nat with true by (symmetry; now apply Nat.ltb_lt).
  destruct i as [|j]; [reflexivity|].
  simpl (S j <? 1)%nat. cbn [Nat.ltb Nat.leb].
  rewrite nth_error_at_each_row.
  replace (S j - 1)%nat with j by lia.
  now replace (j <? length y)%nat with true by (symmetry; apply Nat.ltb_lt; lia).
Qed.

(** Two columns that agree on their first [n] rows give, after a window
    function and a shift by one, columns that agree on their first
    [n + 1] rows. *)
Lemma lagged_prefix (f : series -> option Q) (y y' : series) (n : nat) :
  firstn n y = firstn n y' ->
  (n < length y)%nat -> (n < length y')%nat ->
  firstn (S n) (shift 1 (at_each_row f y))
  = firstn (S n) (shift 1 (at_each_row f y')).
Proof.
  intros Hpre Hy Hy'. apply nth_error_ext. intro j.
  rewrite !nth_error_firstn.
  destruct (j <? S n)%nat eqn:Hj; [|reflexivity].
  apply Nat.ltb_lt in Hj.
  rewrite !nth_error_lagged by lia.
  destruct j as [|j]; [reflexivity|].
  f_equal. f_equal.
  replace (firstn (S j) y) with (firstn (S j) (firstn n y))
    by (rewrite firstn_firstn; f_equal; lia).
  replace (firstn (S j) y') with (firstn (S j) (firstn n y'))
    by (rewrite firstn_firstn; f_equal; lia).
  now rewrite Hpre.
Qed.

Lemma nth_error_of_prefix {A : Type} (l l' : list A) (n i : nat) :
  firstn n l = firstn n l' -> (i < n)%nat -> nth_error l i = nth_error l' i.
Proof.
  intros H Hi.
  assert (Hl : nth_error (firstn n l) i = nth_error (firstn n l') i)
    by now rewrite H.
  rewrite !nth_error_firstn in Hl.
  now replace (i <? n)%nat with true in Hl by (symmetry; now apply Nat.ltb_lt).
Qed.

(** The volume average, both trend averages, the ATR and the expanding
    ATR baseline at row [i] are computed from the candles before row [i]
    alone: two frames with the same first [i] candles have the same cells
    on row [i], whatever candle [i] and the later ones are. *)
Theorem lagged_columns_ignore_current_row
    (s : strategy) (df df' : list candle) (i : nat) :
  firstn i df = firstn i df' ->
  (i < length df)%nat -> (i < length df')%nat ->
  let fr := calculate_indicators s df in
  let fr' := calculate_indicators s df' in
  nth_error (volume_ma fr) i = nth_error (volume_ma fr') i /\
  nth_error (sma20 fr) i = nth_error (sma20 fr') i /\
  nth_error (sma50 fr) i = nth_error (sma50 fr') i /\
  nth_error (atr fr) i = nth_error (atr fr') i /\
  nth_error (expanding_avg_atr fr) i = nth_error (expanding_avg_atr fr') i.
Proof.
  intros Hpre Hi Hi' fr fr'.
  assert (Hcol : forall f, firstn i (column f df) = firstn i (column f df')).
  { intro f. now rewrite !firstn_column, Hpre. }
  assert (Htr : firstn i (tr fr) = firstn i (tr fr')).
  { pose proof (calculate_indicators_head s i df) as H.
    pose proof (calculate_indicators_head s i df') as H'.
    apply (f_equal tr) in H. apply (f_equal tr) in H'.
    simpl in H, H'. unfold fr, fr'. simpl. now rewrite H, H', Hpre. }
  assert (Hatr : firstn (S i) (atr fr) = firstn (S i) (atr fr')).
  { apply (lagged_prefix (window_mean 14) (tr fr) (tr fr') i Htr).
    - unfold fr. rewrite tr_length. exact Hi.
    - unfold fr'. rewrite tr_length. exact Hi'. }
  assert (Hlag : forall w f,
            nth_error (shift 1 (rolling_mean w (column f df))) i
            = nth_error (shift 1 (rolling_mean w (column f df'))) i).
  { intros w f.
    apply (nth_error_of_prefix _ _ (S i)); [|lia].
    apply lagged_prefix; [apply Hcol| |]; now rewrite column_length. }
  split; [apply Hlag|]. split; [apply Hlag|]. split; [apply Hlag|].
  split; [apply (nth_error_of_prefix _ _ (S i)); [exact Hatr|lia]|].
  change (expanding_avg_atr fr) with (expanding_apply atr_before (atr fr)).
  change (expanding_avg_atr fr') with (expanding_apply atr_before (atr fr')).
  unfold expanding_apply. rewrite !nth_error_at_each_row.
  assert (Hla : length (atr fr) = length df).
  { unfold fr, calculate_indicators. simpl. column_lengths. }
  assert (Hla' : length (atr fr') = length df').
  { unfold fr', calculate_indicators. simpl. column_lengths. }
  rewrite Hla, Hla'.
  replace (i <? length df)%nat with true by (symmetry; now apply Nat.ltb_lt).
  replace (i <? length df')%nat with true by (symmetry; now apply Nat.ltb_lt).
  now rewrite Hatr.
Qed.

Lemma lagged_columns_ignore_current_row_witness :
  let df := breakout_frame 16 in
  let df' := firstn 50 (breakout_frame 16)
             ++ [mkCandle 50%Z 90000 95000 80000 85000 999999] in
  nth_error (sma50 (calculate_indicators default_strategy df)) 50
  = nth_error (sma50 (calculate_indicators default_strategy df')) 50 /\
  nth_error (atr (calculate_indicators default_strategy df)) 50
  = nth_error (atr (calculate_indicators default_strategy df')) 50.
Proof.
  intros df df'.
  destruct (lagged_columns_ignore_current_row default_strategy df df' 50)
    as (_ & _ & H50 & Hatr & _).
  - reflexivity.
  - vm_compute. lia.
  - vm_compute. lia.
  - split; [exact H50|exact Hatr].
Defined.

(** * More of the detector *)

(** ** Indices *)

Lemma iloc_in_range {A : Type} (l : list A) (i : Z) :
  (0 <= i < Z.of_nat (length l))%Z -> exists a, iloc l i = Some a.
Proof.
  intro H. unfold iloc.
  replace (0 <=? i)%Z with true by (symmetry; apply Z.leb_le; lia).
  destruct (nth_error l (Z.to_nat i)) as [a|] eqn:E; [eauto|].
  apply nth_error_None in E. lia.
Qed.

Lemma iloc_past_end {A : Type} (l : list A) (i : Z) :
  (Z.of_nat (length l) <= i)%Z -> iloc l i = None.
Proof.
  intro H. unfold iloc.
  replace (0 <=? i)%Z with true by (symmetry; apply Z.leb_le; lia).
  apply nth_error_None. lia.
Qed.

Lemma is_valid_trade_condition_returns
    (s : strategy) (df : frame) (idx : Z) (side0 : side) (n : nat) :
  length (volume_percentile df) = n -> length (sma20 df) = n ->
  length (sma50 df) = n -> length (roc df) = n ->
  length (atr df) = n -> length (expanding_avg_atr df) = n ->
  (0 <= idx < Z.of_nat n)%Z ->
  exists b, is_valid_trade_condition s df idx side0 = Some b.
Proof.
  intros H1 H2 H3 H4 H5 H6 Hidx. unfold is_valid_trade_condition.
  destruct (_ <? _)%Z; [eexists; reflexivity|].
  destruct (iloc_in_range (volume_percentile df) idx) as (vp & ->); [lia|].
  simpl. destruct (isna vp || _); [eexists; reflexivity|].
  destruct (iloc_in_range (sma20 df) idx) as (a & ->); [lia|].
  destruct (iloc_in_range (sma50 df) idx) as (b & ->); [lia|].
  destruct (iloc_in_range (roc df) idx) as (c & ->); [lia|].
  simpl. destruct (isna a || isna b || isna c); [eexists; reflexivity|].
  destruct (negb _); [eexists; reflexivity|].
  destruct (iloc_in_range (atr df) idx) as (x & ->); [lia|].
  destruct (iloc_in_range (expanding_avg_atr df) idx) as (y & ->); [lia|].
  simpl. destruct (isna x || isna y); [eexists; reflexivity|].
  destruct (cell_gtb _ _); eexists; reflexivity.
Qed.

Lemma scan_long_returns (df : frame) (idx : Z) (js : list Z) :
  (0 <= idx < Z.of_nat (length (rows df)))%Z ->
  (forall j, In j js -> (0 <= j < Z.of_nat (length (rows df)))%Z) ->
  exists r, scan_long df idx js = Some r.
Proof.
  intros Hidx. induction js as [|j js IH]; intro Hjs; simpl; [eexists; reflexivity|].
  destruct (iloc_in_range (rows df) j) as (cj & ->); [apply Hjs; now left|].
  destruct (iloc_in_range (rows df) idx) as (ci & Hci); [exact Hidx|].
  simpl. rewrite Hci. simpl.
  assert (Hrest : exists r, scan_long df idx js = Some r)
    by (apply IH; intros k Hk; apply Hjs; now right).
  destruct (Qltb _ _); [|exact Hrest].
  destruct (Qgtb _ _); [eexists; reflexivity|exact Hrest].
Qed.

Lemma scan_short_returns (df : frame) (idx : Z) (js : list Z) :
  (0 <= idx < Z.of_nat (length (rows df)))%Z ->
  (forall j, In j js -> (0 <= j < Z.of_nat (length (rows df)))%Z) ->
  exists r, scan_short df idx js = Some r.
Proof.
  intros Hidx. induction js as [|j js IH]; intro Hjs; simpl; [eexists; reflexivity|].
  destruct (iloc_in_range (rows df) j) as (cj & ->); [apply Hjs; now left|].
  destruct (iloc_in_range (rows df) idx) as (ci & Hci); [exact Hidx|].
  simpl. rewrite Hci. simpl.
  assert (Hrest : exists r, scan_short df idx js = Some r)
    by (apply IH; intros k Hk; apply Hjs; now right).
  destruct (Qgtb _ _); [|exact Hrest].
  destruct (Qltb _ _); [eexists; reflexivity|exact Hrest].
Qed.

Lemma scan_range_in (idx j : Z) :
  (50 <= idx)%Z ->
  In j (range_down (idx - 4) (Z.max (idx - 16) (-1))) ->
  (idx - 15 <= j <= idx - 4)%Z.
Proof.
  intros Hidx Hin. rewrite (scan_range idx Hidx) in Hin.
  simpl in Hin. intuition lia.
Qed.

(** [detect_signal] answers "no signal" under the warm-up of 50 rows
    without looking at the frame, even for an index that is not a row; from
    row 50 on it returns (a signal or none) on every row of a frame made by
    [calculate_indicators], and raises [IndexError] on an index past the
    last row. *)
Theorem detect_signal_bounds
    (s s0 : strategy) (df : list candle) (idx : Z) :
  ((idx < 50)%Z ->
   forall any : frame, detect_signal s any idx = Some (None, s)) /\
  ((50 <= idx < Z.of_nat (length df))%Z ->
   exists r, detect_signal s (calculate_indicators s0 df) idx = Some r) /\
  ((50 <= idx)%Z -> (Z.of_nat (length df) <= idx)%Z ->
   detect_signal s (calculate_indicators s0 df) idx = None).
Proof.
  split; [|split].
  - intros H any. unfold detect_signal.
    now replace (idx <? 50)%Z with true by (symmetry; apply Z.ltb_lt; lia).
  - intros H. set (fr := calculate_indicators s0 df).
    assert (Hshape : rows fr = df /\ length (pc fr) = length df /\
              length (volume_percentile fr) = length df /\
              length (sma20 fr) = length df /\ length (sma50 fr) = length df /\
              length (atr fr) = length df /\
              length (expanding_avg_atr fr) = length df /\
              length (roc fr) = length df).
    { unfold fr, calculate_indicators; simpl. repeat split; column_lengths. }
    destruct Hshape as (Hrows & Hpc & Hvp & H20 & H50 & Hatr & Hexp & Hroc).
    unfold detect_signal.
    replace (idx <? 50)%Z with false by (symmetry; apply Z.ltb_ge; lia).
    destruct (iloc_in_range (pc fr) idx) as (pc_i & ->); [lia|].
    destruct (iloc_in_range (pc fr) (idx - 1)) as (prev & ->); [lia|].
    simpl.
    destruct (is_valid_trade_condition_returns s fr idx Long (length df))
      as (vl & ->); try assumption; [lia|].
    destruct (is_valid_trade_condition_returns s fr idx Short (length df))
      as (vs & ->); try assumption; [lia|].
    simpl.
    assert (Hjs : forall j,
              In j (range_down (idx - 4) (Z.max (idx - 16) (-1))) ->
              (0 <= j < Z.of_nat (length (rows fr)))%Z).
    { intros j Hj. apply scan_range_in in Hj; [|lia]. rewrite Hrows. lia. }
    assert (Hi : (0 <= idx < Z.of_nat (length (rows fr)))%Z)
      by (rewrite Hrows; lia).
    destruct (scan_long_returns fr idx _ Hi Hjs) as (rl & ->).
    destruct (scan_short_returns fr idx _ Hi Hjs) as (rs & ->).
    simpl.
    destruct (vl && _); [eexists; reflexivity|].
    destruct (vs && _); eexists; reflexivity.
  - intros H50 Hpast. unfold detect_signal.
    replace (idx <? 50)%Z with false by (symmetry; apply Z.ltb_ge; lia).
    rewrite iloc_past_end; [reflexivity|].
    assert (Hpc : length (pc (calculate_indicators s0 df)) = length df)
      by (unfold calculate_indicators; simpl; column_lengths).
    rewrite Hpc. exact Hpast.
Qed.

Lemma detect_signal_bounds_witness :
  let fr := calculate_indicators default_strategy (breakout_frame 15) in
  detect_signal default_strategy fr 7 = Some (None, default_strategy) /\
  (exists r, detect_signal default_strategy fr 50 = Some r) /\
  detect_signal default_strategy fr 51 = None.
Proof.
  intro fr.
  destruct (detect_signal_bounds default_strategy default_strategy
                                 (breakout_frame 15) 7) as (H1 & _ & _).
  destruct (detect_signal_bounds default_strategy default_strategy
                                 (breakout_frame 15) 50) as (_ & H2 & _).
  destruct (detect_signal_bounds default_strategy default_strategy
                                 (breakout_frame 15) 51) as (_ & _ & H3).
  split; [apply H1; lia|]. split.
  - apply H2. vm_compute. split; [discriminate|reflexivity].
  - apply H3; [lia|]. vm_compute. discriminate.
Defined.

(** ** Spacing of signals *)

(** Inside the spacing window [is_valid_trade_condition] answers False
    before it reads the frame. *)
Lemma is_valid_trade_condition_spaced
    (s : strategy) (df : frame) (idx : Z) (side0 : side) :
  (idx - last_trade_index s < min_trades_distance s)%Z ->
  is_valid_trade_condition s df idx side0 = Some false.
Proof.
  intro H. unfold is_valid_trade_condition.
  now replace (idx - last_trade_index s <? min_trades_distance s)%Z with true
    by (symmetry; apply Z.ltb_lt; lia).
Qed.

(** After a signal on row [idx], [detect_signal] gives no signal on any
    row less than [min_trades_distance] rows after it, whatever the frame,
    and leaves the strategy as it is; a strategy just made is not inside a
    spacing window on any row from 0 on. *)
Theorem signal_spacing
    (s : strategy) (df : frame) (idx : Z) (sg : signal) (s' : strategy) :
  detect_signal s df idx = Some (Some sg, s') ->
  (forall (df' : frame) (idx' : Z) r,
     (idx' - idx < min_trades_distance s)%Z ->
     detect_signal s' df' idx' = Some r ->
     r = (None, s')) /\
  (forall sens vol tp dist idx0,
     (0 <= idx0)%Z ->
     (idx0 - last_trade_index (init_strategy sens vol tp dist)
      <? min_trades_distance (init_strategy sens vol tp dist))%Z = false).
Proof.
  intro H.
  destruct (detect_signal_order_block_range _ _ _ _ _ H) as (_ & _ & Hs').
  split.
  - intros df' idx' r Hnear Hr.
    assert (Hgate : forall side0,
              is_valid_trade_condition s' df' idx' side0 = Some false).
    { intro side0. apply is_valid_trade_condition_spaced.
      rewrite Hs'. simpl. exact Hnear. }
    unfold detect_signal in Hr.
    destruct (idx' <? 50)%Z; [now inversion Hr|].
    apply bind_inv in Hr. destruct Hr as (pc_i & _ & Hr).
    apply bind_inv in Hr. destruct Hr as (prev & _ & Hr).
    rewrite (Hgate Long) in Hr. simpl in Hr.
    rewrite (Hgate Short) in Hr. simpl in Hr.
    now inversion Hr.
  - intros sens vol tp dist idx0 H0. simpl. apply Z.ltb_ge. lia.
Qed.

Lemma signal_spacing_witness :
  let fr := calculate_indicators default_strategy (breakout_frame 15) in
  let later := calculate_indicators default_strategy
                 (breakout_frame 15 ++ map rising_candle (seq 51 9)) in
  let s' := set_last_trade_index 50 default_strategy in
  detect_signal s' later 55 = Some (None, s').
Proof.
  intros fr later s'.
  assert (Hsig : detect_signal default_strategy fr 50
                 = Some (Some (mkSignal Long (c_close breakout_candle)
                                        (c_low (bearish_candle 35)) 50%Z 35%Z),
                         s')) by (vm_compute; reflexivity).
  destruct (signal_spacing _ _ _ _ _ Hsig) as (Hnear & _).
  assert (Hret : exists r, detect_signal s' later 55 = Some r)
    by (eexists; vm_compute; reflexivity).
  destruct Hret as (r & Hr).
  rewrite Hr. f_equal.
  apply (Hnear later 55%Z r); [simpl; lia|exact Hr].
Defined.

(** ** The emitted signal *)

Lemma scan_short_nearest (df : frame) (idx : Z) (js : list Z) (sg : signal) :
  scan_short df idx js = Some (Some sg) ->
  exists before after cj ci,
    js = before ++ sig_ob_index sg :: after /\
    iloc (rows df) (sig_ob_index sg) = Some cj /\
    iloc (rows df) idx = Some ci /\
    c_open cj < c_close cj /\
    c_close ci < c_high cj /\
    sg = mkSignal Short (c_close ci) (c_high cj) (c_timestamp ci) (sig_ob_index sg) /\
    forall j c, In j before -> iloc (rows df) j = Some c ->
      ~ (c_open c < c_close c /\ c_close ci < c_high c).
Proof.
  induction js as [|j js IH]; simpl; [discriminate|].
  intro H. apply bind_inv in H. destruct H as (cj & Hcj & H).
  assert (Hrest : forall ci,
            iloc (rows df) idx = Some ci ->
            ~ (c_open cj < c_close cj /\ c_close ci < c_high cj) ->
            scan_short df idx js = Some (Some sg) ->
            exists before after cj' ci',
              j :: js = before ++ sig_ob_index sg :: after /\
              iloc (rows df) (sig_ob_index sg) = Some cj' /\
              iloc (rows df) idx = Some ci' /\
              c_open cj' < c_close cj' /\
              c_close ci' < c_high cj' /\
              sg = mkSignal Short (c_close ci') (c_high cj') (c_timestamp ci')
                            (sig_ob_index sg) /\
              forall j' c, In j' before -> iloc (rows df) j' = Some c ->
                ~ (c_open c < c_close c /\ c_close ci' < c_high c)).
  { intros ci Hci Hno Hscan.
    destruct (IH Hscan)
      as (before & after & cj' & ci' & Hjs & Hob & Hi & Hb & Hl & Hsg & Hnear).
    exists (j :: before), after, cj', ci'.
    split; [simpl; now rewrite Hjs|].
    repeat (split; [assumption|]).
    intros j' c [<-|Hin] Hc.
    - assert (c = cj) by congruence. assert (ci' = ci) by congruence.
      subst. exact Hno.
    - now apply (Hnear j'). }
  destruct (Qgtb (c_close cj) (c_open cj)) eqn:Hbull.
  - apply bind_inv in H. destruct H as (ci & Hci & H).
    destruct (Qltb (c_close ci) (c_high cj)) eqn:Hhigh.
    + inversion H; subst sg; clear H. simpl.
      exists [], js, cj, ci. simpl.
      apply Qltb_lt in Hbull. apply Qltb_lt in Hhigh.
      repeat (split; [assumption || reflexivity|]).
      intros j' c [].
    + apply (Hrest ci Hci); [|exact H].
      apply Qltb_ge in Hhigh. intros (_ & K). lra.
  - apply Qltb_ge in Hbull.
    destruct (IH H)
      as (before & after & cj' & ci' & Hjs & Hob & Hi & Hb & Hl & Hsg & Hnear).
    apply (Hrest ci' Hi); [|exact H].
    intros (K & _). lra.
Qed.

(** The branch of [detect_signal] that produced a signal. *)
Lemma detect_signal_inv
    (s : strategy) (df : frame) (idx : Z) (sg : signal) (s' : strategy) :
  detect_signal s df idx = Some (Some sg, s') ->
  let js := range_down (idx - 4) (Z.max (idx - 16) (-1)) in
  exists pc_i prev_pc,
    iloc (pc df) idx = Some pc_i /\
    iloc (pc df) (idx - 1) = Some prev_pc /\
    ((is_valid_trade_condition s df idx Long = Some true /\
      cell_ltb prev_pc (Some (sensitivity s)) = true /\
      cell_geb pc_i (Some (sensitivity s)) = true /\
      scan_long df idx js = Some (Some sg)) \/
     (is_valid_trade_condition s df idx Short = Some true /\
      cell_gtb prev_pc (Some (- sensitivity s)) = true /\
      cell_leb pc_i (Some (- sensitivity s)) = true /\
      scan_short df idx js = Some (Some sg))).
Proof.
  unfold detect_signal.
  destruct (idx <? 50)%Z; [discriminate|].
  intro H.
  apply bind_inv in H. destruct H as (pc_i & Hpc & H).
  apply bind_inv in H. destruct H as (prev & Hprev & H).
  apply bind_inv in H. destruct H as (vl & Hvl & H).
  exists pc_i, prev. split; [exact Hpc|]. split; [exact Hprev|].
  destruct (vl && _) eqn:Elong.
  - apply bind_inv in H. destruct H as ([r|] & Hr & H); [|discriminate].
    inversion H; subst; clear H. left.
    apply andb_true_iff in Elong. destruct Elong as (-> & Ecross).
    apply andb_true_iff in Ecross. tauto.
  - apply bind_inv in H. destruct H as (vs & Hvs & H).
    destruct (vs && _) eqn:Eshort; [|discriminate].
    apply bind_inv in H. destruct H as ([r|] & Hr & H); [|discriminate].
    inversion H; subst; clear H. right.
    apply andb_true_iff in Eshort. destruct Eshort as (-> & Ecross).
    apply andb_true_iff in Ecross. tauto.
Qed.

Lemma cell_ltb_lt (x : option Q) (y : Q) :
  cell_ltb x (Some y) = true -> exists v, x = Some v /\ v < y.
Proof.
  unfold cell_ltb, cell_gtb. destruct x as [v|]; [|discriminate].
  intro H. exists v. split; [reflexivity|]. now apply Qltb_lt.
Qed.

Lemma cell_gtb_gt (x : option Q) (y : Q) :
  cell_gtb x (Some y) = true -> exists v, x = Some v /\ y < v.
Proof.
  unfold cell_gtb. destruct x as [v|]; [|discriminate].
  intro H. exists v. split; [reflexivity|]. now apply Qltb_lt.
Qed.

Lemma cell_geb_ge (x : option Q) (y : Q) :
  cell_geb x (Some y) = true -> exists v, x = Some v /\ y <= v.
Proof.
  unfold cell_geb. destruct x as [v|]; [|discriminate].
  intro H. exists v. split; [reflexivity|]. now apply Qleb_le.
Qed.

Lemma cell_leb_le (x : option Q) (y : Q) :
  cell_leb x (Some y) = true -> exists v, x = Some v /\ v <= y.
Proof.
  unfold cell_leb, cell_geb. destruct x as [v|]; [|discriminate].
  intro H. exists v. split; [reflexivity|]. now apply Qleb_le.
Qed.

(** A signal of [detect_signal] on row [idx]: its gates passed and the
    percent change crossed the sensitivity on this row (upward through
    +sensitivity for a long, downward through -sensitivity for a short);
    its entry price and timestamp are the close and the timestamp of row
    [idx]; its order block is an opposing candle 4 to 15 rows back, the
    nearest of those whose extreme is beyond the current close, and the
    stop is that extreme, so the stop is under the entry for a long and
    above it for a short. *)
Theorem detected_signal_spec
    (s : strategy) (df : frame) (idx : Z) (sg : signal) (s' : strategy) :
  detect_signal s df idx = Some (Some sg, s') ->
  exists ci cj prev cur,
    iloc (rows df) idx = Some ci /\
    iloc (rows df) (sig_ob_index sg) = Some cj /\
    iloc (pc df) (idx - 1) = Some (Some prev) /\
    iloc (pc df) idx = Some (Some cur) /\
    is_valid_trade_condition s df idx (sig_type sg) = Some true /\
    sig_entry_price sg = c_close ci /\
    sig_timestamp sg = c_timestamp ci /\
    (idx - 15 <= sig_ob_index sg <= idx - 4)%Z /\
    match sig_type sg with
    | Long =>
      prev < sensitivity s /\ sensitivity s <= cur /\
      c_close cj < c_open cj /\
      sig_stop_loss sg = c_low cj /\
      sig_stop_loss sg < sig_entry_price sg /\
      forall j c, (sig_ob_index sg < j <= idx - 4)%Z ->
        iloc (rows df) j = Some c ->
        ~ (c_close c < c_open c /\ c_low c < c_close ci)
    | Short =>
      - sensitivity s < prev /\ cur <= - sensitivity s /\
      c_open cj < c_close cj /\
      sig_stop_loss sg = c_high cj /\
      sig_entry_price sg < sig_stop_loss sg /\
      forall j c, (sig_ob_index sg < j <= idx - 4)%Z ->
        iloc (rows df) j = Some c ->
        ~ (c_open c < c_close c /\ c_close ci < c_high c)
    end.
Proof.
  intro H.
  destruct (detect_signal_order_block_range _ _ _ _ _ H) as (Hidx & Hob & _).
  destruct (detect_signal_inv _ _ _ _ _ H) as (pc_i & prev_pc & Hpc & Hprev & Hbranch).
  rewrite (scan_range idx Hidx) in Hbranch.
  assert (Hbefore : forall before after j,
            map (fun back => (idx - back)%Z)
                [4; 5; 6; 7; 8; 9; 10; 11; 12; 13; 14; 15]%Z
            = before ++ sig_ob_index sg :: after ->
            (sig_ob_index sg < j <= idx - 4)%Z -> In j before).
  { intros before after j Hsplit Hj.
    assert (Hin : In j (before ++ sig_ob_index sg :: after)).
    { rewrite <- Hsplit. apply in_map_iff. exists (idx - j)%Z.
      split; [lia|]. simpl. lia. }
    apply in_app_or in Hin. destruct Hin as [Hin|[Heq|Hin]];
      [exact Hin|lia|].
    exfalso.
    assert (Hsorted : forall l a b,
              (forall x, In x l -> (x < a)%Z) ->
              In b l -> (b < a)%Z) by (intros; auto).
    (* the list decreases: what follows the order block is under it *)
    assert (Hdec : forall l pre x post,
              l = pre ++ x :: post ->
              StronglySorted (fun a b => (b < a)%Z) l ->
              forall y, In y post -> (y < x)%Z).
    { intros l pre. revert l. induction pre as [|p pre IHp];
        intros l x post -> Hs y Hy; simpl in Hs.
      - inversion Hs as [|? ? _ Hall]; subst.
        rewrite Forall_forall in Hall. now apply Hall.
      - inversion Hs as [|? ? Hs' _]; subst. now apply (IHp _ x post eq_refl Hs'). }
    assert (Hss : StronglySorted (fun a b => (b < a)%Z)
                    (map (fun back => (idx - back)%Z)
                         [4; 5; 6; 7; 8; 9; 10; 11; 12; 13; 14; 15]%Z)).
    { simpl. repeat (constructor; [|repeat (constructor; [lia|]); constructor]).
      constructor. }
    pose proof (Hdec _ _ _ _ Hsplit Hss j Hin). lia. }
  destruct Hbranch as [(Hvalid & Hlt & Hge & Hscan)|(Hvalid & Hgt & Hle & Hscan)].
  - destruct (scan_long_nearest _ _ _ _ Hscan)
      as (before & after & cj & ci & Hsplit & Hcj & Hci & Hbear & Hlow & Hsg & Hnear).
    destruct (cell_ltb_lt _ _ Hlt) as (prev & -> & Hprev_lt).
    destruct (cell_geb_ge _ _ Hge) as (cur & -> & Hcur_ge).
    exists ci, cj, prev, cur.
    pose proof (f_equal sig_type Hsg) as Hty. simpl in Hty.
    pose proof (f_equal sig_entry_price Hsg) as Hentry. simpl in Hentry.
    pose proof (f_equal sig_stop_loss Hsg) as Hstop. simpl in Hstop.
    pose proof (f_equal sig_timestamp Hsg) as Hts. simpl in Hts.
    rewrite Hty.
    split; [exact Hci|]. split; [exact Hcj|]. split; [exact Hprev|].
    split; [exact Hpc|]. split; [exact Hvalid|]. split; [exact Hentry|].
    split; [exact Hts|]. split; [exact Hob|].
    split; [exact Hprev_lt|]. split; [exact Hcur_ge|]. split; [exact Hbear|].
    split; [exact Hstop|]. split; [rewrite Hstop, Hentry; exact Hlow|].
    intros j c Hj Hc. apply (Hnear j c); [|exact Hc].
    exact (Hbefore before after j Hsplit Hj).
  - destruct (scan_short_nearest _ _ _ _ Hscan)
      as (before & after & cj & ci & Hsplit & Hcj & Hci & Hbull & Hhigh & Hsg & Hnear).
    destruct (cell_gtb_gt _ _ Hgt) as (prev & -> & Hprev_gt).
    destruct (cell_leb_le _ _ Hle) as (cur & -> & Hcur_le).
    exists ci, cj, prev, cur.
    pose proof (f_equal sig_type Hsg) as Hty. simpl in Hty.
    pose proof (f_equal sig_entry_price Hsg) as Hentry. simpl in Hentry.
    pose proof (f_equal sig_stop_loss Hsg) as Hstop. simpl in Hstop.
    pose proof (f_equal sig_timestamp Hsg) as Hts. simpl in Hts.
    rewrite Hty.
    split; [exact Hci|]. split; [exact Hcj|]. split; [exact Hprev|].
    split; [exact Hpc|]. split; [exact Hvalid|]. split; [exact Hentry|].
    split; [exact Hts|]. split; [exact Hob|].
    split; [exact Hprev_gt|]. split; [exact Hcur_le|]. split; [exact Hbull|].
    split; [exact Hstop|]. split; [rewrite Hstop, Hentry; exact Hhigh|].
    intros j c Hj Hc. apply (Hnear j c); [|exact Hc].
    exact (Hbefore before after j Hsplit Hj).
Qed.

Lemma detected_signal_spec_witness :
  let fr := calculate_indicators default_strategy (breakout_frame 15) in
  exists sg s',
    detect_signal default_strategy fr 50 = Some (Some sg, s') /\
    sig_type sg = Long /\
    sig_ob_index sg = 35%Z /\
    sig_stop_loss sg < sig_entry_price sg.
Proof.
  intro fr.
  assert (Hsig : detect_signal default_strategy fr 50
                 = Some (Some (mkSignal Long (c_close breakout_candle)
                                        (c_low (bearish_candle 35)) 50%Z 35%Z),
                         set_last_trade_index 50 default_strategy))
    by (vm_compute; reflexivity).
  destruct (detected_signal_spec _ _ _ _ _ Hsig)
    as (ci & cj & prev & cur & _ & _ & _ & _ & _ & _ & _ & _ & Hside).
  simpl in Hside. destruct Hside as (_ & _ & _ & _ & Hlt & _).
  eexists. eexists. split; [exact Hsig|].
  split; [reflexivity|]. split; [reflexivity|exact Hlt].
Defined.

(** ** From the detector to the engine *)

(** The stop of a signal is on the losing side of its entry. *)
Lemma detected_signal_bracket
    (s : strategy) (df : frame) (idx : Z) (sg : signal) (s' : strategy) :
  detect_signal s df idx = Some (Some sg, s') ->
  match sig_type sg with
  | Long => sig_stop_loss sg < sig_entry_price sg
  | Short => sig_entry_price sg < sig_stop_loss sg
  end.
Proof.
  intro H.
  destruct (detect_signal_inv _ _ _ _ _ H) as (pc_i & prev_pc & _ & _ & Hbranch).
  destruct Hbranch as [(_ & _ & _ & Hscan)|(_ & _ & _ & Hscan)].
  - destruct (scan_long_nearest _ _ _ _ Hscan)
      as (before & after & cj & ci & _ & _ & _ & _ & Hlow & Hsg & _).
    rewrite (f_equal sig_type Hsg), (f_equal sig_stop_loss Hsg),
            (f_equal sig_entry_price Hsg). exact Hlow.
  - destruct (scan_short_nearest _ _ _ _ Hscan)
      as (before & after & cj & ci & _ & _ & _ & _ & Hhigh & Hsg & _).
    rewrite (f_equal sig_type Hsg), (f_equal sig_stop_loss Hsg),
            (f_equal sig_entry_price Hsg). exact Hhigh.
Qed.

(** A signal of [detect_signal] with a positive entry price is never
    rejected by [open_position] on a flat engine whose slippage rate is in
    [0, 1): the guard against a stop on the wrong side of the adjusted
    entry cannot fire on it, and the position is opened with the stop of
    the signal. *)
Theorem detected_signal_is_accepted
    (s : strategy) (df : frame) (idx : Z) (sg : signal) (s' : strategy)
    (e : engine) (ts : timestamp) :
  detect_signal s df idx = Some (Some sg, s') ->
  cur_position e = None ->
  0 <= slippage e -> slippage e < 1 ->
  0 < sig_entry_price sg ->
  ~ degenerate e sg /\
  exists p e1,
    open_position e sg ts = Some (Some p, e1) /\
    cur_position e1 = Some p /\
    pos_type p = sig_type sg /\
    stop_loss p = sig_stop_loss sg.
Proof.
  intros Hsig Hflat Hs0 Hs1 Hentry.
  pose proof (detected_signal_bracket _ _ _ _ _ Hsig) as Hside.
  assert (Hd : ~ degenerate e sg).
  { unfold degenerate, adjusted_entry. destruct (sig_type sg); nra. }
  assert (Hnz : ~ adjusted_entry e sg == 0).
  { unfold adjusted_entry. destruct (sig_type sg); nra. }
  split; [exact Hd|].
  destruct (open_position_ok e sg ts Hflat Hd Hnz) as (p & e1 & Hopen).
  pose proof (open_position_inv _ _ _ _ _ Hopen)
    as (_ & _ & _ & Hty & _ & _ & _ & _ & _ & Hsl & _ & _ & He1).
  exists p, e1. split; [exact Hopen|].
  split; [rewrite He1; reflexivity|]. split; [exact Hty|exact Hsl].
Qed.

Lemma detected_signal_is_accepted_witness :
  let fr := calculate_indicators default_strategy (breakout_frame 15) in
  exists sg s' p e1,
    detect_signal default_strategy fr 50 = Some (Some sg, s') /\
    open_position (init_engine None None None) sg 50%Z = Some (Some p, e1) /\
    stop_loss p = sig_stop_loss sg.
Proof.
  intro fr.
  assert (Hsig : detect_signal default_strategy fr 50
                 = Some (Some (mkSignal Long (c_close breakout_candle)
                                        (c_low (bearish_candle 35)) 50%Z 35%Z),
                         set_last_trade_index 50 default_strategy))
    by (vm_compute; reflexivity).
  destruct (detected_signal_is_accepted _ _ _ _ _
              (init_engine None None None) 50%Z Hsig eq_refl)
    as (_ & p & e1 & Hopen & _ & _ & Hsl).
  - vm_compute. discriminate.
  - reflexivity.
  - reflexivity.
  - eexists. eexists. exists p, e1.
    split; [exact Hsig|]. split; [exact Hopen|exact Hsl].
Defined.

(** * Statistics *)

Lemma Qsum_pos (l : list Q) :
  l <> [] -> (forall v, In v l -> 0 < v) -> 0 < Qsum l.
Proof.
  induction l as [|x l IH]; intros Hne H; [congruence|].
  unfold Qsum in *. simpl.
  assert (Hx : 0 < x) by (apply H; now left).
  destruct l as [|y l]; [simpl; lra|].
  assert (0 < fold_right Qplus 0 (y :: l)).
  { apply IH; [discriminate|]. intros v Hv. apply H. now right. }
  lra.
Qed.

Lemma Qsum_neg (l : list Q) :
  l <> [] -> (forall v, In v l -> v < 0) -> Qsum l < 0.
Proof.
  induction l as [|x l IH]; intros Hne H; [congruence|].
  unfold Qsum in *. simpl.
  assert (Hx : x < 0) by (apply H; now left).
  destruct l as [|y l]; [simpl; lra|].
  assert (fold_right Qplus 0 (y :: l) < 0).
  { apply IH; [discriminate|]. intros v Hv. apply H. now right. }
  lra.
Qed.

Lemma mean_or_zero_sign (l : list Q) :
  ((forall v, In v l -> 0 < v) ->
   match l with [] => mean_or_zero l = 0 | _ :: _ => 0 < mean_or_zero l end) /\
  ((forall v, In v l -> v < 0) ->
   match l with [] => mean_or_zero l = 0 | _ :: _ => mean_or_zero l < 0 end).
Proof.
  destruct l as [|x l]; [split; reflexivity|].
  assert (Hn : 0 < Qnat (length (x :: l))) by (apply Qnat_pos; simpl; lia).
  split; intro H; unfold mean_or_zero.
  - apply Qlt_shift_div_l; [exact Hn|].
    rewrite Qmult_0_l. apply Qsum_pos; [discriminate|exact H].
  - apply Qlt_shift_div_r; [exact Hn|].
    rewrite Qmult_0_l. apply Qsum_neg; [discriminate|exact H].
Qed.

Lemma wins_losses_le (l : list Q) :
  (length (filter (fun x => Qgtb x 0) l)
   + length (filter (fun x => Qltb x 0) l) <= length l)%nat.
Proof.
  induction l as [|x l IH]; [simpl; lia|].
  cbn [filter]. unfold Qgtb in *.
  destruct (Qltb 0 x) eqn:Ep, (Qltb x 0) eqn:En; cbn [length]; try lia.
  apply Qltb_lt in Ep. apply Qltb_lt in En. lra.
Qed.

(** With a trade in the ledger and a non-zero initial capital,
    [get_stats] returns all nine keys: the trades counted, the wins (P&L
    above zero) and the losses (P&L under zero), which together never
    exceed the trades; a win rate of 100 * wins / trades, between 0 and
    100; an average win that is positive when there is a win and 0
    otherwise, an average loss that is negative when there is a loss and 0
    otherwise; the total return 100 * (capital - initial) / initial; the
    capital; and the sum of the commissions of the trades. *)
Theorem get_stats_spec (e : engine) :
  trades e <> [] ->
  ~ initial_capital e == 0 ->
  let pnls := map pnl (trades e) in
  let wins := filter (fun x => Qgtb x 0) pnls in
  let losses := filter (fun x => Qltb x 0) pnls in
  exists st win_rate avg_win avg_loss,
    get_stats e = Some st /\
    dict_get "total_trades" st = Some (Qnat (length (trades e))) /\
    dict_get "wins" st = Some (Qnat (length wins)) /\
    dict_get "losses" st = Some (Qnat (length losses)) /\
    (length wins + length losses <= length (trades e))%nat /\
    dict_get "win_rate" st = Some win_rate /\
    win_rate == 100 * Qnat (length wins) / Qnat (length (trades e)) /\
    0 <= win_rate <= 100 /\
    dict_get "avg_win" st = Some avg_win /\
    match wins with [] => avg_win = 0 | _ :: _ => 0 < avg_win end /\
    dict_get "avg_loss" st = Some avg_loss /\
    match losses with [] => avg_loss = 0 | _ :: _ => avg_loss < 0 end /\
    dict_get "total_return" st
    = Some ((capital e - initial_capital e) / initial_capital e * 100) /\
    dict_get "current_capital" st = Some (capital e) /\
    dict_get "total_commission" st = Some (Qsum (map tr_commission (trades e))).
Proof.
  intros Hne Hinit pnls wins losses.
  assert (Hn : 0 < Qnat (length (trades e))).
  { apply Qnat_pos. destruct (trades e); [congruence|simpl; lia]. }
  assert (Hwl : (length wins + length losses <= length (trades e))%nat).
  { unfold wins, losses, pnls.
    rewrite <- (length_map pnl (trades e)). apply wins_losses_le. }
  assert (Hnz : ~ Qnat (length (trades e)) == 0) by lra.
  assert (Hbody : get_stats e =
            (win_share <- pydiv (Qnat (length wins)) (Qnat (length (trades e))) ;;
             growth <- pydiv (capital e - initial_capital e) (initial_capital e) ;;
             ret [("total_trades"%string, Qnat (length (trades e)));
                  ("wins"%string, Qnat (length wins));
                  ("losses"%string, Qnat (length losses));
                  ("win_rate"%string, win_share * 100);
                  ("avg_win"%string, mean_or_zero wins);
                  ("avg_loss"%string, mean_or_zero losses);
                  ("total_return"%string, growth * 100);
                  ("current_capital"%string, capital e);
                  ("total_commission"%string,
                   Qsum (map tr_commission (trades e)))])).
  { unfold get_stats, wins, losses, pnls.
    destruct (trades e); [congruence|reflexivity]. }
  rewrite Hbody.
  rewrite (pydiv_ok _ _ Hnz). simpl bind.
  rewrite (pydiv_ok _ _ Hinit). simpl bind.
  eexists. exists (Qnat (length wins) / Qnat (length (trades e)) * 100),
                  (mean_or_zero wins), (mean_or_zero losses).
  split; [reflexivity|].
  split; [reflexivity|]. split; [reflexivity|]. split; [reflexivity|].
  split; [exact Hwl|]. split; [reflexivity|].
  split; [field; lra|].
  split.
  { pose proof (Qnat_nonneg (length wins)) as H0.
    assert (H1 : Qnat (length wins) <= Qnat (length (trades e)))
      by (apply Qnat_le; lia).
    assert (0 <= Qnat (length wins) / Qnat (length (trades e)))
      by (apply Qle_shift_div_l; lra).
    assert (Qnat (length wins) / Qnat (length (trades e)) <= 1)
      by (apply Qle_shift_div_r; lra).
    split; lra. }
  split; [reflexivity|].
  split.
  { apply (mean_or_zero_sign wins). intros v Hv. unfold wins in Hv.
    apply filter_In in Hv. destruct Hv as (_ & Hv). now apply Qltb_lt in Hv. }
  split; [reflexivity|].
  split.
  { apply (mean_or_zero_sign losses). intros v Hv. unfold losses in Hv.
    apply filter_In in Hv. destruct Hv as (_ & Hv). now apply Qltb_lt in Hv. }
  repeat split.
Qed.

Lemma get_stats_spec_witness :
  exists e st,
    calls (init_engine None None None)
          [CallOpen (mkSignal Long 3000 2950 0%Z 46%Z) 0%Z;
           CallClose 3050 2%Z "manual";
           CallOpen (mkSignal Short 3050 3100 3%Z 49%Z) 3%Z;
           CallUpdate 3110 4%Z] = Some e /\
    get_stats e = Some st /\
    dict_get "total_trades" st = Some 2 /\
    dict_get "wins" st = Some 1 /\
    dict_get "losses" st = Some 1.
Proof.
  eexists.
  match goal with
  | |- exists st, ?run = Some ?x /\ _ =>
    assert (Hrun : run = Some x) by (vm_compute; reflexivity)
  end.
  match type of Hrun with _ = Some ?x => set (e := x) in * end.
  destruct (get_stats_spec e) as (st & wr & aw & al & Hst & Hn & Hw & Hl & _).
  - discriminate.
  - vm_compute. discriminate.
  - exists st. split; [exact Hrun|]. split; [exact Hst|].
    split; [exact Hn|]. split; [exact Hw|exact Hl].
Defined.

(** With no trade in the ledger, [get_stats] returns four keys only, with
    a total return of 0 whatever the capital is: the keys wins, losses,
    avg_win, avg_loss and total_commission are missing.  So
    [send_daily_summary], which reads wins before anything is sent, raises
    [KeyError] on it, and so does the log line of [shutdown] that reads
    total_commission: a shutdown of a flat engine that never closed a
    trade does not complete. *)
Theorem get_stats_without_trades (e : engine) :
  trades e = [] ->
  exists st,
    get_stats e = Some st /\
    dict_get "total_trades" st = Some 0 /\
    dict_get "win_rate" st = Some 0 /\
    dict_get "total_return" st = Some 0 /\
    dict_get "current_capital" st = Some (capital e) /\
    dict_get "wins" st = None /\
    dict_get "losses" st = None /\
    dict_get "avg_win" st = None /\
    dict_get "avg_loss" st = None /\
    dict_get "total_commission" st = None /\
    send_daily_summary st = None /\
    send_shutdown st = Some tt /\
    (cur_position e = None ->
     forall current_price now, shutdown e current_price now = None).
Proof.
  intro H. unfold get_stats. rewrite H.
  eexists. split; [reflexivity|].
  repeat (split; [reflexivity|]).
  intros Hflat current_price now.
  unfold shutdown, get_stats. rewrite Hflat. simpl. rewrite H. reflexivity.
Qed.

Lemma get_stats_without_trades_witness :
  exists st,
    get_stats (init_engine None None None) = Some st /\
    send_daily_summary st = None /\
    shutdown (init_engine None None None) (Some 3000) 7%Z = None.
Proof.
  destruct (get_stats_without_trades (init_engine None None None) eq_refl)
    as (st & Hst & _ & _ & _ & _ & _ & _ & _ & _ & _ & Hsum & _ & Hshut).
  exists st. split; [exact Hst|]. split; [exact Hsum|].
  apply Hshut. reflexivity.
Defined.

(** [shutdown] completes only on an engine that has closed a trade, the
    one it closes itself included: it then leaves at least one trade in the
    ledger; and it closes an open position exactly when the data feed
    gave it a price that is not zero. *)
Theorem shutdown_completes_with_a_trade
    (e : engine) (current_price : option Q) (now : timestamp) (e' : engine) :
  shutdown e current_price now = Some e' ->
  trades e' <> [] /\
  match cur_position e, current_price with
  | Some p, Some price =>
    if Qeq_bool price 0 then e' = e
    else exists t, close_position e price now "shutdown" = Some (Some t, e')
  | _, _ => e' = e
  end.
Proof.
  unfold shutdown. intro H.
  apply bind_inv in H. destruct H as (e1 & He1 & H).
  apply bind_inv in H. destruct H as (st & Hst & H).
  apply bind_inv in H. destruct H as (x1 & _ & H).
  apply bind_inv in H. destruct H as (x2 & _ & H).
  apply bind_inv in H. destruct H as (x3 & _ & H).
  apply bind_inv in H. destruct H as (x4 & _ & H).
  apply bind_inv in H. destruct H as (x5 & Hcomm & H).
  apply bind_inv in H. destruct H as (x6 & _ & H).
  inversion H; subst e'; clear H.
  split.
  - intro Hempty. unfold get_stats in Hst. rewrite Hempty in Hst.
    inversion Hst; subst st. discriminate.
  - destruct (cur_position e) as [p|] eqn:Hp; [|now inversion He1].
    destruct current_price as [price|]; [|now inversion He1].
    destruct (Qeq_bool price 0); [now inversion He1|].
    apply bind_inv in He1. destruct He1 as ((r & e2) & Hclose & He1).
    inversion He1; subst; clear He1. simpl.
    destruct r as [t|]; [now exists t|].
    exfalso. exact (close_position_not_silent e p price now "shutdown" e1 Hp Hclose).
Qed.

Lemma shutdown_completes_with_a_trade_witness :
  exists e e',
    calls (init_engine None None None)
          [CallOpen (mkSignal Long 3000 2950 0%Z 46%Z) 0%Z] = Some e /\
    shutdown e (Some 3050) 9%Z = Some e' /\
    length (trades e') = 1%nat /\
    cur_position e' = None.
Proof.
  eexists. eexists.
  split; [vm_compute; reflexivity|].
  match goal with
  | |- ?run = Some ?x /\ _ =>
    assert (Hrun : run = Some x) by (vm_compute; reflexivity)
  end.
  split; [exact Hrun|].
  destruct (shutdown_completes_with_a_trade _ _ _ _ Hrun) as (Hne & _).
  split; reflexivity.
Defined.

(** * The frame of the fetched candles *)

Lemma existsb_eqb_In (t : timestamp) (seen : list timestamp) :
  existsb (Z.eqb t) seen = true <-> In t seen.
Proof.
  rewrite existsb_exists. split.
  - intros (x & Hx & Heq). apply Z.eqb_eq in Heq. now subst.
  - intro H. exists t. split; [exact H|apply Z.eqb_refl].
Qed.

Lemma drop_duplicates_seen_spec (l : list candle) (seen : list timestamp) :
  let out := drop_duplicates_seen seen l in
  NoDup (map c_timestamp out) /\
  (forall c, In c out -> ~ In (c_timestamp c) seen) /\
  (forall c, In c out ->
     exists pre post, l = pre ++ c :: post /\
       forall x, In x pre -> c_timestamp x <> c_timestamp c) /\
  (forall c, In c l ->
     In (c_timestamp c) seen \/ In (c_timestamp c) (map c_timestamp out)).
Proof.
  revert seen. induction l as [|a l IH]; intro seen; simpl.
  - split; [constructor|]. repeat split; intros c [].
  - destruct (existsb (Z.eqb (c_timestamp a)) seen) eqn:E.
    + apply existsb_eqb_In in E.
      destruct (IH seen) as (Hnd & Hseen & Hfirst & Hcov).
      split; [exact Hnd|]. split; [exact Hseen|]. split.
      * intros c Hc. destruct (Hfirst c Hc) as (pre & post & -> & Hpre).
        exists (a :: pre), post. split; [reflexivity|].
        intros x [<-|Hx]; [|now apply Hpre].
        intro Heq. apply (Hseen c Hc). now rewrite <- Heq.
      * intros c [<-|Hc]; [now left|now apply Hcov].
    + assert (Hnot : ~ In (c_timestamp a) seen).
      { intro H. apply existsb_eqb_In in H. congruence. }
      destruct (IH (c_timestamp a :: seen)) as (Hnd & Hseen & Hfirst & Hcov).
      split; [|split; [|split]].
      * simpl. constructor; [|exact Hnd].
        intro H. apply in_map_iff in H. destruct H as (c & Heq & Hc).
        apply (Hseen c Hc). left. now symmetry.
      * intros c [<-|Hc]; [exact Hnot|].
        intro H. apply (Hseen c Hc). now right.
      * intros c [<-|Hc].
        -- exists [], l. split; [reflexivity|]. intros x [].
        -- destruct (Hfirst c Hc) as (pre & post & -> & Hpre).
           exists (a :: pre), post. split; [reflexivity|].
           intros x [<-|Hx]; [|now apply Hpre].
           intro Heq. apply (Hseen c Hc). left. exact Heq.
      * intros c [<-|Hc]; [right; simpl; now left|].
        destruct (Hcov c Hc) as [[Heq|Hs]|Hout].
        -- right. simpl. left. exact Heq.
        -- now left.
        -- right. simpl. now right.
Qed.

Lemma insert_by_timestamp_perm (c : candle) (l : list candle) :
  Permutation (insert_by_timestamp c l) (c :: l).
Proof.
  induction l as [|x l IH]; simpl; [reflexivity|].
  destruct (_ <=? _)%Z; [reflexivity|].
  rewrite IH. apply perm_swap.
Qed.

Lemma sort_values_perm (l : list candle) : Permutation (sort_values l) l.
Proof.
  induction l as [|c l IH]; simpl; [reflexivity|].
  rewrite insert_by_timestamp_perm. now constructor.
Qed.

Lemma insert_by_timestamp_sorted (c : candle) (l : list candle) :
  ~ In (c_timestamp c) (map c_timestamp l) ->
  increasing l -> increasing (insert_by_timestamp c l).
Proof.
  unfold increasing. induction l as [|x l IH]; simpl; intros Hnew Hs.
  - repeat constructor.
  - inversion Hs as [|? ? Hs' Hall]; subst.
    destruct (c_timestamp c <=? c_timestamp x)%Z eqn:E.
    + apply Z.leb_le in E.
      assert (Hlt : (c_timestamp c < c_timestamp x)%Z).
      { destruct (Z.eq_dec (c_timestamp c) (c_timestamp x)) as [Heq|Hne]; [|lia].
        exfalso. apply Hnew. left. now symmetry. }
      constructor; [exact Hs|].
      constructor; [exact Hlt|].
      rewrite Forall_forall in *. intros y Hy. specialize (Hall y Hy). lia.
    + apply Z.leb_gt in E.
      constructor.
      * apply IH; [|exact Hs']. intro H. apply Hnew. now right.
      * rewrite Forall_forall in *. intros y Hy.
        apply (Permutation_in _ (insert_by_timestamp_perm c l)) in Hy.
        destruct Hy as [<-|Hy]; [exact E|now apply Hall].
Qed.

Lemma sort_values_sorted (l : list candle) :
  NoDup (map c_timestamp l) -> increasing (sort_values l).
Proof.
  induction l as [|c l IH]; simpl; intro Hnd; [constructor|].
  inversion Hnd as [|? ? Hnew Hnd']; subst.
  apply insert_by_timestamp_sorted; [|now apply IH].
  intro H. apply Hnew.
  apply in_map_iff in H. destruct H as (x & Heq & Hx).
  apply in_map_iff. exists x. split; [exact Heq|].
  now apply (Permutation_in _ (sort_values_perm l)).
Qed.

Lemma increasing_nodup (l : list candle) :
  increasing l -> NoDup (map c_timestamp l).
Proof.
  unfold increasing. induction l as [|c l IH]; simpl; intro Hs; [constructor|].
  inversion Hs as [|? ? Hs' Hall]; subst.
  constructor; [|now apply IH].
  intro H. apply in_map_iff in H. destruct H as (x & Heq & Hx).
  rewrite Forall_forall in Hall. specialize (Hall x Hx). lia.
Qed.

Lemma drop_duplicates_seen_fixed (l : list candle) (seen : list timestamp) :
  NoDup (map c_timestamp l) ->
  (forall c, In c l -> ~ In (c_timestamp c) seen) ->
  drop_duplicates_seen seen l = l.
Proof.
  revert seen. induction l as [|a l IH]; simpl; intros seen Hnd Hseen;
    [reflexivity|].
  inversion Hnd as [|? ? Hnew Hnd']; subst.
  destruct (existsb (Z.eqb (c_timestamp a)) seen) eqn:E.
  - apply existsb_eqb_In in E. exfalso. apply (Hseen a); [now left|exact E].
  - f_equal. apply IH; [exact Hnd'|].
    intros c Hc [Heq|Hs].
    + apply Hnew. rewrite Heq. now apply in_map.
    + apply (Hseen c); [now right|exact Hs].
Qed.

Lemma sort_values_fixed (l : list candle) : increasing l -> sort_values l = l.
Proof.
  unfold increasing. induction l as [|c l IH]; simpl; intro Hs; [reflexivity|].
  inversion Hs as [|? ? Hs' Hall]; subst.
  rewrite (IH Hs'). destruct l as [|x l]; [reflexivity|]. simpl.
  rewrite Forall_forall in Hall.
  assert (Hlt : (c_timestamp c < c_timestamp x)%Z) by (apply Hall; now left).
  now replace (c_timestamp c <=? c_timestamp x)%Z with true
    by (symmetry; apply Z.leb_le; lia).
Qed.

(** The frame that [fetch_historical_data] makes of the candles it
    received has strictly increasing timestamps, so no timestamp twice;
    its rows are rows received, each the first one received with its
    timestamp; every timestamp received is in it; and making the frame
    again of its own rows changes nothing. *)
Theorem frame_of_candles_spec (all_candles : list candle) :
  let df := frame_of_candles all_candles in
  increasing df /\
  (forall c, In c df ->
     exists pre post, all_candles = pre ++ c :: post /\
       forall x, In x pre -> c_timestamp x <> c_timestamp c) /\
  (forall c, In c all_candles -> In (c_timestamp c) (map c_timestamp df)) /\
  frame_of_candles df = df.
Proof.
  intro df. unfold df, frame_of_candles, drop_duplicates.
  destruct (drop_duplicates_seen_spec all_candles []) as (Hnd & _ & Hfirst & Hcov).
  simpl in Hnd, Hfirst, Hcov.
  pose proof (sort_values_sorted _ Hnd) as Hsorted.
  split; [exact Hsorted|]. split; [|split].
  - intros c Hc. apply Hfirst.
    now apply (Permutation_in _ (sort_values_perm _)).
  - intros c Hc. destruct (Hcov c Hc) as [[]|Hin].
    apply in_map_iff in Hin. destruct Hin as (x & Heq & Hx).
    apply in_map_iff. exists x. split; [exact Heq|].
    apply (Permutation_in _ (Permutation_sym (sort_values_perm _))). exact Hx.
  - rewrite drop_duplicates_seen_fixed.
    + now apply sort_values_fixed.
    + now apply increasing_nodup.
    + intros c _ [].
Qed.

(** * The forward tester *)

(** ** One candle on the engine *)

Lemma close_position_keeps_ema
    (e : engine) (x : Q) (ts : timestamp) (reason : string)
    (r : option trade) (e1 : engine) :
  close_position e x ts reason = Some (r, e1) -> ema_200 e1 = ema_200 e.
Proof.
  intro H. destruct r as [t|].
  - destruct (close_position_inv _ _ _ _ _ _ H)
      as (p & _ & _ & _ & _ & _ & _ & _ & _ & _ & He1).
    rewrite He1. reflexivity.
  - destruct (cur_position e) as [p|] eqn:Hp.
    + exfalso. exact (close_position_not_silent e p x ts reason e1 Hp H).
    + unfold close_position in H. rewrite Hp in H. now inversion H.
Qed.

(** Only [should_take_trade] writes the stored average. *)
Lemma call_keeps_ema (e : engine) (c : engine_call) (e' : engine) :
  c <> CallGate -> call e c = Some e' -> ema_200 e' = ema_200 e.
Proof.
  destruct c as [sg ts|price ts|x ts reason|ts price|]; simpl; intros Hc H;
    [| | | |congruence].
  - apply bind_inv in H. destruct H as ((r & e1) & Hopen & H).
    inversion H; subst; clear H. simpl.
    destruct r as [p|].
    + pose proof (open_position_inv _ _ _ _ _ Hopen)
        as (_ & _ & _ & _ & _ & _ & _ & _ & _ & _ & _ & _ & He1).
      rewrite He1. reflexivity.
    + unfold open_position in Hopen.
      destruct (cur_position e); [now inversion Hopen|].
      match type of Hopen with
      | (if ?b then _ else _) = _ => destruct b; [now inversion Hopen|]
      end.
      apply bind_inv in Hopen. destruct Hopen as (? & _ & Hopen).
      apply bind_inv in Hopen. destruct Hopen as (? & _ & Hopen).
      discriminate.
  - apply bind_inv in H. destruct H as ((r & e1) & Hup & H).
    inversion H; subst; clear H. simpl.
    destruct (cur_position e) as [p|] eqn:Hp.
    + rewrite (update_position_open e p price ts Hp) in Hup.
      destruct (stop_hit (trailed p price) price).
      * now apply close_position_keeps_ema in Hup.
      * now inversion Hup.
    + unfold update_position in Hup. rewrite Hp in Hup. now inversion Hup.
  - apply bind_inv in H. destruct H as ((r & e1) & Hcl & H).
    inversion H; subst; clear H. simpl.
    now apply close_position_keeps_ema in Hcl.
  - destruct (record_equity_inv _ _ _ _ H) as (q & _ & He1).
    rewrite He1. reflexivity.
Qed.

(** A call that is neither [record_equity] nor [should_take_trade]. *)
Lemma call_off_record (e : engine) (c : engine_call) (e' : engine) :
  call e c = Some e' -> is_record c = false -> c <> CallGate ->
  equity_history e' = equity_history e /\
  ema_200 e' = ema_200 e /\
  (books_balance e -> books_balance e') /\
  exists closed, trades e' = trades e ++ closed.
Proof.
  intros H Hrec Hgate.
  destruct (call_effect _ _ _ H) as (_ & _ & _ & (cl & Ht & _) & (pt & Hq & Hn)).
  rewrite Hrec in Hn. destruct pt; [|discriminate]. rewrite app_nil_r in Hq.
  split; [exact Hq|]. split; [exact (call_keeps_ema _ _ _ Hgate H)|].
  split; [|now exists cl].
  intro Hb. exact (books_balance_call _ _ _ Hb H).
Qed.

Lemma update_if_open (e : engine) (price : Q) (ts : timestamp) (e1 : engine) :
  match cur_position e with
  | Some _ => r <- update_position e price ts ;; ret (snd r)
  | None => ret e
  end = Some e1 ->
  call e (CallUpdate price ts) = Some e1.
Proof.
  destruct (cur_position e) eqn:Hp; intro H; [exact H|].
  simpl. unfold update_position. rewrite Hp. exact H.
Qed.

Lemma same_parameters_refl (s : strategy) : same_parameters s s.
Proof. repeat split. Qed.

Lemma same_parameters_trans (s1 s2 s3 : strategy) :
  same_parameters s1 s2 -> same_parameters s2 s3 -> same_parameters s1 s3.
Proof.
  intros (A1 & A2 & A3 & A4) (B1 & B2 & B3 & B4).
  repeat split; congruence.
Qed.

(** [detect_signal] writes the strategy only when it returns a signal, and
    then only its last trade index. *)
Lemma detect_signal_strategy
    (s : strategy) (df : frame) (idx : Z) (r : option signal) (s' : strategy) :
  detect_signal s df idx = Some (r, s') ->
  same_parameters s s' /\
  match r with
  | Some _ => s' = set_last_trade_index idx s
  | None => s' = s
  end.
Proof.
  intro H. destruct r as [sg|].
  - destruct (detect_signal_order_block_range _ _ _ _ _ H) as (_ & _ & ->).
    split; [repeat split|reflexivity].
  - assert (Hs : s' = s).
    { unfold detect_signal in H.
      destruct (idx <? 50)%Z; [now inversion H|].
      apply bind_inv in H. destruct H as (pc_i & _ & H).
      apply bind_inv in H. destruct H as (prev & _ & H).
      apply bind_inv in H. destruct H as (vl & _ & H).
      destruct (vl && _).
      - apply bind_inv in H. destruct H as ([r|] & _ & H); now inversion H.
      - apply bind_inv in H. destruct H as (vs & _ & H).
        destruct (vs && _); [|now inversion H].
        apply bind_inv in H. destruct H as ([r|] & _ & H); now inversion H. }
    subst. split; [apply same_parameters_refl|reflexivity].
Qed.

(** Inside the spacing window there is no signal, whatever the frame. *)
Lemma detect_signal_spaced
    (s : strategy) (df : frame) (idx : Z) (r : option signal * strategy) :
  (idx - last_trade_index s < min_trades_distance s)%Z ->
  detect_signal s df idx = Some r -> r = (None, s).
Proof.
  intros Hnear Hr.
  assert (Hgate : forall side0,
            is_valid_trade_condition s df idx side0 = Some false)
    by (intro side0; now apply is_valid_trade_condition_spaced).
  unfold detect_signal in Hr.
  destruct (idx <? 50)%Z; [now inversion Hr|].
  apply bind_inv in Hr. destruct Hr as (pc_i & _ & Hr).
  apply bind_inv in Hr. destruct Hr as (prev & _ & Hr).
  rewrite (Hgate Long) in Hr. simpl in Hr.
  rewrite (Hgate Short) in Hr. simpl in Hr.
  now inversion Hr.
Qed.

Lemma calculate_indicators_rows (s : strategy) (df : list candle) :
  rows (calculate_indicators s df) = df.
Proof. reflexivity. Qed.

Lemma backtest_step_effect
    (df : frame) (s : strategy) (e : engine) (i : Z)
    (s' : strategy) (e' : engine) :
  backtest_step df s e i = Some (s', e') ->
  exists ci q,
    iloc (rows df) i = Some ci /\
    equity_history e' = equity_history e ++ [(c_timestamp ci, q)] /\
    ema_200 e' = ema_200 e /\
    (books_balance e -> books_balance e') /\
    same_parameters s s'.
Proof.
  unfold backtest_step. intro H.
  apply bind_inv in H. destruct H as (ci & Hci & H).
  apply bind_inv in H. destruct H as (e1 & H1 & H).
  apply bind_inv in H. destruct H as ((s2 & e2) & H2 & H).
  apply bind_inv in H. destruct H as (e3 & H3 & H).
  simpl in H3, H. inversion H; subst s' e'; clear H.
  apply update_if_open in H1.
  destruct (call_off_record _ _ _ H1 eq_refl) as (Hh1 & Hm1 & Hb1 & _);
    [discriminate|].
  assert (Hsig : same_parameters s s2 /\
                 equity_history e2 = equity_history e1 /\
                 ema_200 e2 = ema_200 e1 /\
                 (books_balance e1 -> books_balance e2)).
  { destruct (cur_position e1) eqn:Hp1.
    - inversion H2; subst.
      split; [apply same_parameters_refl|].
      split; [reflexivity|]. split; [reflexivity|]. exact (fun Hb => Hb).
    - apply bind_inv in H2. destruct H2 as ((r & s3) & Hd & H2). simpl in H2.
      destruct (detect_signal_strategy _ _ _ _ _ Hd) as (Hpar & _).
      destruct r as [sg|].
      + apply bind_inv in H2. destruct H2 as ((o & e4) & Ho & H2).
        inversion H2; subst; clear H2.
        assert (Hc : call e1 (CallOpen sg (c_timestamp ci)) = Some e2)
          by (simpl; rewrite Ho; reflexivity).
        destruct (call_off_record _ _ _ Hc eq_refl) as (A & B & C & _);
          [discriminate|].
        split; [exact Hpar|]. split; [exact A|]. split; [exact B|exact C].
      + inversion H2; subst.
        split; [exact Hpar|].
        split; [reflexivity|]. split; [reflexivity|]. exact (fun Hb => Hb). }
  destruct Hsig as (Hpar & Hh2 & Hm2 & Hb2).
  destruct (record_equity_inv _ _ _ _ H3) as (q & _ & He3).
  exists ci, q. split; [exact Hci|].
  rewrite He3. simpl. split; [congruence|]. split; [congruence|].
  split; [|exact Hpar].
  intro Hb. exact (Hb2 (Hb1 Hb)).
Qed.

Lemma skipn_nth_error {A : Type} (l : list A) (a : nat) (x : A) :
  nth_error l a = Some x -> skipn a l = x :: skipn (S a) l.
Proof.
  revert l. induction a as [|a IH]; intros [|y l] H; try discriminate.
  - now inversion H.
  - simpl in H. change (skipn (S a) (y :: l)) with (skipn a l).
    rewrite (IH _ H). reflexivity.
Qed.

Lemma backtest_loop_effect
    (df : frame) (k a : nat) (s : strategy) (e : engine)
    (s' : strategy) (e' : engine) :
  backtest_loop df s e (map Z.of_nat (seq a k)) = Some (s', e') ->
  map fst (equity_history e')
  = map fst (equity_history e)
    ++ map c_timestamp (firstn k (skipn a (rows df))) /\
  ema_200 e' = ema_200 e /\
  (books_balance e -> books_balance e') /\
  same_parameters s s'.
Proof.
  revert a s e. induction k as [|k IH]; intros a s e H.
  - simpl in H. inversion H; subst. simpl. rewrite app_nil_r.
    split; [reflexivity|]. split; [reflexivity|].
    split; [exact (fun Hb => Hb)|apply same_parameters_refl].
  - cbn [seq map backtest_loop] in H.
    apply bind_inv in H. destruct H as ((s1 & e1) & Hstep & H).
    cbn [fst snd] in H.
    destruct (backtest_step_effect _ _ _ _ _ _ Hstep)
      as (ci & q & Hci & Hh & Hm & Hb & Hpar).
    destruct (IH _ _ _ H) as (Hh' & Hm' & Hb' & Hpar').
    assert (Hnth : nth_error (rows df) a = Some ci).
    { unfold iloc in Hci.
      replace (0 <=? Z.of_nat a)%Z with true in Hci
        by (symmetry; apply Z.leb_le; lia).
      now rewrite Nat2Z.id in Hci. }
    rewrite (skipn_nth_error _ _ _ Hnth). cbn [firstn map].
    split.
    + rewrite Hh', Hh, map_app. cbn [map fst]. rewrite <- app_assoc.
      reflexivity.
    + split; [congruence|]. split; [auto|].
      exact (same_parameters_trans _ _ _ Hpar Hpar').
Qed.

(** ** The historical backtest *)

(** [_run_historical_backtest] adds to the equity history one point for
    every row of the frame from row 50 on, in the order of the rows and
    with the timestamp of its row; it never touches the stored average of
    the equity curve (no position of the backtest goes through
    [should_take_trade]); it keeps the books of the engine balanced and the
    parameters of the strategy; and on a frame of 50 rows or fewer it does
    nothing at all. *)
Theorem backtest_builds_the_equity_curve (t t' : tester) (df : frame) :
  t_df t = Some df ->
  run_historical_backtest t = Some t' ->
  map fst (equity_history (t_engine t'))
  = map fst (equity_history (t_engine t))
    ++ map c_timestamp (skipn 50 (rows df)) /\
  ema_200 (t_engine t') = ema_200 (t_engine t) /\
  (books_balance (t_engine t) -> books_balance (t_engine t')) /\
  same_parameters (t_strategy t) (t_strategy t') /\
  t_df t' = t_df t /\
  last_candle_time t' = last_candle_time t /\
  last_daily_summary t' = last_daily_summary t /\
  ((length (rows df) <= 50)%nat -> t' = t).
Proof.
  intros Hdf H. unfold run_historical_backtest in H. rewrite Hdf in H.
  simpl in H.
  apply bind_inv in H. destruct H as ((s1 & e1) & Hloop & H).
  inversion H; subst t'; clear H. cbn [fst snd t_engine t_strategy t_df
    last_candle_time last_daily_summary].
  destruct (backtest_loop_effect _ _ _ _ _ _ _ Hloop) as (Hh & Hm & Hb & Hpar).
  rewrite firstn_all2 in Hh by (rewrite length_skipn; lia).
  split; [exact Hh|]. split; [exact Hm|]. split; [exact Hb|].
  split; [exact Hpar|]. split; [now symmetry|].
  split; [reflexivity|]. split; [reflexivity|].
  intro Hshort.
  replace (length (rows df) - 50)%nat with 0%nat in Hloop by lia.
  simpl in Hloop. inversion Hloop; subst.
  rewrite <- Hdf. destruct t; reflexivity.
Qed.

Lemma backtest_builds_the_equity_curve_witness :
  let df := calculate_indicators default_strategy (breakout_frame 15) in
  let t := mkTester default_strategy (init_engine None None None) (Some df)
                    None None in
  exists t',
    run_historical_backtest t = Some t' /\
    map fst (equity_history (t_engine t')) = [50%Z] /\
    ema_200 (t_engine t') = None.
Proof.
  intros df t.
  assert (Hrun : exists t', run_historical_backtest t = Some t')
    by (eexists; vm_compute; reflexivity).
  destruct Hrun as (t' & Hrun).
  destruct (backtest_builds_the_equity_curve t t' df eq_refl Hrun)
    as (Hh & Hm & _).
  exists t'. split; [exact Hrun|]. split; [|exact Hm].
  rewrite Hh. reflexivity.
Defined.

(** ** The bootstrap *)

Lemma frame_of_candles_increasing (l : list candle) :
  increasing (frame_of_candles l).
Proof.
  unfold frame_of_candles, drop_duplicates.
  destruct (drop_duplicates_seen_spec l []) as (Hnd & _).
  now apply sort_values_sorted.
Qed.

Lemma frame_of_candles_received (l : list candle) (c : candle) :
  In c (frame_of_candles l) -> In c l.
Proof.
  unfold frame_of_candles, drop_duplicates. intro H.
  apply (Permutation_in _ (sort_values_perm _)) in H.
  destruct (drop_duplicates_seen_spec l []) as (_ & _ & Hfirst & _).
  destruct (Hfirst c H) as (pre & post & -> & _).
  apply in_or_app. right. now left.
Qed.

Lemma frame_of_candles_covers (l : list candle) (c : candle) :
  In c l -> exists c', In c' (frame_of_candles l) /\ c_timestamp c' = c_timestamp c.
Proof.
  unfold frame_of_candles, drop_duplicates. intro H.
  destruct (drop_duplicates_seen_spec l []) as (_ & _ & _ & Hcov).
  destruct (Hcov c H) as [[]|Hin].
  apply in_map_iff in Hin. destruct Hin as (x & Heq & Hx).
  exists x. split; [|exact Heq].
  apply (Permutation_in _ (Permutation_sym (sort_values_perm _))). exact Hx.
Qed.

Lemma iloc_minus_one {A : Type} (l : list A) :
  iloc l (-1) = nth_error l (length l - 1).
Proof.
  unfold iloc. replace (0 <=? -1)%Z with false by reflexivity.
  destruct l as [|a l]; [reflexivity|].
  replace (- Z.of_nat (length (a :: l)) <=? -1)%Z with true
    by (symmetry; apply Z.leb_le; cbn [length]; lia).
  f_equal. cbn [length]. lia.
Qed.

(** The last row of an increasing frame is its latest. *)
Lemma increasing_last (l : list candle) (ts : timestamp) :
  increasing l ->
  iloc (map c_timestamp l) (-1) = Some ts ->
  exists c, In c l /\ c_timestamp c = ts /\
    forall x, In x l -> (c_timestamp x <= ts)%Z.
Proof.
  rewrite iloc_minus_one, length_map.
  unfold increasing. induction l as [|a l IH]; intros Hs H.
  - discriminate.
  - inversion Hs as [|? ? Hs' Hall]; subst.
    destruct l as [|b l].
    + cbn [length map] in H. change (Some (c_timestamp a) = Some ts) in H.
      exists a. split; [now left|]. split; [congruence|].
      intros x [<-|[]]. inversion H. lia.
    + assert (Hrest : nth_error (map c_timestamp (b :: l)) (length (b :: l) - 1)
                      = Some ts).
      { cbn [length] in *.
        replace (S (S (length l)) - 1)%nat with (S (length l)) in H by lia.
        replace (S (length l) - 1)%nat with (length l) by lia.
        exact H. }
      destruct (IH Hs' Hrest) as (c & Hc & Hts & Hmax).
      exists c. split; [now right|]. split; [exact Hts|].
      intros x [<-|Hx]; [|now apply Hmax].
      rewrite Forall_forall in Hall. specialize (Hall c Hc). lia.
Qed.

Lemma increasing_skipn (n : nat) (l : list candle) :
  increasing l -> increasing (skipn n l).
Proof.
  unfold increasing. revert l. induction n as [|n IH]; intros [|a l] H;
    simpl; try exact H.
  inversion H; subst. now apply IH.
Qed.

Lemma increasing_timestamps (l : list candle) :
  increasing l -> StronglySorted Z.lt (map c_timestamp l).
Proof.
  unfold increasing. induction 1 as [|a l Hs IH Hall]; simpl; constructor.
  - exact IH.
  - rewrite Forall_forall in *. intros x Hx.
    apply in_map_iff in Hx. destruct Hx as (c & <- & Hc). now apply Hall.
Qed.

Lemma run_historical_backtest_effect (t t' : tester) (df : frame) :
  t_df t = Some df ->
  run_historical_backtest t = Some t' ->
  map fst (equity_history (t_engine t'))
  = map fst (equity_history (t_engine t))
    ++ map c_timestamp (skipn 50 (rows df)) /\
  ema_200 (t_engine t') = ema_200 (t_engine t) /\
  t_df t' = t_df t /\
  last_daily_summary t' = last_daily_summary t.
Proof.
  intros Hdf H. unfold run_historical_backtest in H. rewrite Hdf in H.
  simpl in H.
  apply bind_inv in H. destruct H as ((s1 & e1) & Hloop & H).
  inversion H; subst t'; clear H. cbn [fst snd t_engine t_strategy t_df
    last_candle_time last_daily_summary].
  destruct (backtest_loop_effect _ _ _ _ _ _ _ Hloop) as (Hh & Hm & _).
  rewrite firstn_all2 in Hh by (rewrite length_skipn; lia).
  split; [exact Hh|]. split; [exact Hm|]. split; [now symmetry|reflexivity].
Qed.

(** [bootstrap_historical_data] needs at least one candle.  It leaves
    as [self.df] the indicator frame of the received candles without
    duplicates and in order of time, with the latest timestamp received as
    [last_candle_time].  From an engine with no equity point, the
    timestamps of the equity history it builds increase strictly and none
    is after [last_candle_time]; the stored average of the equity curve
    and the day of the last summary stay as they were. *)
Theorem bootstrap_historical_data_spec
    (t t' : tester) (all_candles : list candle) :
  equity_history (t_engine t) = [] ->
  bootstrap_historical_data t all_candles = Some t' ->
  exists latest,
    all_candles <> [] /\
    t_df t'
    = Some (calculate_indicators (t_strategy t) (frame_of_candles all_candles)) /\
    last_candle_time t' = Some latest /\
    In latest (map c_timestamp all_candles) /\
    (forall c, In c all_candles -> (c_timestamp c <= latest)%Z) /\
    StronglySorted Z.lt (map fst (equity_history (t_engine t'))) /\
    (forall ts, In ts (map fst (equity_history (t_engine t'))) ->
       (ts <= latest)%Z) /\
    ema_200 (t_engine t') = ema_200 (t_engine t) /\
    last_daily_summary t' = last_daily_summary t.
Proof.
  intros Hempty H. unfold bootstrap_historical_data in H.
  pose proof (frame_of_candles_increasing all_candles) as Hinc.
  destruct (frame_of_candles all_candles) as [|c0 fetched] eqn:Hf;
    [discriminate|].
  rewrite <- Hf in *.
  apply bind_inv in H. destruct H as (t1 & Hrun & H).
  apply bind_inv in H. destruct H as (latest & Hlast & H).
  inversion H; subst t'; clear H.
  cbn [t_engine t_strategy t_df last_candle_time last_daily_summary].
  rewrite calculate_indicators_rows in Hlast.
  match type of Hrun with
  | run_historical_backtest ?t0 = _ =>
    destruct (run_historical_backtest_effect t0 t1 _ eq_refl Hrun)
      as (Hh & Hm & Hdf & Hsum)
  end.
  cbn [t_engine t_strategy t_df last_candle_time last_daily_summary] in *.
  rewrite calculate_indicators_rows, Hempty in Hh.
  change (map fst [] ++ ?x) with x in Hh.
  destruct (increasing_last _ _ Hinc Hlast) as (c & Hc & Hts & Hmax).
  exists latest.
  split; [intro K; rewrite K in Hf; discriminate|].
  split; [exact Hdf|]. split; [reflexivity|].
  split.
  { apply in_map_iff. exists c. split; [exact Hts|].
    now apply frame_of_candles_received. }
  split.
  { intros x Hx. destruct (frame_of_candles_covers _ _ Hx) as (x' & Hx' & <-).
    now apply Hmax. }
  split.
  { rewrite Hh. apply increasing_timestamps. now apply increasing_skipn. }
  split.
  { intros ts Hin. rewrite Hh in Hin. apply in_map_iff in Hin.
    destruct Hin as (x & <- & Hx). apply Hmax.
    clear - Hx. revert Hx. generalize 50%nat. intro n.
    revert n. induction (frame_of_candles all_candles) as [|a l IH];
      intros [|n] Hx; simpl in Hx; try contradiction; try exact Hx.
    right. exact (IH _ Hx). }
  split; [exact Hm|exact Hsum].
Qed.

Lemma bootstrap_historical_data_spec_witness :
  let received := breakout_frame 15 ++ firstn 10 (breakout_frame 15) in
  exists t' latest,
    bootstrap_historical_data init_tester received = Some t' /\
    last_candle_time t' = Some latest /\
    (50 <= latest)%Z /\
    ema_200 (t_engine t') = None.
Proof.
  intro received.
  assert (Hrun : exists t', bootstrap_historical_data init_tester received
                            = Some t')
    by (eexists; vm_compute; reflexivity).
  destruct Hrun as (t' & Hrun).
  destruct (bootstrap_historical_data_spec init_tester t' received eq_refl Hrun)
    as (latest & _ & _ & Hlast & _ & Hmax & _ & _ & Hm & _).
  exists t', latest. split; [exact Hrun|]. split; [exact Hlast|].
  split; [|exact Hm].
  apply (Hmax breakout_candle).
  unfold received. apply in_or_app. left.
  unfold breakout_frame. apply in_or_app. right.
  apply in_or_app. right. apply in_or_app. right. now left.
Defined.

(** ** A live candle *)

Lemma iloc_last_row {A : Type} (l : list A) (x : A) :
  iloc (l ++ [x]) (Z.of_nat (length (l ++ [x])) - 1) = Some x.
Proof.
  unfold iloc. rewrite length_app. cbn [length].
  replace (0 <=? Z.of_nat (length l + 1) - 1)%Z with true
    by (symmetry; apply Z.leb_le; lia).
  replace (Z.to_nat (Z.of_nat (length l + 1) - 1)) with (length l) by lia.
  rewrite nth_error_app2 by lia. now rewrite Nat.sub_diag.
Qed.

(** What the first part of [process_new_candle] does to the tester. *)
Lemma trade_on_candle_effect
    (t : tester) (c : candle) (t1 : tester) (price : Q) (ts : timestamp) :
  trade_on_candle t c = Some (t1, (price, ts)) ->
  price = c_close c /\ ts = c_timestamp c /\
  t_df t1
  = Some (calculate_indicators (t_strategy t)
            (match t_df t with Some df => rows df | None => [] end ++ [c])) /\
  (exists q,
     equity_history (t_engine t1)
     = equity_history (t_engine t) ++ [(c_timestamp c, q)]) /\
  (books_balance (t_engine t) -> books_balance (t_engine t1)) /\
  same_parameters (t_strategy t) (t_strategy t1) /\
  last_candle_time t1 = last_candle_time t /\
  last_daily_summary t1 = last_daily_summary t /\
  (exists closed, trades (t_engine t1) = trades (t_engine t) ++ closed).
Proof.
  unfold trade_on_candle. cbv zeta.
  rewrite calculate_indicators_rows, iloc_last_row. cbn [bind].
  intro H.
  apply bind_inv in H. destruct H as (e1 & H1 & H).
  apply bind_inv in H. destruct H as ((s2 & e2) & H2 & H).
  apply bind_inv in H. destruct H as (e3 & H3 & H).
  cbn [fst snd] in H3, H. inversion H; subst t1 price ts; clear H.
  cbn [t_engine t_strategy t_df last_candle_time last_daily_summary].
  apply update_if_open in H1.
  destruct (call_off_record _ _ _ H1 eq_refl) as (Hh1 & _ & Hb1 & (cl1 & Ht1));
    [discriminate|].
  assert (Hsig : same_parameters (t_strategy t) s2 /\
                 equity_history e2 = equity_history e1 /\
                 (books_balance e1 -> books_balance e2) /\
                 trades e2 = trades e1).
  { destruct (cur_position e1) eqn:Hp1.
    - inversion H2; subst.
      split; [apply same_parameters_refl|].
      split; [reflexivity|]. split; [exact (fun Hb => Hb)|reflexivity].
    - apply bind_inv in H2. destruct H2 as ((r & s3) & Hd & H2).
      cbn [fst snd] in H2.
      destruct (detect_signal_strategy _ _ _ _ _ Hd) as (Hpar & _).
      destruct r as [sg|].
      + rewrite should_take_trade_eq in H2. cbn [bind fst snd] in H2.
        apply bind_inv in H2. destruct H2 as (eq0 & _ & H2).
        match type of H2 with
        | (if ?b then _ else _) = _ => destruct b
        end.
        * apply bind_inv in H2. destruct H2 as ((o & e4) & Ho & H2).
          inversion H2; subst; clear H2.
          assert (Hc : call (set_ema_200 (calculate_ema_200 e1) e1)
                            (CallOpen sg (c_timestamp c)) = Some e2)
            by (simpl; rewrite Ho; reflexivity).
          destruct (call_off_record _ _ _ Hc eq_refl) as (A & _ & C & (cl & D));
            [discriminate|].
          split; [exact Hpar|]. split; [exact A|]. split; [exact C|].
          destruct o as [p|].
          -- pose proof (open_position_inv _ _ _ _ _ Ho)
               as (_ & _ & _ & _ & _ & _ & _ & _ & _ & _ & _ & _ & He2).
             rewrite He2. reflexivity.
          -- unfold open_position in Ho. simpl in Ho. rewrite Hp1 in Ho.
             match type of Ho with
             | (if ?b then _ else _) = _ => destruct b; [now inversion Ho|]
             end.
             apply bind_inv in Ho. destruct Ho as (? & _ & Ho).
             apply bind_inv in Ho. destruct Ho as (? & _ & Ho).
             discriminate.
        * inversion H2; subst.
          split; [exact Hpar|].
          split; [reflexivity|]. split; [exact (fun Hb => Hb)|reflexivity].
      + inversion H2; subst.
        split; [exact Hpar|].
        split; [reflexivity|]. split; [exact (fun Hb => Hb)|reflexivity]. }
  destruct Hsig as (Hpar & Hh2 & Hb2 & Ht2).
  destruct (record_equity_inv _ _ _ _ H3) as (q & _ & He3).
  split; [reflexivity|]. split; [reflexivity|]. split; [reflexivity|].
  rewrite He3. cbn [equity_history trades set_equity_history].
  split; [exists q; congruence|].
  split; [intro Hb; exact (Hb2 (Hb1 Hb))|].
  split; [exact Hpar|]. split; [reflexivity|]. split; [reflexivity|].
  exists cl1. congruence.
Qed.

(** While the engine has closed no trade, [process_new_candle] does not
    complete on a candle for which the daily summary is due (on every
    candle, when no summary was ever sent): its first part has run, so
    the candle is in the frame and its equity point is recorded, and
    then the summary raises [KeyError]; the day of the last summary is not
    written, so the summary is due again on the next candle. *)
Theorem process_new_candle_raises_without_trades
    (t : tester) (c : candle) (t1 : tester) (price : Q) (ts : timestamp) :
  trade_on_candle t c = Some (t1, (price, ts)) ->
  trades (t_engine t1) = [] ->
  summary_due t (date (c_timestamp c)) = true ->
  process_new_candle t c = None /\
  last_daily_summary t1 = last_daily_summary t /\
  forall c', (c_timestamp c <= c_timestamp c')%Z ->
    summary_due t1 (date (c_timestamp c')) = true.
Proof.
  intros Htrade Hempty Hdue.
  destruct (trade_on_candle_effect _ _ _ _ _ Htrade)
    as (_ & Hts & _ & _ & _ & _ & _ & Hsum & _).
  assert (Hdue1 : summary_due t1 (date (c_timestamp c)) = true).
  { unfold summary_due in *. now rewrite Hsum. }
  split; [|split; [exact Hsum|]].
  - unfold process_new_candle. rewrite Htrade. cbn [bind fst snd].
    unfold daily_report. rewrite Hts, Hdue1.
    unfold get_stats. rewrite Hempty. cbn [bind ret].
    destruct (get_current_equity (t_engine t1) (Some price)); reflexivity.
  - intros c' Hlater. unfold summary_due in *.
    destruct (last_daily_summary t1) as [d|]; [|reflexivity].
    apply Z.ltb_lt. apply Z.ltb_lt in Hdue1.
    assert (date (c_timestamp c) <= date (c_timestamp c'))%Z.
    { unfold date. apply Z.div_le_mono; lia. }
    lia.
Qed.

Lemma process_new_candle_raises_without_trades_witness :
  let df := calculate_indicators default_strategy
              (firstn 50 (breakout_frame 15)) in
  let t := mkTester default_strategy (init_engine None None None) (Some df)
                    (Some 49%Z) None in
  exists t1,
    trade_on_candle t breakout_candle = Some (t1, (101500, 50%Z)) /\
    process_new_candle t breakout_candle = None /\
    summary_due t1 (date 51%Z) = true.
Proof.
  intros df t. eexists.
  match goal with
  | |- ?run = Some ?x /\ _ =>
    assert (Hrun : run = Some x) by (vm_compute; reflexivity)
  end.
  split; [exact Hrun|].
  destruct (process_new_candle_raises_without_trades t breakout_candle _ _ _
              Hrun eq_refl eq_refl) as (Hraise & _ & Hagain).
  split; [exact Hraise|].
  apply (Hagain (rising_candle 51)). simpl. lia.
Defined.

(** A signal that the equity filter refuses still restarts the spacing of
    the strategy: on a flat engine, when [detect_signal] finds a signal on
    the new candle and [should_take_trade] answers no, the first part of
    [process_new_candle] opens nothing (the capital, the ledger and the
    flat position stay, one equity point is recorded at the capital), but
    the last trade index of the strategy is now the row of the candle, so
    no signal can come on the rows less than [min_trades_distance] after
    it. *)
Theorem filtered_signal_starts_spacing
    (t : tester) (c : candle) (sg : signal) (s' : strategy) (e' : engine) :
  let old_rows := match t_df t with Some df => rows df | None => [] end in
  let df := calculate_indicators (t_strategy t) (old_rows ++ [c]) in
  let idx := Z.of_nat (length old_rows) in
  cur_position (t_engine t) = None ->
  detect_signal (t_strategy t) df idx = Some (Some sg, s') ->
  should_take_trade (t_engine t) = Some (false, e') ->
  exists t1,
    trade_on_candle t c = Some (t1, (c_close c, c_timestamp c)) /\
    cur_position (t_engine t1) = None /\
    capital (t_engine t1) = capital (t_engine t) /\
    trades (t_engine t1) = trades (t_engine t) /\
    equity_history (t_engine t1)
    = equity_history (t_engine t) ++ [(c_timestamp c, capital (t_engine t))] /\
    last_trade_index (t_strategy t1) = idx /\
    forall df' idx' r,
      (idx' - idx < min_trades_distance (t_strategy t))%Z ->
      detect_signal (t_strategy t1) df' idx' = Some r ->
      r = (None, t_strategy t1).
Proof.
  intros old_rows df idx Hflat Hsig Hgate.
  destruct (detect_signal_strategy _ _ _ _ _ Hsig) as ((_ & _ & _ & Hdist) & Hs').
  rewrite should_take_trade_eq in Hgate.
  assert (Hidx : (Z.of_nat (length (old_rows ++ [c])) - 1)%Z = idx).
  { unfold idx. rewrite length_app. cbn [length]. lia. }
  assert (Hrun : trade_on_candle t c
            = Some (mkTester s'
                      (set_equity_history
                         (equity_history (t_engine t)
                          ++ [(c_timestamp c, capital (t_engine t))])
                         (set_ema_200 (calculate_ema_200 (t_engine t))
                                      (t_engine t)))
                      (Some df) (last_candle_time t) (last_daily_summary t),
                    (c_close c, c_timestamp c))).
  { unfold trade_on_candle. cbv zeta. fold old_rows.
    rewrite calculate_indicators_rows, iloc_last_row. cbn [bind].
    rewrite Hflat. cbn [bind ret]. rewrite Hflat.
    rewrite Hidx. fold df. rewrite Hsig. cbn [bind fst snd].
    rewrite should_take_trade_eq. cbn [bind fst snd].
    assert (Hb : match calculate_ema_200 (t_engine t) with
                 | Some ema => Qgtb (capital (t_engine t)) ema
                 | None => true
                 end = false) by now inversion Hgate.
    rewrite Hb.
    unfold record_equity, get_current_equity.
    repeat (cbn [bind ret fst snd cur_position set_ema_200]; rewrite ?Hflat).
    reflexivity. }
  eexists. split; [exact Hrun|].
  cbn [t_engine t_strategy].
  split; [exact Hflat|]. split; [reflexivity|]. split; [reflexivity|].
  split; [reflexivity|].
  split; [now rewrite Hs'|].
  intros df' idx' r Hnear Hr.
  apply (detect_signal_spaced _ df' idx'); [|exact Hr].
  rewrite Hs'. cbn [last_trade_index set_last_trade_index min_trades_distance].
  exact Hnear.
Qed.

Lemma filtered_signal_starts_spacing_witness :
  let df := calculate_indicators default_strategy
              (firstn 50 (breakout_frame 15)) in
  let history := map (fun i => (Z.of_nat i, 100)) (seq 0 200) in
  let e := set_equity_history history (init_engine None None None) in
  let t := mkTester default_strategy e (Some df) (Some 49%Z) None in
  exists t1,
    trade_on_candle t breakout_candle = Some (t1, (101500, 50%Z)) /\
    cur_position (t_engine t1) = None /\
    capital (t_engine t1) = 100 /\
    last_trade_index (t_strategy t1) = 50%Z.
Proof.
  intros df history e t.
  assert (Hsig : detect_signal default_strategy
                   (calculate_indicators default_strategy
                      (firstn 50 (breakout_frame 15) ++ [breakout_candle]))
                   50
                 = Some (Some (mkSignal Long (c_close breakout_candle)
                                        (c_low (bearish_candle 35)) 50%Z 35%Z),
                         set_last_trade_index 50 default_strategy))
    by (vm_compute; reflexivity).
  assert (Hgate : exists e', should_take_trade e = Some (false, e'))
    by (eexists; vm_compute; reflexivity).
  destruct Hgate as (e' & Hgate).
  destruct (filtered_signal_starts_spacing t breakout_candle _ _ e'
              eq_refl Hsig Hgate)
    as (t1 & Hrun & Hflat & Hcap & _ & _ & Hidx & _).
  exists t1. split; [exact Hrun|]. split; [exact Hflat|].
  split; [exact Hcap|exact Hidx].
Defined.

(** When [process_new_candle] completes: the frame is the indicator frame
    of the old rows and the new candle; the equity history has one more
    point, at the timestamp of the candle; the ledger of trades has only
    grown at its end; balanced books stay balanced; the parameters of the
    strategy and [last_candle_time] are not written; if the daily summary
    was due it was sent for the day of the candle, and then the ledger is
    not empty; and no summary is due any more for that day. *)
Theorem process_new_candle_effect (t : tester) (c : candle) (t' : tester) :
  process_new_candle t c = Some t' ->
  t_df t'
  = Some (calculate_indicators (t_strategy t)
            (match t_df t with Some df => rows df | None => [] end ++ [c])) /\
  (exists q,
     equity_history (t_engine t')
     = equity_history (t_engine t) ++ [(c_timestamp c, q)]) /\
  (exists closed, trades (t_engine t') = trades (t_engine t) ++ closed) /\
  (books_balance (t_engine t) -> books_balance (t_engine t')) /\
  same_parameters (t_strategy t) (t_strategy t') /\
  last_candle_time t' = last_candle_time t /\
  (if summary_due t (date (c_timestamp c))
   then last_daily_summary t' = Some (date (c_timestamp c)) /\
        trades (t_engine t') <> []
   else last_daily_summary t' = last_daily_summary t) /\
  summary_due t' (date (c_timestamp c)) = false.
Proof.
  unfold process_new_candle. intro H.
  apply bind_inv in H. destruct H as ((t1 & (price & ts)) & Htrade & H).
  cbn [fst snd] in H.
  destruct (trade_on_candle_effect _ _ _ _ _ Htrade)
    as (_ & Hts & Hdf & Hq & Hb & Hpar & Hlast & Hsum & Hcl).
  subst ts. unfold daily_report in H.
  apply bind_inv in H. destruct H as (t2 & Hrep & H).
  apply bind_inv in H. destruct H as (st & _ & H).
  apply bind_inv in H. destruct H as (x1 & _ & H).
  apply bind_inv in H. destruct H as (x2 & _ & H).
  apply bind_inv in H. destruct H as (x3 & _ & H).
  apply bind_inv in H. destruct H as (x4 & _ & H).
  inversion H; subst t'; clear H.
  assert (Hdue : summary_due t1 (date (c_timestamp c))
                 = summary_due t (date (c_timestamp c)))
    by (unfold summary_due; now rewrite Hsum).
  rewrite Hdue in Hrep.
  destruct (summary_due t (date (c_timestamp c))) eqn:E.
  - apply bind_inv in Hrep. destruct Hrep as (st1 & Hst & Hrep).
    apply bind_inv in Hrep. destruct Hrep as (eq1 & _ & Hrep).
    apply bind_inv in Hrep. destruct Hrep as (sent & Hsent & Hrep).
    inversion Hrep; subst t2; clear Hrep.
    cbn [t_engine t_strategy t_df last_candle_time last_daily_summary].
    split; [exact Hdf|]. split; [exact Hq|]. split; [exact Hcl|].
    split; [exact Hb|]. split; [exact Hpar|]. split; [exact Hlast|].
    split.
    + split; [reflexivity|].
      intro Hempty. unfold get_stats in Hst. rewrite Hempty in Hst.
      inversion Hst; subst st1. discriminate.
    + unfold summary_due. cbn [last_daily_summary]. apply Z.ltb_irrefl.
  - inversion Hrep; subst t2; clear Hrep.
    split; [exact Hdf|]. split; [exact Hq|]. split; [exact Hcl|].
    split; [exact Hb|]. split; [exact Hpar|]. split; [exact Hlast|].
    split; [exact Hsum|].
    now rewrite Hdue.
Qed.

Lemma process_new_candle_effect_witness :
  let df := calculate_indicators default_strategy
              (firstn 50 (breakout_frame 15)) in
  exists e t',
    calls (init_engine None None None)
          [CallOpen (mkSignal Long 3000 2950 0%Z 46%Z) 0%Z;
           CallClose 3050 2%Z "manual"] = Some e /\
    process_new_candle (mkTester default_strategy e (Some df) (Some 49%Z) None)
                       breakout_candle = Some t' /\
    last_daily_summary t' = Some 0%Z /\
    trades (t_engine t') <> [] /\
    last_candle_time t' = Some 49%Z.
Proof.
  intro df. eexists. eexists.
  split; [vm_compute; reflexivity|].
  match goal with
  | |- ?run = Some ?x /\ _ =>
    assert (Hrun : run = Some x) by (vm_compute; reflexivity)
  end.
  split; [exact Hrun|].
  destruct (process_new_candle_effect _ _ _ Hrun)
    as (_ & _ & _ & _ & _ & Hlast & Hdue & _).
  cbn [summary_due last_daily_summary] in Hdue.
  destruct Hdue as (Hday & Hne).
  split; [exact Hday|]. split; [exact Hne|exact Hlast].
Defined.
